(** * Light FX: palette interpolation, frame generators and effect scheduling

    A shallow embedding of the Light FX add-on
    (color_manager.py, light_manager.py, effect_engine.py, main.py,
    ha_api.py).

    Modelling conventions.
    - A Python [float] is modelled by an exact rational ([Q]); two floats are
      compared with [==] ([Qeq]).  Every statement below about interpolated
      values is therefore a statement about the algorithm in exact arithmetic;
      a binary64 transcription of [_interpolate_hue] is kept beside it for the
      concrete hue scenarios.
    - A raised exception is a value of [exn]; a function that can raise returns
      a [result].
    - A [dict] is a [gmap]; the objects the program stores in several dicts are
      never mutated after construction, so they are modelled by value.
    - The controller (Home Assistant behind [HomeAssistantAPI]) is a
      parameter: its two operations thread an abstract controller state.
    - The module [random] is a given sequence of draws, of which the
      twinkle effect counts how many it has taken.
    - The websocket is the list of the messages still to arrive; a
      coroutine that blocks on an empty list is left waiting. *)

From Stdlib Require Import QArith Qround Qabs Qminmax Lqa Lia ZArith Floats.
From stdpp Require Import gmap strings list fin_maps sorting.

Local Open Scope Q_scope.
Local Open Scope string_scope.

(** ** Python values and exceptions *)

Inductive exn : Type :=
  | ValueError (msg : string)
  | KeyError (key : string)
  | IndexError
  | AttributeError (attr : string)
  | ControllerError (msg : string)
  | CancelledError.

Inductive result (A : Type) : Type :=
  | Ok (a : A)
  | Raise (e : exn).
Arguments Ok {A} a.
Arguments Raise {A} e.

Definition bind {A B} (r : result A) (k : A -> result B) : result B :=
  match r with
  | Ok a => k a
  | Raise e => Raise e
  end.

Notation "'do' x <- r ;; k" := (bind r (fun x => k))
  (at level 10, x name, r at level 99, k at level 200).

(** [int(x)] on a float truncates toward zero. *)
Definition py_int (x : Q) : Z := Z.quot (Qnum x) (Z.pos (Qden x)).

(** [x % m] on floats, for a divisor [m > 0]: the result has the sign of [m]. *)
Definition py_mod (x m : Q) : Q := x - m * inject_Z (Qfloor (x / m)).

Definition Qlt_bool (x y : Q) : bool := negb (Qle_bool y x).

(** ** The colour library (third party): a [Color] is modelled by the RGB
    channels it exposes, each in [0,1] *)

Module colour.

Record Color : Type := mkColor { red : Q; green : Q; blue : Q }.

Definition rgb (c : Color) : Q * Q * Q := (red c, green c, blue c).

Definition of_rgb (t : Q * Q * Q) : Color :=
  let '(r, g, b) := t in mkColor r g b.

(** [Color("#rrggbb")] and the web names used by the builtin palettes. *)
Definition of_rgb255 (r g b : Z) : Color :=
  mkColor (r # 255) (g # 255) (b # 255).

Definition web (name : string) : option Color :=
  if String.eqb name "red" then Some (of_rgb255 255 0 0)
  else if String.eqb name "orange" then Some (of_rgb255 255 165 0)
  else if String.eqb name "yellow" then Some (of_rgb255 255 255 0)
  else if String.eqb name "green" then Some (of_rgb255 0 128 0)
  else if String.eqb name "blue" then Some (of_rgb255 0 0 255)
  else if String.eqb name "indigo" then Some (of_rgb255 75 0 130)
  else if String.eqb name "violet" then Some (of_rgb255 238 130 238)
  else None.

Definition named (name : string) : Color :=
  default (mkColor 0 0 0) (web name).


(** The class invariant of [Color]: every channel lies in [0,1]. *)
Definition valid (c : Color) : Prop :=
  (0 <= red c /\ red c <= 1) /\ (0 <= green c /\ green c <= 1) /\
  (0 <= blue c /\ blue c <= 1).

End colour.

(** ** colorsys (Python standard library), transcribed from CPython's
    Lib/colorsys.py *)

Module colorsys.

Definition rgb_to_hsv (t : Q * Q * Q) : Q * Q * Q :=
  let '(r, g, b) := t in
  let maxc := Qmax r (Qmax g b) in
  let minc := Qmin r (Qmin g b) in
  let rangec := maxc - minc in
  let v := maxc in
  if Qeq_bool minc maxc then (0, 0, v)
  else
    let s := rangec / maxc in
    let rc := (maxc - r) / rangec in
    let gc := (maxc - g) / rangec in
    let bc := (maxc - b) / rangec in
    let h :=
      if Qeq_bool r maxc then bc - gc
      else if Qeq_bool g maxc then 2 + rc - bc
      else 4 + gc - rc in
    let h := py_mod (h / 6) 1 in
    (h, s, v).

Definition hsv_to_rgb (t : Q * Q * Q) : Q * Q * Q :=
  let '(h, s, v) := t in
  if Qeq_bool s 0 then (v, v, v)
  else
    let i := py_int (h * 6) in
    let f := h * 6 - inject_Z i in
    let p := v * (1 - s) in
    let q := v * (1 - s * f) in
    let t := v * (1 - s * (1 - f)) in
    let i := (i mod 6)%Z in
    if (i =? 0)%Z then (v, t, p)
    else if (i =? 1)%Z then (q, v, p)
    else if (i =? 2)%Z then (p, v, t)
    else if (i =? 3)%Z then (p, q, v)
    else if (i =? 4)%Z then (t, p, v)
    else (v, p, q).

End colorsys.

(** ** color_manager.py *)

Module color_manager.
Import colour.

Record ColorPoint : Type := mkColorPoint { color : Color; position : Q }.

Record Palette : Type := mkPalette {
  name : string;
  colors : list ColorPoint;
  type : string;                              (* static, gradient, or dynamic *)
  parameters : option (list (string * Z))
}.

Record ColorManager : Type := mkColorManager {
  palettes : gmap string Palette
}.

Definition rainbow : Palette :=
  mkPalette "rainbow"
    [ mkColorPoint (named "red") 0;
      mkColorPoint (named "orange") (166 # 10);
      mkColorPoint (named "yellow") (333 # 10);
      mkColorPoint (named "green") 50;
      mkColorPoint (named "blue") (666 # 10);
      mkColorPoint (named "indigo") (833 # 10);
      mkColorPoint (named "violet") 100 ]
    "gradient" None.

Definition fire : Palette :=
  mkPalette "fire"
    [ mkColorPoint (of_rgb255 255 0 0) 0;
      mkColorPoint (of_rgb255 255 136 0) 50;
      mkColorPoint (of_rgb255 255 255 0) 100 ]
    "dynamic" (Some [("variation", 20%Z)]).

Definition _init_default_palettes (self : ColorManager) : ColorManager :=
  mkColorManager (<["fire" := fire]> (<["rainbow" := rainbow]> (palettes self))).

Definition __init__ : ColorManager :=
  _init_default_palettes (mkColorManager ∅).

(** [rgb_to_rgbw(rgb)] on integer channels. *)
Definition rgb_to_rgbw (rgb : Z * Z * Z) : Z * Z * Z * Z :=
  let '(r, g, b) := rgb in
  (* Extract the white component using the minimum of RGB *)
  let w := Z.min (Z.min r g) b in
  if (0 <? w)%Z then ((r - w)%Z, (g - w)%Z, (b - w)%Z, w)
  else (r, g, b, w).

(** [rgb_to_rgbww(rgb, color_temp)]; the default of [color_temp] is 6500. *)
Definition rgb_to_rgbww (rgb : Z * Z * Z) (color_temp : Z)
    : Z * Z * Z * Z * Z :=
  let '(r, g, b) := rgb in
  (* First get the white component *)
  let w := Z.min (Z.min r g) b in
  let total_white := w in
  let '(cw, ww) :=
    if (6500 <=? color_temp)%Z then (total_white, 0%Z)             (* Cold white *)
    else if (color_temp <=? 2700)%Z then (0%Z, total_white)        (* Warm white *)
    else
      (* Linear interpolation between warm and cold *)
      let ratio := inject_Z (color_temp - 2700) / inject_Z (6500 - 2700) in
      let cw := py_int (inject_Z total_white * ratio) in
      (cw, (total_white - cw)%Z) in
  if (0 <? w)%Z then ((r - w)%Z, (g - w)%Z, (b - w)%Z, cw, ww)
  else (r, g, b, cw, ww).

Definition _interpolate_hue (h1 h2 ratio : Q) : Q :=
  let diff := h2 - h1 in
  let h2 :=
    if Qlt_bool (1 # 2) diff then h2 - 1
    else if Qlt_bool diff (- (1 # 2)) then h2 + 1
    else h2 in
  let h := h1 + (h2 - h1) * ratio in
  if Qlt_bool h 0 then h + 1
  else if Qlt_bool 1 h then h - 1
  else h.

(** [_interpolate_hue] over binary64 floats, as Python computes it. *)
Definition _interpolate_hue_binary64 (h1 h2 ratio : float) : float :=
  let diff := (h2 - h1)%float in
  let h2 :=
    if (0.5 <? diff)%float then (h2 - 1)%float
    else if (diff <? -0.5)%float then (h2 + 1)%float
    else h2 in
  let h := (h1 + (h2 - h1) * ratio)%float in
  if (h <? 0)%float then (h + 1)%float
  else if (1 <? h)%float then (h - 1)%float
  else h.

Definition _interpolate_color (color1 color2 : Color) (ratio : Q) : Color :=
  let '(h1, s1, v1) := colorsys.rgb_to_hsv (rgb color1) in
  let '(h2, s2, v2) := colorsys.rgb_to_hsv (rgb color2) in
  let h := _interpolate_hue h1 h2 ratio in
  let s := s1 + (s2 - s1) * ratio in
  let v := v1 + (v2 - v1) * ratio in
  of_rgb (colorsys.hsv_to_rgb (h, s, v)).

(** [min(colors, key=lambda x: abs(x.position - position))] on a list that
    starts with [best]: the first stop among those nearest to [position0]. *)
Fixpoint min_by_distance (position0 : Q) (best : ColorPoint)
    (rest : list ColorPoint) : ColorPoint :=
  match rest with
  | [] => best
  | x :: rest' =>
      if Qlt_bool (Qabs (position x - position0)) (Qabs (position best - position0))
      then min_by_distance position0 x rest'
      else min_by_distance position0 best rest'
  end.

(** [sorted(colors, key=lambda x: x.position)]: a stable sort. *)
Fixpoint insert_sorted (x : ColorPoint) (l : list ColorPoint) : list ColorPoint :=
  match l with
  | [] => [x]
  | y :: l' =>
      if Qle_bool (position x) (position y) then x :: y :: l'
      else y :: insert_sorted x l'
  end.

Fixpoint sorted (l : list ColorPoint) : list ColorPoint :=
  match l with
  | [] => []
  | x :: l' => insert_sorted x (sorted l')
  end.

(** The [for i in range(len(colors) - 1)] loop of the gradient branch: the
    colour returned from inside the loop, [None] when it falls through. *)
Fixpoint gradient_loop (position0 : Q) (cs : list ColorPoint) : option Color :=
  match cs with
  | c1 :: ((c2 :: _) as rest) =>
      if Qle_bool (position c1) position0 && Qle_bool position0 (position c2) then
        let range_size := position c2 - position c1 in
        if Qeq_bool range_size 0 then Some (color c1)
        else
          let ratio := (position0 - position c1) / range_size in
          Some (_interpolate_color (color c1) (color c2) ratio)
      else gradient_loop position0 rest
  | _ => None
  end.

(** The result is [Ok None] where the Python function runs off its end. *)
Definition get_color_at_position (self : ColorManager) (palette_name : string)
    (position0 : Q) : result (option Color) :=
  match palettes self !! palette_name with
  | None => Raise (ValueError ("Palette " ++ palette_name ++ " not found"))
  | Some palette =>
      if String.eqb (type palette) "static" then
        match colors palette with
        | [] => Raise (ValueError "min() arg is an empty sequence")
        | c :: cs => Ok (Some (color (min_by_distance position0 c cs)))
        end
      else if String.eqb (type palette) "gradient" then
        let cs := sorted (colors palette) in
        match gradient_loop position0 cs with
        | Some c => Ok (Some c)
        | None =>
            match last cs, head cs with
            | Some cl, Some c0 =>
                Ok (Some (if Qlt_bool (position cl) position0 then color cl
                          else color c0))
            | _, _ => Raise IndexError
            end
        end
      else Ok None
  end.

End color_manager.

(** ** light_manager.py: the data classes *)

Module light_manager.

Record LightCapabilities : Type := mkLightCapabilities {
  supports_rgb : bool;
  supports_rgbw : bool;
  supports_rgbww : bool;
  supports_color_temp : bool;
  min_mireds : option Z;
  max_mireds : option Z;
  supports_transition : bool;
  supports_brightness : bool
}.

Record LightState : Type := mkLightState {
  entity_id : string;
  state : option string;                                   (* on/off *)
  brightness : option Z;
  rgb_color : option (list Z);
  rgbw_color : option (list Z);
  rgbww_color : option (list Z);
  color_temp : option Z
}.

Record LightSequence : Type := mkLightSequence {
  name : string;
  light_ids : list string;
  states : gmap string LightState;
  capabilities : gmap string LightCapabilities
}.

(** [LightSequence(name, lights)] *)
Definition new_LightSequence (name0 : string) (lights : list string) : LightSequence :=
  mkLightSequence name0 lights ∅ ∅.

End light_manager.

(** ** effect_engine.py: configuration and frame generators *)

Module effect_engine.
Import colour color_manager light_manager.

Record EffectConfig : Type := mkEffectConfig {
  speed : Z;                                   (* 1-100 *)
  intensity : Z;                               (* 1-100 *)
  palette_name : string;
  reverse : bool;
  mirror : bool
}.

(** The defaults of the dataclass. *)
Definition default_config : EffectConfig :=
  mkEffectConfig 50 100 "rainbow" false false.

(** The base class [Effect]: [_start_time] is the clock reading taken when
    the effect object is constructed. *)
Record Effect : Type := mkEffect {
  color_manager : ColorManager;
  _frame : Z;
  _start_time : Q
}.

(** The value stored under the key "rgb_color" of one light's update. *)
Definition Params : Type := list Z.

(** [enumerate(l)], counting from [start]. *)
Fixpoint enumerate_from {A} (start : nat) (l : list A) : list (nat * A) :=
  match l with
  | [] => []
  | x :: l' => (start, x) :: enumerate_from (S start) l'
  end.

Definition enumerate {A} (l : list A) : list (nat * A) := enumerate_from 0 l.

(** A [for] loop over [items] whose body may raise. *)
Fixpoint for_each {A S} (items : list A) (body : A -> S -> result S) (s : S)
    : result S :=
  match items with
  | [] => Ok s
  | x :: items' =>
      do s' <- body x s ;; for_each items' body s'
  end.

Definition of_nat (n : nat) : Q := inject_Z (Z.of_nat n).

(** [[int(c * config.intensity / 100) for c in
      [color.red * 255, color.green * 255, color.blue * 255]]];
    [color] is what the palette query returned, [None] included. *)
Definition apply_intensity (config : EffectConfig) (color : option Color)
    : result Params :=
  match color with
  | None => Raise (AttributeError "red")
  | Some color =>
      Ok (map (fun c => py_int (c * inject_Z (intensity config) / 100))
              [red color * 255; green color * 255; blue color * 255])
  end.

Module RainbowEffect.

Definition body (self : Effect) (sequence : LightSequence) (config : EffectConfig)
    (num_lights : nat) (time_offset : Q)
    (item : nat * string) (updates : gmap string Params)
    : result (gmap string Params) :=
  let '(i, light_id) := item in
  (* Calculate position in rainbow (0-100) *)
  let pos := py_mod ((of_nat i / of_nat num_lights) * 100 + time_offset * 20) 100 in
  let pos := if reverse config then 100 - pos else pos in
  do color <- get_color_at_position (color_manager self) "rainbow" pos ;;
  (* Apply intensity *)
  do rgb <- apply_intensity config color ;;
  let updates := <[light_id := rgb]> updates in
  (* Handle mirroring *)
  if mirror config && (num_lights / 2 <=? i)%nat then
    let mirror_i := (num_lights - 1 - i)%nat in
    match light_ids sequence !! mirror_i with
    | Some mirror_id => Ok (<[mirror_id := rgb]> updates)
    | None => Raise IndexError
    end
  else Ok updates.

(** [now] is the reading of [time.time()]. *)
Definition generate_frame (self : Effect) (now : Q) (sequence : LightSequence)
    (config : EffectConfig) : result (gmap string Params) :=
  let num_lights := length (light_ids sequence) in
  let speed_factor := inject_Z (speed config) / 50 in
  let time_offset := (now - _start_time self) * speed_factor in
  for_each (enumerate (light_ids sequence))
           (body self sequence config num_lights time_offset) ∅.

End RainbowEffect.

Module ColorWipeEffect.

Definition body (self : Effect) (config : EffectConfig)
    (num_lights : nat) (active_lights : Z)
    (item : nat * string) (updates : gmap string Params)
    : result (gmap string Params) :=
  let '(i, light_id) := item in
  let i := if reverse config then (num_lights - 1 - i)%nat else i in
  if (Z.of_nat i <? active_lights)%Z then
    do color <- get_color_at_position (color_manager self) (palette_name config)
                  ((of_nat i / of_nat num_lights) * 100) ;;
    do rgb <- apply_intensity config color ;;
    Ok (<[light_id := rgb]> updates)
  else Ok (<[light_id := [0; 0; 0]%Z]> updates).

Definition generate_frame (self : Effect) (now : Q) (sequence : LightSequence)
    (config : EffectConfig) : result (gmap string Params) :=
  let num_lights := length (light_ids sequence) in
  let speed_factor := inject_Z (speed config) / 50 in
  (* Calculate which lights should be on based on time *)
  let time_offset := (now - _start_time self) * speed_factor in
  let active_lights := py_int (py_mod (time_offset * 2) (of_nat (num_lights + 1))) in
  match palettes (color_manager self) !! palette_name config with
  | None => Raise (KeyError (palette_name config))
  | Some palette =>
      for_each (enumerate (light_ids sequence))
               (body self config num_lights active_lights) ∅
  end.

End ColorWipeEffect.

(** [TwinkleEffect]: the object adds [_twinkle_states] to the fields of
    [Effect].  The module [random] is modelled by the sequence [rnd] of the
    values that successive calls of [random.random()] return, and by the
    number of values drawn so far. *)
Module TwinkleEffect.

Record state : Type := mkState {
  _twinkle_states : gmap string Q;
  drawn : nat
}.

(** [TwinkleEffect.__init__] *)
Definition __init__ : state := mkState ∅ 0.

Definition set_twinkle (light_id : string) (x : Q) (st : state) : state :=
  mkState (<[light_id := x]> (_twinkle_states st)) (drawn st).

(** [random.random()] *)
Definition random (rnd : nat -> Q) (st : state) : Q * state :=
  (rnd (drawn st), mkState (_twinkle_states st) (S (drawn st))).

(** [random.uniform(a, b)] is [a + (b - a) * random()]. *)
Definition uniform (rnd : nat -> Q) (a b : Q) (st : state) : Q * state :=
  let '(x, st) := random rnd st in (a + (b - a) * x, st).

(** The first loop: initialize twinkle states if needed. *)
Definition init_states (light_ids0 : list string) (st : state) : state :=
  foldl (fun st light_id =>
           match _twinkle_states st !! light_id with
           | None => set_twinkle light_id 0 st
           | Some _ => st
           end) st light_ids0.

(** [[int(c * intensity) for c in
      [color.red * 255, color.green * 255, color.blue * 255]]] *)
Definition scale (intensity0 : Q) (color : option Color) : result Params :=
  match color with
  | None => Raise (AttributeError "red")
  | Some color =>
      Ok (map (fun c => py_int (c * intensity0))
              [red color * 255; green color * 255; blue color * 255])
  end.

(** One turn of the second loop.  The state is returned beside the outcome:
    what the turn has done to the object stays when it raises. *)
Definition body (self : Effect) (rnd : nat -> Q) (config : EffectConfig)
    (speed_factor : Q) (light_id : string) (st : state)
    (updates : gmap string Params) : state * result (gmap string Params) :=
  match _twinkle_states st !! light_id with
  | None => (st, Raise (KeyError light_id))
  | Some s =>
      if Qeq_bool s 0 then
        (* Start new twinkle? *)
        let '(x, st) := random rnd st in
        if Qlt_bool x ((1 # 10) * speed_factor) then
          let st := set_twinkle light_id 1 st in
          let '(pos, st) := uniform rnd 0 100 st in
          (st,
           do color <- get_color_at_position (color_manager self)
                         (palette_name config) pos ;;
           do rgb <- apply_intensity config color ;;
           Ok (<[light_id := rgb]> updates))
        else (st, Ok (<[light_id := [0; 0; 0]%Z]> updates))
      else
        (* Fade existing twinkle *)
        let s := s - (1 # 10) * speed_factor in
        let st := set_twinkle light_id s st in
        if Qle_bool s 0 then
          (set_twinkle light_id 0 st, Ok (<[light_id := [0; 0; 0]%Z]> updates))
        else
          let '(pos, st) := uniform rnd 0 100 st in
          (st,
           do color <- get_color_at_position (color_manager self)
                         (palette_name config) pos ;;
           let intensity0 := s * inject_Z (intensity config) / 100 in
           do rgb <- scale intensity0 color ;;
           Ok (<[light_id := rgb]> updates))
  end.

(** The second loop: update twinkle states. *)
Fixpoint update_states (self : Effect) (rnd : nat -> Q) (config : EffectConfig)
    (speed_factor : Q) (light_ids0 : list string) (st : state)
    (updates : gmap string Params) : state * result (gmap string Params) :=
  match light_ids0 with
  | [] => (st, Ok updates)
  | light_id :: rest =>
      match body self rnd config speed_factor light_id st updates with
      | (st, Ok updates) => update_states self rnd config speed_factor rest st updates
      | (st, Raise e) => (st, Raise e)
      end
  end.

Definition generate_frame (self : Effect) (rnd : nat -> Q) (st : state)
    (sequence : LightSequence) (config : EffectConfig)
    : state * result (gmap string Params) :=
  let speed_factor := inject_Z (speed config) / 50 in
  let st := init_states (light_ids sequence) st in
  update_states self rnd config speed_factor (light_ids sequence) st ∅.

End TwinkleEffect.

End effect_engine.

(** ** ha_api.py: the controller interface *)

Module ha_api.

(** A value of the [attributes] object of a state document. *)
Inductive attr : Type :=
  | AInt (z : Z)
  | AStr (s : string)
  | AInts (l : list Z)
  | AStrs (l : list string).

(** The state document of an entity: [state.get('state')] and
    [state.get('attributes', {})]. *)
Record StateDoc : Type := mkStateDoc {
  doc_state : option string;
  doc_attributes : gmap string attr
}.

(** The payload of a service call: [{'entity_id': entity_id, **kwargs}]. *)
Record ServiceData : Type := mkServiceData {
  data_entity_id : string;
  data_rgb_color : option (list Z)
}.

(** What the add-on needs of [HomeAssistantAPI]; [HA] is the state of the
    controller and of the connection to it. *)
Class HomeAssistantAPI (HA : Type) : Type := {
  get_state : HA -> string -> HA * result StateDoc;
  call_service : HA -> string -> string -> ServiceData -> HA * result unit
}.

(** *** The websocket connection

    The connection is modelled by the messages still to arrive, in order;
    sending and receiving themselves do not fail.  A message is a JSON object
    of which the client reads the keys "type", "success" and "event".  A
    coroutine that waits for a message that never arrives is [Waiting]. *)

Record Message (E : Type) : Type := mkMessage {
  msg_type : option string;
  msg_success : option bool;        (* the truth value of msg.get("success") *)
  msg_event : option E
}.
Arguments mkMessage {E}.
Arguments msg_type {E}.
Arguments msg_success {E}.
Arguments msg_event {E}.

(** What the client sends. *)
Inductive Sent : Type :=
  | AuthMsg (access_token : string)
  | SubscribeMsg (id : Z) (event_type : string).

(** The fields of [HomeAssistantAPI] that the websocket functions use;
    [websocket] tells whether [self.websocket] is set, [sent] lists what has
    been sent so far. *)
Record Client : Type := mkClient {
  host : string;
  token : string;
  port : Z;
  websocket : bool;
  id_counter : Z;
  sent : list Sent
}.

(** [HomeAssistantAPI(host, token)] *)
Definition new_Client (host0 token0 : string) : Client :=
  mkClient host0 token0 8123 false 0 [].

Inductive outcome (A : Type) : Type :=
  | Returned (a : A)
  | Raised (e : exn)
  | Waiting.
Arguments Returned {A} a.
Arguments Raised {A} e.
Arguments Waiting {A}.

Section websocket.
Context {E S : Type}.

Definition connect_websocket (self : Client) (incoming : list (Message E))
    : Client * list (Message E) * outcome unit :=
  let self := mkClient (host self) (token self) (port self) true (id_counter self)
                (sent self) in
  (* Send auth message *)
  let self := mkClient (host self) (token self) (port self) (websocket self)
                (id_counter self) (sent self ++ [AuthMsg (token self)]) in
  (* Wait for auth_ok message *)
  match incoming with
  | [] => (self, [], Waiting)
  | msg :: incoming =>
      match msg_type msg with
      | None => (self, incoming, Raised (KeyError "type"))
      | Some ty =>
          if negb (String.eqb ty "auth_ok")
          then (self, incoming, Raised (ControllerError "Authentication failed"))
          else (self, incoming, Returned tt)
      end
  end.

(** The [while True] loop of [subscribe_to_events]; the callback works on a
    state of its own. *)
Fixpoint listen (callback : E -> S -> S * result unit)
    (incoming : list (Message E)) (s : S) : S * outcome unit :=
  match incoming with
  | [] => (s, Waiting)
  | msg :: incoming =>
      match msg_type msg with
      | None => (s, Raised (KeyError "type"))
      | Some ty =>
          if String.eqb ty "event" then
            match msg_event msg with
            | None => (s, Raised (KeyError "event"))
            | Some ev =>
                match callback ev s with
                | (s, Ok _) => listen callback incoming s
                | (s, Raise e) => (s, Raised e)
                end
            end
          else listen callback incoming s
      end
  end.

Definition subscribe_to_events (self : Client) (event_type : string)
    (callback : E -> S -> S * result unit) (incoming : list (Message E)) (s : S)
    : Client * S * outcome unit :=
  let '(self, incoming, connected) :=
    if websocket self then (self, incoming, Returned tt)
    else connect_websocket self incoming in
  match connected with
  | Raised e => (self, s, Raised e)
  | Waiting => (self, s, Waiting)
  | Returned _ =>
      let self := mkClient (host self) (token self) (port self) (websocket self)
                    (id_counter self + 1) (sent self) in
      let self := mkClient (host self) (token self) (port self) (websocket self)
                    (id_counter self)
                    (sent self ++ [SubscribeMsg (id_counter self) event_type]) in
      (* Handle the subscription confirmation *)
      match incoming with
      | [] => (self, s, Waiting)
      | msg :: incoming =>
          match msg_type msg with
          | None => (self, s, Raised (KeyError "type"))
          | Some ty =>
              if negb (String.eqb ty "result")
                 || negb (default false (msg_success msg))
              then (self, s, Raised (ControllerError "Failed to subscribe to events"))
              else
                (* Start listening for events *)
                let '(s, r) := listen callback incoming s in (self, s, r)
          end
      end
  end.

End websocket.

Definition close (self : Client) : Client :=
  if websocket self
  then mkClient (host self) (token self) (port self) false (id_counter self)
         (sent self)
  else self.

End ha_api.

(** ** The running application: LightFX with its managers and tasks *)

Module app.
Import colour color_manager light_manager effect_engine ha_api.

(** [LightManager]: the registry. *)
Record LightManager : Type := mkLightManager {
  sequences : gmap string LightSequence;
  light_states : gmap string LightState
}.

(** The three effect classes registered by [EffectEngine.__init__]; a
    registered effect object is its class with the fields of [Effect]. *)
Inductive EffectKind : Type := Rainbow | ColorWipe | Twinkle.

Definition EffectObject : Type := EffectKind * Effect.

(** An asyncio task running [_run_effect(sequence, effect, config)]. *)
Inductive TaskStatus : Type :=
  | Pending
  | Cancelled
  | Failed (e : exn).

Record Task : Type := mkTask {
  task_key : string;            (* the sequence name given to start_effect *)
  task_sequence : LightSequence;
  task_effect : EffectObject;
  task_config : EffectConfig;
  task_status : TaskStatus
}.

(** [EffectEngine]: a task is referred to by its index in [tasks]. *)
Record EffectEngine : Type := mkEffectEngine {
  effects : gmap string EffectObject;
  _running_effects : gmap string (EffectObject * EffectConfig * nat);
  tasks : list Task
}.

(** A service call as the controller receives it, with the task that issued
    it ([None]: the main coroutine). *)
Record Call : Type := mkCall {
  issuer : option nat;
  call_name : string;
  call_data : ServiceData
}.

Record World (HA : Type) : Type := mkWorld {
  ha : HA;
  light_manager : LightManager;
  effect_engine : EffectEngine;
  current : option nat;          (* the task being run *)
  calls : list Call;             (* every service call issued so far *)
  service_errors : list exn      (* what handle_service_call has logged *)
}.
Arguments mkWorld {HA}.
Arguments ha {HA}.
Arguments light_manager {HA}.
Arguments effect_engine {HA}.
Arguments current {HA}.
Arguments calls {HA}.
Arguments service_errors {HA}.

Section world.
Context {HA : Type}.

Definition set_ha (x : HA) (w : World HA) : World HA :=
  mkWorld x (light_manager w) (effect_engine w) (current w) (calls w)
    (service_errors w).

Definition set_light_manager (x : LightManager) (w : World HA) : World HA :=
  mkWorld (ha w) x (effect_engine w) (current w) (calls w) (service_errors w).

Definition set_effect_engine (x : EffectEngine) (w : World HA) : World HA :=
  mkWorld (ha w) (light_manager w) x (current w) (calls w) (service_errors w).

Definition set_current (x : option nat) (w : World HA) : World HA :=
  mkWorld (ha w) (light_manager w) (effect_engine w) x (calls w)
    (service_errors w).

Definition set_calls (x : list Call) (w : World HA) : World HA :=
  mkWorld (ha w) (light_manager w) (effect_engine w) (current w) x
    (service_errors w).

Definition set_service_errors (x : list exn) (w : World HA) : World HA :=
  mkWorld (ha w) (light_manager w) (effect_engine w) (current w) (calls w) x.

(** A coroutine of the application: it transforms the world and returns a
    value or raises. *)
Definition prog (A : Type) : Type := World HA -> World HA * result A.

Definition ret {A} (a : A) : prog A := fun w => (w, Ok a).

Definition raise {A} (e : exn) : prog A := fun w => (w, Raise e).

Definition bindP {A B} (m : prog A) (k : A -> prog B) : prog B :=
  fun w =>
    match m w with
    | (w', Ok a) => k a w'
    | (w', Raise e) => (w', Raise e)
    end.

(** [try: m except ...: handler e] *)
Definition try_except {A} (m : prog A) (handler : exn -> prog A) : prog A :=
  fun w =>
    match m w with
    | (w', Ok a) => (w', Ok a)
    | (w', Raise e) => handler e w'
    end.

Definition modify (f : World HA -> World HA) : prog unit :=
  fun w => (f w, Ok tt).

End world.

Notation "'await' x <- m ;; k" := (bindP m (fun x => k))
  (at level 10, x name, m at level 99, k at level 200).
Notation "m ;;; k" := (bindP m (fun _ => k))
  (at level 100, k at level 200, right associativity).

(** A [for] loop whose body is a coroutine. *)
Fixpoint for_in {HA A} (items : list A) (body : A -> prog (HA := HA) unit)
    : prog (HA := HA) unit :=
  match items with
  | [] => ret tt
  | x :: items' => body x ;;; for_in items' body
  end.

(** The two operations of the controller, seen from a coroutine. *)
Section api.
Context {HA : Type} `{!HomeAssistantAPI HA}.

Definition api_get_state (entity_id0 : string) : prog (HA := HA) StateDoc :=
  fun w =>
    let (ha', r) := get_state (ha w) entity_id0 in
    (set_ha ha' w, r).

Definition api_call_service (domain service : string) (data : ServiceData)
    : prog (HA := HA) unit :=
  fun w =>
    let (ha', r) := call_service (ha w) domain service data in
    (set_calls (calls w ++ [mkCall (current w) service data]) (set_ha ha' w), r).

End api.

Module LightManager.
Section api.
Context {HA : Type} `{!HomeAssistantAPI HA}.

Definition as_int (a : option attr) : option Z :=
  match a with Some (AInt z) => Some z | _ => None end.

Definition as_ints (a : option attr) : option (list Z) :=
  match a with Some (AInts l) => Some l | _ => None end.

Definition as_strs (a : option attr) : list string :=
  match a with Some (AStrs l) => l | _ => [] end.

(** The exception handler of both fetch functions logs and re-raises. *)
Definition _fetch_capabilities (entity_id0 : string) (sequence : LightSequence)
    : prog (HA := HA) LightSequence :=
  await state0 <- api_get_state entity_id0 ;;
  let attributes := doc_attributes state0 in
  let modes := as_strs (attributes !! "supported_color_modes") in
  let caps :=
    mkLightCapabilities
      (bool_decide ("rgb_color" ∈ modes))
      (bool_decide ("rgbw" ∈ modes))
      (bool_decide ("rgbww" ∈ modes))
      (bool_decide ("color_temp" ∈ modes))
      (as_int (attributes !! "min_mireds"))
      (as_int (attributes !! "max_mireds"))
      (bool_decide (is_Some (attributes !! "transition")))
      (bool_decide (is_Some (attributes !! "brightness"))) in
  ret (mkLightSequence (name sequence) (light_ids sequence) (states sequence)
         (<[entity_id0 := caps]> (capabilities sequence))).

Definition _fetch_state (entity_id0 : string) (sequence : LightSequence)
    : prog (HA := HA) LightSequence :=
  await state0 <- api_get_state entity_id0 ;;
  let attributes := doc_attributes state0 in
  let light_state :=
    mkLightState entity_id0 (doc_state state0)
      (as_int (attributes !! "brightness"))
      (as_ints (attributes !! "rgb_color"))
      (as_ints (attributes !! "rgbw_color"))
      (as_ints (attributes !! "rgbww_color"))
      (as_int (attributes !! "color_temp")) in
  modify (fun w =>
    set_light_manager
      (mkLightManager (sequences (light_manager w))
         (<[entity_id0 := light_state]> (light_states (light_manager w)))) w) ;;;
  ret (mkLightSequence (name sequence) (light_ids sequence)
         (<[entity_id0 := light_state]> (states sequence)) (capabilities sequence)).

(** The loop of [create_sequence] over [light_ids], threading the sequence
    object under construction. *)
Fixpoint fetch_all (light_ids0 : list string) (sequence : LightSequence)
    : prog (HA := HA) LightSequence :=
  match light_ids0 with
  | [] => ret sequence
  | entity_id0 :: rest =>
      await sequence <- _fetch_capabilities entity_id0 sequence ;;
      await sequence <- _fetch_state entity_id0 sequence ;;
      fetch_all rest sequence
  end.

Definition create_sequence (name0 : string) (light_ids0 : list string)
    : prog (HA := HA) LightSequence :=
  let sequence := new_LightSequence name0 light_ids0 in
  (* Fetch initial states and capabilities *)
  await sequence <- fetch_all light_ids0 sequence ;;
  modify (fun w =>
    set_light_manager
      (mkLightManager (<[name0 := sequence]> (sequences (light_manager w)))
         (light_states (light_manager w))) w) ;;;
  ret sequence.

(** [update_light(entity_id, rgb_color=rgb)]: the registry's sequences are
    visited in the order of [map_to_list]. *)
Definition update_light (entity_id0 : string) (rgb : Params) : prog (HA := HA) unit :=
  api_call_service "light" "turn_on" (mkServiceData entity_id0 (Some rgb)) ;;;
  (* Update our stored state *)
  fun w =>
    for_in (map_to_list (sequences (light_manager w)))
      (fun '(key, sequence) =>
         if bool_decide (entity_id0 ∈ light_ids sequence) then
           await sequence <- _fetch_state entity_id0 sequence ;;
           modify (fun w =>
             set_light_manager
               (mkLightManager (<[key := sequence]> (sequences (light_manager w)))
                  (light_states (light_manager w))) w)
         else ret tt) w.

Definition turn_off_sequence (sequence_name : string) : prog (HA := HA) unit :=
  fun w =>
    match sequences (light_manager w) !! sequence_name with
    | None => raise (ValueError ("Sequence " ++ sequence_name ++ " not found")) w
    | Some sequence =>
        for_in (light_ids sequence)
          (fun entity_id0 =>
             try_except
               (api_call_service "light" "turn_off" (mkServiceData entity_id0 None))
               (fun e => ret tt)) w
    end.

Definition get_sequence (w : World HA) (name0 : string) : option LightSequence :=
  sequences (light_manager w) !! name0.

End api.
End LightManager.

Module EffectEngine.
Section api.
Context {HA : Type} `{!HomeAssistantAPI HA}.

(** [EffectEngine.__init__] at clock reading [now]. *)
Definition __init__ (color_manager0 : ColorManager) (now : Q) : EffectEngine :=
  mkEffectEngine
    (<["twinkle" := (Twinkle, mkEffect color_manager0 0 now)]>
       (<["color_wipe" := (ColorWipe, mkEffect color_manager0 0 now)]>
          (<["rainbow" := (Rainbow, mkEffect color_manager0 0 now)]> ∅)))
    ∅ [].

Definition set_task_status (task : nat) (st : TaskStatus) (w : World HA) : World HA :=
  let e := effect_engine w in
  set_effect_engine
    (mkEffectEngine (effects e) (_running_effects e)
       (alter (fun t => mkTask (task_key t) (task_sequence t) (task_effect t)
                          (task_config t) st) task (tasks e))) w.

(** [task.cancel()]: a task that has finished already is left as it is. *)
Definition cancel (task : nat) : prog (HA := HA) unit :=
  fun w =>
    match tasks (effect_engine w) !! task with
    | Some t =>
        match task_status t with
        | Pending => (set_task_status task Cancelled w, Ok tt)
        | _ => (w, Ok tt)
        end
    | None => (w, Ok tt)
    end.

(** [await task] on a task that has been cancelled or has failed: the
    awaiting coroutine receives the task's exception. *)
Definition await_task (task : nat) : prog (HA := HA) unit :=
  fun w =>
    match tasks (effect_engine w) !! task with
    | Some t =>
        match task_status t with
        | Failed e => (w, Raise e)
        | _ => (w, Raise CancelledError)
        end
    | None => (w, Raise CancelledError)
    end.

Definition stop_effect (sequence_name : string) : prog (HA := HA) unit :=
  fun w =>
    match _running_effects (effect_engine w) !! sequence_name with
    | None => (w, Ok tt)
    | Some (effect, config, task) =>
        (cancel task ;;;
         try_except (await_task task)
           (fun e => match e with CancelledError => ret tt | _ => raise e end) ;;;
         modify (fun w =>
           let e := effect_engine w in
           set_effect_engine
             (mkEffectEngine (effects e) (delete sequence_name (_running_effects e))
                (tasks e)) w) ;;;
         (* Turn off all lights in the sequence *)
         LightManager.turn_off_sequence sequence_name) w
    end.

(** [asyncio.create_task(self._run_effect(sequence, effect, config))] *)
Definition create_task (t : Task) : prog (HA := HA) nat :=
  fun w =>
    let e := effect_engine w in
    (set_effect_engine
       (mkEffectEngine (effects e) (_running_effects e) (tasks e ++ [t])) w,
     Ok (length (tasks e))).

Definition start_effect (sequence_name effect_name : string) (config : EffectConfig)
    : prog (HA := HA) unit :=
  (* Stop any running effect on this sequence *)
  stop_effect sequence_name ;;;
  fun w =>
    match LightManager.get_sequence w sequence_name with
    | None => raise (ValueError ("Sequence " ++ sequence_name ++ " not found")) w
    | Some sequence =>
        match effects (effect_engine w) !! effect_name with
        | None => raise (ValueError ("Effect " ++ effect_name ++ " not found")) w
        | Some effect =>
            (* Create and start the effect task *)
            (await task <- create_task
                             (mkTask sequence_name sequence effect config Pending) ;;
             modify (fun w =>
               let e := effect_engine w in
               set_effect_engine
                 (mkEffectEngine (effects e)
                    (<[sequence_name := (effect, config, task)]> (_running_effects e))
                    (tasks e)) w)) w
        end
    end.

(** [effect.generate_frame(sequence, config)] at clock reading [now];
    [twinkle] is the frame drawn by the randomised TwinkleEffect. *)
Definition generate_frame (effect : EffectObject) (now : Q)
    (twinkle : gmap string Params) (sequence : LightSequence)
    (config : EffectConfig) : result (gmap string Params) :=
  match effect.1 with
  | Rainbow => RainbowEffect.generate_frame effect.2 now sequence config
  | ColorWipe => ColorWipeEffect.generate_frame effect.2 now sequence config
  | Twinkle => Ok twinkle
  end.

(** One turn of the loop of [_run_effect], up to its [n]-th update: the
    frame is generated and its first [n] updates are applied. *)
Definition _run_effect (sequence : LightSequence) (effect : EffectObject)
    (config : EffectConfig) (now : Q) (twinkle : gmap string Params) (n : nat)
    : prog (HA := HA) unit :=
  match generate_frame effect now twinkle sequence config with
  | Raise e => raise e
  | Ok updates =>
      (* Apply updates to all lights *)
      for_in (take n (map_to_list updates))
        (fun '(entity_id0, params) => LightManager.update_light entity_id0 params)
  end.

(** The event loop resumes task [task]: nothing happens unless it is
    pending; an exception that leaves [_run_effect] ends the task. *)
Definition resume (task : nat) (now : Q) (twinkle : gmap string Params) (n : nat)
    (w : World HA) : World HA :=
  match tasks (effect_engine w) !! task with
  | Some t =>
      match task_status t with
      | Pending =>
          let (w', r) :=
            _run_effect (task_sequence t) (task_effect t) (task_config t)
              now twinkle n (set_current (Some task) w) in
          let w' := set_current (current w) w' in
          match r with
          | Ok _ => w'
          | Raise e => set_task_status task (Failed e) w'
          end
      | _ => w
      end
  | None => w
  end.

End api.
End EffectEngine.

Module LightFX.
Section api.
Context {HA : Type} `{!HomeAssistantAPI HA}.

(** [call['data'].get('config', {})]: the keyword arguments given. *)
Record ConfigData : Type := mkConfigData {
  cfg_speed : option Z;
  cfg_intensity : option Z;
  cfg_palette_name : option string;
  cfg_reverse : option bool;
  cfg_mirror : option bool
}.

Definition no_config : ConfigData := mkConfigData None None None None None.

(** [EffectConfig] built from the keyword arguments, defaults filled in. *)
Definition EffectConfig_of (c : ConfigData) : EffectConfig :=
  mkEffectConfig
    (default (speed default_config) (cfg_speed c))
    (default (intensity default_config) (cfg_intensity c))
    (default (palette_name default_config) (cfg_palette_name c))
    (default (reverse default_config) (cfg_reverse c))
    (default (mirror default_config) (cfg_mirror c)).

Record ServiceCall : Type := mkServiceCall {
  service : string;
  data_sequence : option string;
  data_effect : option string;
  data_config : option ConfigData
}.

Definition item {A} (key : string) (o : option A) : prog (HA := HA) A :=
  match o with
  | Some a => ret a
  | None => raise (KeyError key)
  end.

(** The body of the [try] of [handle_service_call]. *)
Definition dispatch (call : ServiceCall) : prog (HA := HA) unit :=
  if String.eqb (service call) "start_effect" then
    await sequence_name <- item "sequence" (data_sequence call) ;;
    await effect_name <- item "effect" (data_effect call) ;;
    EffectEngine.start_effect sequence_name effect_name
      (EffectConfig_of (default no_config (data_config call)))
  else if String.eqb (service call) "stop_effect" then
    await sequence_name <- item "sequence" (data_sequence call) ;;
    EffectEngine.stop_effect sequence_name
  else ret tt.

(** Every exception is caught and logged. *)
Definition handle_service_call (call : ServiceCall) : prog (HA := HA) unit :=
  try_except (dispatch call)
    (fun e => modify (fun w => set_service_errors (service_errors w ++ [e]) w)).

(** [LightFX.__init__] on a controller in state [ha0], at clock reading [now]. *)
Definition __init__ (ha0 : HA) (now : Q) : World HA :=
  mkWorld ha0 (mkLightManager ∅ ∅)
    (EffectEngine.__init__ color_manager.__init__ now) None [] [].

(** What can happen to the running application. *)
Inductive event : Type :=
  | CreateSequence (name0 : string) (light_ids0 : list string)
  | Service (call : ServiceCall)
  | Resume (task : nat) (now : Q) (twinkle : gmap string Params) (n : nat).

Definition step (ev : event) (w : World HA) : World HA :=
  match ev with
  | CreateSequence name0 light_ids0 =>
      (LightManager.create_sequence name0 light_ids0 w).1
  | Service call => (handle_service_call call w).1
  | Resume task now twinkle n => EffectEngine.resume task now twinkle n w
  end.

Definition run (evs : list event) (w : World HA) : World HA :=
  foldl (fun w ev => step ev w) w evs.

(** One entry of [config['sequences']] in /data/options.json, with the keys
    that [setup] reads. *)
Record SequenceConfig : Type := mkSequenceConfig {
  seq_name : option string;
  seq_lights : option (list string);
  seq_default_effect : option string;
  seq_default_speed : option Z;
  seq_default_palette : option string
}.

(** The body of the [try] of [setup] for one entry.  An absent or empty
    [default_effect] is falsy. *)
Definition setup_sequence (seq_config : SequenceConfig) : prog (HA := HA) unit :=
  await name0 <- item "name" (seq_name seq_config) ;;
  await lights <- item "lights" (seq_lights seq_config) ;;
  await _ <- LightManager.create_sequence name0 lights ;;
  (* Start default effect if configured *)
  match seq_default_effect seq_config with
  | Some default_effect =>
      if String.eqb default_effect EmptyString then ret tt
      else
        let config :=
          mkEffectConfig
            (default 50%Z (seq_default_speed seq_config))
            (intensity default_config)
            (default "rainbow" (seq_default_palette seq_config))
            (reverse default_config) (mirror default_config) in
        EffectEngine.start_effect name0 default_effect config
  | None => ret tt
  end.

(** [setup] over the entries of [config.get('sequences', [])].  The handler
    of each entry logs a message that reads [seq_config['name']] again. *)
Definition setup (sequences0 : list SequenceConfig) : prog (HA := HA) unit :=
  for_in sequences0
    (fun seq_config =>
       try_except (setup_sequence seq_config)
         (fun e => await _ <- item "name" (seq_name seq_config) ;; ret tt)).


End api.
End LightFX.

(** A controller for experiments: the entities listed in [offline] cannot
    be reached, every other entity answers with an empty state document. *)
Record SimpleHA : Type := mkSimpleHA { offline : list string }.

#[export] Instance simple_controller : HomeAssistantAPI SimpleHA := {|
  get_state ha0 entity_id0 :=
    (ha0,
     if bool_decide (entity_id0 ∈ offline ha0)
     then Raise (ControllerError "Failed to get state")
     else Ok (mkStateDoc (Some "on") ∅));
  call_service ha0 domain service0 data :=
    (ha0,
     if bool_decide (data_entity_id data ∈ offline ha0)
     then Raise (ControllerError "Failed to call service")
     else Ok tt)
|}.

End app.

(** ** Reference definitions, written from the specification's wording *)

Module spec.


(** Position of light [i] of [N] along the palette. *)
Definition rainbow_position (N i : nat) (speed : Z) (elapsedSeconds : Q)
    (reverse : bool) : Q :=
  let speedFactor := inject_Z speed / 50 in
  let position :=
    py_mod ((effect_engine.of_nat i / effect_engine.of_nat N) * 100
            + elapsedSeconds * speedFactor * 20) 100 in
  if reverse then 100 - position else position.

(** Each RGB channel scaled by [intensity/100], truncating. *)
Definition scale_intensity (intensity : Z) (c : colour.Color) : list Z :=
  map (fun channel => py_int (channel * (inject_Z intensity / 100)))
      [colour.red c * 255; colour.green c * 255; colour.blue c * 255].

(** Number of lit lights of a colour wipe over [N] lights. *)
Definition activeCount (N : nat) (speed : Z) (elapsedSeconds : Q) : Z :=
  let speedFactor := inject_Z speed / 50 in
  (Qfloor (elapsedSeconds * speedFactor * 2) mod (Z.of_nat N + 1))%Z.

(** Every fetch made for the lights of a new sequence succeeds, the
    controller being in state [h]: capabilities, then state, light by light. *)
Fixpoint every_fetch_succeeds {HA} `{!ha_api.HomeAssistantAPI HA}
    (light_ids : list string) (h : HA) : bool :=
  match light_ids with
  | [] => true
  | entity_id :: rest =>
      match ha_api.get_state h entity_id with
      | (h1, Ok _) =>
          match ha_api.get_state h1 entity_id with
          | (h2, Ok _) => every_fetch_succeeds rest h2
          | (_, Raise _) => false
          end
      | (_, Raise _) => false
      end
  end.


End spec.

(** ** Vocabulary of the statements

    Predicates, derived worlds and sample data that the properties below are
    stated with. *)

Import colour color_manager light_manager effect_engine ha_api app.




Section frame_terms.

Variables (self : Effect) (now : Q) (sequence : LightSequence) (config : EffectConfig).

Let ids : list string := light_ids sequence.
Let N : nat := length ids.
Let elapsed : Q := now - _start_time self.
Let active : Z := spec.activeCount N (speed config) (now - _start_time self).

(** The colour and the update computed for index [i]. *)
Definition rainbow_rgb (i : nat) : Params :=
  match get_color_at_position (color_manager self) "rainbow"
          (spec.rainbow_position N i (speed config) elapsed (reverse config)) with
  | Ok (Some c) => spec.scale_intensity (intensity config) c
  | _ => []
  end.

(** What one iteration of the loop does to the dictionary. *)
Definition rainbow_step (item : nat * string) (updates : gmap string Params)
    : gmap string Params :=
  let u := <[item.2 := rainbow_rgb item.1]> updates in
  if mirror config && (N / 2 <=? item.1)%nat then
    match ids !! (N - 1 - item.1)%nat with
    | Some m => <[m := rainbow_rgb item.1]> u
    | None => u
    end
  else u.

(** The light index the loop works with at position [k] of the sequence. *)
Definition wipe_index (k : nat) : nat :=
  if reverse config then (N - 1 - k)%nat else k.

(** The update the loop stores for position [k] of the sequence. *)
Definition wipe_rgb (k : nat) : Params :=
  let i := wipe_index k in
  if (Z.of_nat i <? active)%Z then
    match get_color_at_position (color_manager self) (palette_name config)
            ((of_nat i / of_nat N) * 100) with
    | Ok (Some c) => spec.scale_intensity (intensity config) c
    | _ => []
    end
  else [0; 0; 0]%Z.

End frame_terms.

(** A four-light and a five-light sequence, and an effect object created at
    clock reading 0 over the builtin palettes. *)
Definition four_lights : LightSequence :=
  new_LightSequence "strip" ["a"; "b"; "c"; "d"].

Definition five_lights : LightSequence :=
  new_LightSequence "strip" ["a"; "b"; "c"; "d"; "e"].

Definition effect0 : Effect := mkEffect __init__ 0 0.

(** The off commands sent for the lights [ids] by the task [cur]. *)
Definition off_calls (cur : option nat) (ids : list string) : list Call :=
  map (fun id => mkCall cur "turn_off" (mkServiceData id None)) ids.

(** The task list after [task.cancel()] on task [tid]. *)
Definition cancel_in (tid : nat) (l : list Task) : list Task :=
  match l !! tid with
  | Some t =>
      match task_status t with
      | Pending =>
          alter (fun t => mkTask (task_key t) (task_sequence t) (task_effect t)
                            (task_config t) Cancelled) tid l
      | _ => l
      end
  | None => l
  end.

Definition status_of (l : list Task) (tid : nat) : option TaskStatus :=
  task_status <$> l !! tid.

Section world_terms.
Context {HA : Type}.

(** What every coroutine of the application respects: the task being run
    does not change, the calls issued so far stay, and each new call is
    issued by the task being run. *)
Definition orderly {A} (m : prog (HA := HA) A) : Prop :=
  forall w w' r, m w = (w', r) ->
    current w' = current w /\
    service_errors w' = service_errors w /\
    exists new, calls w' = (calls w ++ new)%list /\
                Forall (fun c => issuer c = current w) new.

(** The coroutines of the light manager leave the effect engine alone. *)
Definition engine_free {A} (m : prog (HA := HA) A) : Prop :=
  forall w w' r, m w = (w', r) -> effect_engine w' = effect_engine w.

(** The world in which [stop_effect] turns the lights off: the task is
    cancelled and the record is gone. *)
Definition stopped (name0 : string) (tid : nat) (w : World HA) : World HA :=
  let e := effect_engine w in
  set_effect_engine
    (mkEffectEngine (effects e) (delete name0 (_running_effects e))
       (cancel_in tid (tasks e))) w.

(** The world after a new task for [name0] has been created and recorded. *)
Definition installed (name0 : string) (seq : LightSequence) (eff : EffectObject)
    (cfg : EffectConfig) (w : World HA) : World HA :=
  let e := effect_engine w in
  set_effect_engine
    (mkEffectEngine (effects e)
       (<[name0 := (eff, cfg, length (tasks e))]> (_running_effects e))
       (tasks e ++ [mkTask name0 seq eff cfg Pending])) w.

(** Between two events the main coroutine is the one that runs, and every
    pending task is the task recorded in [_running_effects] for the sequence
    it was started on. *)
Definition Inv (w : World HA) : Prop :=
  current w = None /\
  forall tid t,
    tasks (effect_engine w) !! tid = Some t -> task_status t = Pending ->
    exists eff cfg,
      _running_effects (effect_engine w) !! task_key t = Some (eff, cfg, tid).

(** Task [tid] exists and will not run again. *)
Definition settled (w : World HA) (tid : nat) : Prop :=
  exists st, status_of (tasks (effect_engine w)) tid = Some st /\ st <> Pending.

(** The calls issued since the world [w0]. *)
Definition calls_since (w0 w : World HA) : list Call :=
  drop (length (calls w0)) (calls w).

(** What the engine operations have in common. *)
Record engine_step (w w' : World HA) : Prop := mkEngineStep {
  es_inv : Inv w -> Inv w';
  es_settled : forall j, settled w j -> settled w' j;
  es_current : current w' = current w;
  es_errors : service_errors w' = service_errors w;
  es_calls : exists new, calls w' = (calls w ++ new)%list /\
                         Forall (fun c => issuer c = current w) new
}.

(** The recorded task of [name0], if there is one, has not ended with an
    exception of its own. *)
Definition no_failed_task (name0 : string) (w : World HA) : Prop :=
  forall eff cfg tid e,
    _running_effects (effect_engine w) !! name0 = Some (eff, cfg, tid) ->
    status_of (tasks (effect_engine w)) tid <> Some (Failed e).

End world_terms.

(** A service call that starts [effect_name] on [name0]. *)
Definition start_call (name0 effect_name : string)
    (config : option LightFX.ConfigData) : LightFX.ServiceCall :=
  LightFX.mkServiceCall "start_effect" (Some name0) (Some effect_name) config.

(** Two reachable lights grouped as "porch", with the rainbow effect
    running on them. *)
Definition porch_world : World SimpleHA :=
  LightFX.run
    [LightFX.CreateSequence "porch" ["a"; "b"];
     LightFX.Service (start_call "porch" "rainbow" None)]
    (LightFX.__init__ (mkSimpleHA []) 0).

(** *** Vocabulary of the further properties *)

(** The distance from a stop to a queried position. *)
Definition distance (position0 : Q) (s : ColorPoint) : Q :=
  Qabs (position s - position0).

(** A static palette of two stops, at 20 and at 80, registered beside the
    builtin ones. *)
Definition two_tone : Palette :=
  mkPalette "duo"
    [mkColorPoint (named "red") 20; mkColorPoint (named "blue") 80]
    "static" None.

Definition two_tone_manager : ColorManager :=
  mkColorManager (<["duo" := two_tone]> (palettes __init__)).

Definition not_after (a b : ColorPoint) : Prop := position a <= position b.

(** What a light accepts under "rgb_color": three channel values, each
    between 0 and 255. *)
Definition rgb_triple (rgb : Params) : Prop :=
  length rgb = 3%nat /\ Forall (fun v => (0 <= v <= 255)%Z) rgb.

(** Every twinkle state lies between 0 (dark) and 1 (just lit). *)
Definition unit_states (st : TwinkleEffect.state) : Prop :=
  map_Forall (fun _ s => 0 <= s /\ s <= 1) (TwinkleEffect._twinkle_states st).

(** A source of random values for experiments. *)
Definition sample_rnd (n : nat) : Q :=
  match n with
  | 0%nat => 1 # 100
  | 1%nat => 42 # 100
  | 2%nat => 1 # 2
  | 3%nat => 3 # 100
  | _ => 77 # 100
  end.

(** A coroutine relates the world it starts in to the world it leaves. *)
Definition preserves {HA A} (R : World HA -> World HA -> Prop)
    (m : prog (HA := HA) A) : Prop :=
  forall w w' r, m w = (w', r) -> R w w'.

(** Sequence [s'] is sequence [s] up to the stored state of light [e]. *)
Definition same_but_state (e : string) (s s' : LightSequence) : Prop :=
  name s' = name s /\ light_ids s' = light_ids s /\
  capabilities s' = capabilities s /\
  forall id, id <> e -> states s' !! id = states s !! id.

(** The registry [lm'] has the sequences of [lm], each up to the stored
    state of light [e], and the state cache of [lm] for every other light. *)
Definition registry_kept (e : string) (lm lm' : LightManager) : Prop :=
  (forall key, option_Forall2 (same_but_state e)
                 (sequences lm !! key) (sequences lm' !! key)) /\
  (forall id, id <> e -> light_states lm' !! id = light_states lm !! id).

(** The command that [update_light] sends for light [id]. *)
Definition on_call (cur : option nat) (id : string) (rgb : Params) : Call :=
  mkCall cur "turn_on" (mkServiceData id (Some rgb)).


(** The task recorded for sequence [name0] has ended with the exception
    [e]. *)
Definition wedged {HA} (name0 : string) (e : exn) (w : World HA) : Prop :=
  exists eff cfg tid,
    _running_effects (effect_engine w) !! name0 = Some (eff, cfg, tid) /\
    status_of (tasks (effect_engine w)) tid = Some (Failed e).

(** A colour wipe over the dynamic palette "fire" on two lights, resumed
    once a light is due to be lit. *)
Definition fire_wipe_world : World SimpleHA :=
  LightFX.run
    [LightFX.CreateSequence "porch" ["a"; "b"];
     LightFX.Service
       (start_call "porch" "color_wipe"
          (Some (LightFX.mkConfigData None None (Some "fire") None None)));
     LightFX.Resume 0 1 ∅ 2]
    (LightFX.__init__ (mkSimpleHA []) 0).

(** Every record of [_running_effects] names a task that was started on the
    sequence the record is filed under. *)
Definition records_keyed {HA} (w : World HA) : Prop :=
  forall name0 eff cfg tid,
    _running_effects (effect_engine w) !! name0 = Some (eff, cfg, tid) ->
    task_key <$> tasks (effect_engine w) !! tid = Some name0.

(** Two sequences, "porch" and "hall", each with an effect running. *)
Definition two_sequences_world : World SimpleHA :=
  LightFX.run
    [LightFX.CreateSequence "porch" ["a"; "b"];
     LightFX.CreateSequence "hall" ["c"];
     LightFX.Service (start_call "porch" "rainbow" None);
     LightFX.Service (start_call "hall" "color_wipe" None)]
    (LightFX.__init__ (mkSimpleHA []) 0).

(** The commands that apply the updates [l], issued by the task [cur]. *)
Definition frame_calls (cur : option nat) (l : list (string * Params)) : list Call :=
  map (fun item => on_call cur item.1 item.2) l.

(** The entry of [config['sequences']] has a name. *)
Definition named_entry (seq_config : LightFX.SequenceConfig) : Prop :=
  is_Some (LightFX.seq_name seq_config).


(** Entries for experiments: a sequence with a default effect, a sequence
    with an unreachable light, and an entry without a name. *)
Definition porch_entry : LightFX.SequenceConfig :=
  LightFX.mkSequenceConfig (Some "porch") (Some ["a"; "b"]) (Some "rainbow")
    (Some 80%Z) None.

Definition cellar_entry : LightFX.SequenceConfig :=
  LightFX.mkSequenceConfig (Some "cellar") (Some ["x"]) None None None.

Definition nameless_entry : LightFX.SequenceConfig :=
  LightFX.mkSequenceConfig None (Some ["c"]) None None None.




(** The payloads of the messages of type "event", in order of arrival. *)
Definition events_of {E} (msgs : list (Message E)) : list E :=
  omap (fun m => if decide (msg_type m = Some "event") then msg_event m else None)
       msgs.

(** A message has a type, and a message of type "event" has a payload. *)
Definition well_formed {E} (m : Message E) : Prop :=
  is_Some (msg_type m) /\ (msg_type m = Some "event" -> is_Some (msg_event m)).

(** The state after the callback has handled the events [evs] in turn. *)
Definition deliver {E S} (callback : E -> S -> S * result unit) (evs : list E)
    (s : S) : S :=
  foldl (fun s ev => (callback ev s).1) s evs.

(** Messages for experiments. *)
Definition auth_ok_msg : Message LightFX.ServiceCall :=
  mkMessage (Some "auth_ok") None None.

Definition auth_invalid_msg : Message LightFX.ServiceCall :=
  mkMessage (Some "auth_invalid") None None.

Definition result_msg (success : bool) : Message LightFX.ServiceCall :=
  mkMessage (Some "result") (Some success) None.

Definition event_msg (call : LightFX.ServiceCall) : Message LightFX.ServiceCall :=
  mkMessage (Some "event") None (Some call).

Definition pong_msg : Message LightFX.ServiceCall :=
  mkMessage (Some "pong") None None.

(** * Properties *)

Import colour color_manager.

(** ** Arithmetic of the float model *)

Lemma Qlt_bool_iff (x y : Q) : Qlt_bool x y = true <-> x < y.
Proof.
  unfold Qlt_bool. rewrite negb_true_iff. split.
  - intros H. apply Qnot_le_lt. intros Hle. apply Qle_bool_iff in Hle. congruence.
  - intros H. destruct (Qle_bool y x) eqn:E; [|reflexivity].
    apply Qle_bool_iff in E. lra.
Qed.

Lemma Qlt_bool_false (x y : Q) : Qlt_bool x y = false <-> y <= x.
Proof.
  unfold Qlt_bool. rewrite negb_false_iff. apply Qle_bool_iff.
Qed.

Lemma Qle_bool_false (x y : Q) : Qle_bool x y = false <-> y < x.
Proof.
  rewrite <- Qlt_bool_iff. unfold Qlt_bool. now rewrite negb_true_iff.
Qed.

Lemma Qeq_bool_false (x y : Q) : Qeq_bool x y = false <-> ~ x == y.
Proof.
  split.
  - intros H Heq. apply Qeq_bool_iff in Heq. congruence.
  - intros H. destruct (Qeq_bool x y) eqn:E; [|reflexivity].
    apply Qeq_bool_iff in E. contradiction.
Qed.

(** Case analysis on the comparisons of the embedded code. *)
Ltac qcase :=
  match goal with
  | |- context [Qlt_bool ?a ?b] =>
      let E := fresh "E" in
      destruct (Qlt_bool a b) eqn:E;
      [apply Qlt_bool_iff in E | apply Qlt_bool_false in E]
  | |- context [Qle_bool ?a ?b] =>
      let E := fresh "E" in
      destruct (Qle_bool a b) eqn:E;
      [apply Qle_bool_iff in E | apply Qle_bool_false in E]
  | |- context [Qeq_bool ?a ?b] =>
      let E := fresh "E" in
      destruct (Qeq_bool a b) eqn:E;
      [apply Qeq_bool_iff in E | apply Qeq_bool_false in E]
  end.

Lemma Qfloor_unique (x : Q) (k : Z) :
  inject_Z k <= x -> x < inject_Z k + 1 -> Qfloor x = k.
Proof.
  intros Hlo Hhi.
  pose proof (Qfloor_le x) as H1. pose proof (Qlt_floor x) as H2.
  assert (Hlt1 : inject_Z (Qfloor x) < inject_Z (k + 1)).
  { rewrite inject_Z_plus. change (inject_Z 1) with 1. lra. }
  assert (Hlt2 : inject_Z k < inject_Z (Qfloor x + 1)).
  { lra. }
  rewrite <- Zlt_Qlt in Hlt1, Hlt2. lia.
Qed.


Lemma py_int_nonneg (x : Q) : 0 <= x -> py_int x = Qfloor x.
Proof.
  destruct x as [n d]. unfold py_int, Qfloor, Qle. simpl. intros H.
  apply Z.quot_div_nonneg; lia.
Qed.


(** ** Palette lookup *)

(** C1 (the code at the failing input): a query on the builtin dynamic
    palette "fire" runs off the end of [get_color_at_position] and yields
    [None] at every position, where the static and gradient branches yield
    a colour. *)
Theorem fire_query_returns_None (position0 : Q) :
  get_color_at_position __init__ "fire" position0 = Ok None.
Proof.
  unfold get_color_at_position.
  replace (palettes __init__ !! "fire") with (Some fire) by (vm_compute; reflexivity).
  reflexivity.
Qed.

(** Every palette whose type is neither "static" nor "gradient" behaves so. *)
Lemma other_type_returns_None (self : ColorManager) (pname : string)
    (p : Palette) (position0 : Q) :
  palettes self !! pname = Some p ->
  type p <> "static" -> type p <> "gradient" ->
  get_color_at_position self pname position0 = Ok None.
Proof.
  intros Hp Hs Hg. unfold get_color_at_position. rewrite Hp.
  apply String.eqb_neq in Hs, Hg. now rewrite Hs, Hg.
Qed.

(** ** Hue interpolation *)





(** The same function over binary64 floats agrees on the two inputs above
    up to a whole turn: from 0.75 to 0.0 at ratio 1.0 it returns 1.0, and
    from 0.05 to 0.95 at ratio 0.5 it returns 1.0 as well (the exact value
    there is 0.0). *)
Lemma interpolate_hue_binary64_scenarios :
  _interpolate_hue_binary64 0.75 0 1 = 1%float /\
  _interpolate_hue_binary64 0x1.999999999999ap-5 0x1.e666666666666p-1 0.5 = 1%float.
Proof. split; vm_compute; reflexivity. Qed.

(** ** The HSV round trip of colorsys *)


Lemma Qdiv_between (x y : Q) : 0 < y -> 0 <= x -> x <= y -> 0 <= x / y /\ x / y <= 1.
Proof.
  intros Hy H0 H1. split.
  - apply Qle_shift_div_l; lra.
  - apply Qle_shift_div_r; lra.
Qed.




Lemma Qmax3_spec (r g b : Q) :
  let maxc := Qmax r (Qmax g b) in
  (maxc == r \/ maxc == g \/ maxc == b) /\ r <= maxc /\ g <= maxc /\ b <= maxc.
Proof.
  cbv zeta.
  destruct (Q.max_spec g b) as [[? Hgb]|[? Hgb]];
    destruct (Q.max_spec r (Qmax g b)) as [[? Hm]|[? Hm]]; rewrite Hgb in *;
    rewrite Hm; repeat split; auto; lra.
Qed.

Lemma Qmin3_spec (r g b : Q) :
  let minc := Qmin r (Qmin g b) in
  (minc == r \/ minc == g \/ minc == b) /\ minc <= r /\ minc <= g /\ minc <= b.
Proof.
  cbv zeta.
  destruct (Q.min_spec g b) as [[? Hgb]|[? Hgb]];
    destruct (Q.min_spec r (Qmin g b)) as [[? Hm]|[? Hm]]; rewrite Hgb in *;
    rewrite Hm; repeat split; auto; lra.
Qed.





Lemma py_mod_range (x m : Q) : 0 < m -> 0 <= py_mod x m /\ py_mod x m < m.
Proof.
  intros Hm. unfold py_mod.
  pose proof (Qfloor_le (x / m)) as Hlo. pose proof (Qlt_floor (x / m)) as Hhi.
  rewrite inject_Z_plus in Hhi. change (inject_Z 1) with 1 in Hhi.
  assert (Hx : x / m * m == x) by (field; lra).
  set (y := x / m) in *. set (k := inject_Z (Qfloor y)) in *. clearbody y k.
  split; nra.
Qed.

Lemma rgb_to_hsv_hue_range (t : Q * Q * Q) :
  let '(h, _, _) := colorsys.rgb_to_hsv t in 0 <= h /\ h < 1.
Proof.
  destruct t as [[r g] b]. unfold colorsys.rgb_to_hsv. qcase.
  - lra.
  - apply py_mod_range. lra.
Qed.





(** ** Gradient lookup at a stop *)


Lemma Forall_insert_sorted (P : ColorPoint -> Prop) x l :
  Forall P (insert_sorted x l) <-> P x /\ Forall P l.
Proof.
  induction l as [|y l IH]; simpl.
  - rewrite Forall_singleton, Forall_nil. tauto.
  - destruct (Qle_bool (position x) (position y)).
    + rewrite !Forall_cons. tauto.
    + rewrite !Forall_cons, IH. tauto.
Qed.

Lemma Forall_sorted (P : ColorPoint -> Prop) l :
  Forall P (sorted l) <-> Forall P l.
Proof.
  induction l as [|x l IH]; simpl; [tauto|].
  rewrite Forall_insert_sorted, Forall_cons, IH. tauto.
Qed.

Lemma elem_of_insert_sorted (y x : ColorPoint) l :
  y ∈ insert_sorted x l <-> y = x \/ y ∈ l.
Proof.
  induction l as [|z l IH]; simpl.
  - rewrite list_elem_of_singleton, elem_of_nil. tauto.
  - destruct (Qle_bool (position x) (position z)).
    + rewrite !elem_of_cons. tauto.
    + rewrite !elem_of_cons, IH. tauto.
Qed.

Lemma elem_of_sorted (y : ColorPoint) l : y ∈ sorted l <-> y ∈ l.
Proof.
  induction l as [|x l IH]; simpl; [tauto|].
  rewrite elem_of_insert_sorted, elem_of_cons, IH. tauto.
Qed.

Lemma length_insert_sorted x l : length (insert_sorted x l) = S (length l).
Proof.
  induction l as [|y l IH]; simpl; [reflexivity|].
  destruct (Qle_bool (position x) (position y)); simpl; congruence.
Qed.

Lemma length_sorted l : length (sorted l) = length l.
Proof.
  induction l as [|x l IH]; simpl; [reflexivity|].
  rewrite length_insert_sorted. congruence.
Qed.




(** The static and gradient branches return a colour for every position as
    soon as the palette has a stop. *)
Lemma get_color_total (self : ColorManager) (pname : string) (p : Palette)
    (position0 : Q) :
  palettes self !! pname = Some p ->
  type p = "static" \/ type p = "gradient" ->
  colors p <> [] ->
  exists c, get_color_at_position self pname position0 = Ok (Some c).
Proof.
  intros Hp Hty Hne. unfold get_color_at_position. rewrite Hp.
  destruct Hty as [-> | ->]; simpl.
  - destruct (colors p) as [|c cs]; [congruence|]. eauto.
  - destruct (gradient_loop position0 (sorted (colors p))); [eauto|].
    assert (Hs : sorted (colors p) <> []).
    { intros Hnil. apply (f_equal length) in Hnil. rewrite length_sorted in Hnil.
      destruct (colors p); [congruence | discriminate]. }
    destruct (last_is_Some (sorted (colors p))) as [_ [cl ->]]; [exact Hs|].
    destruct (head_is_Some (sorted (colors p))) as [_ [c0 ->]]; [exact Hs|].
    eauto.
Qed.




(** ** Frame generators *)

Import light_manager effect_engine.

Lemma py_int_neg (x : Q) : x <= 0 -> py_int x = (- Qfloor (- x))%Z.
Proof.
  destruct x as [n d]. unfold py_int, Qfloor, Qle, Qopp. simpl. intros H.
  rewrite <- (Z.opp_involutive n) at 1. rewrite Z.quot_opp_l by lia.
  f_equal. apply Z.quot_div_nonneg; lia.
Qed.

(** Truncation does not depend on how the rational is written. *)
Lemma py_int_comp (x y : Q) : x == y -> py_int x = py_int y.
Proof.
  intros Hxy. destruct (Qlt_le_dec x 0) as [Hneg | Hpos].
  - rewrite !py_int_neg by lra. f_equal. apply Qfloor_comp. now rewrite Hxy.
  - rewrite !py_int_nonneg by lra. now apply Qfloor_comp.
Qed.

Lemma apply_intensity_scale (config : EffectConfig) (c : Color) :
  apply_intensity config (Some c) = Ok (spec.scale_intensity (intensity config) c).
Proof.
  unfold apply_intensity, spec.scale_intensity. simpl. f_equal.
  f_equal; [|f_equal; [|f_equal]]; apply py_int_comp; field.
Qed.

Lemma for_each_ok {A S} (items : list A) (body : A -> S -> result S)
    (f : A -> S -> S) (s : S) :
  (forall x s', x ∈ items -> body x s' = Ok (f x s')) ->
  for_each items body s = Ok (foldl (fun s' x => f x s') s items).
Proof.
  revert s. induction items as [|x items IH]; intros s H; simpl; [reflexivity|].
  rewrite (H x s) by apply list_elem_of_here. simpl.
  apply IH. intros y s' Hy. apply H. now apply list_elem_of_further.
Qed.

Lemma elem_of_enumerate_from {A} (l : list A) (n j : nat) (x : A) :
  (j, x) ∈ enumerate_from n l <-> exists k, j = (n + k)%nat /\ l !! k = Some x.
Proof.
  revert n. induction l as [|y l IH]; intros n; simpl.
  - split; [intros H; inversion H | intros (k & _ & H); discriminate].
  - rewrite elem_of_cons, IH. split.
    + intros [[= -> ->] | (k & -> & Hk)].
      * exists 0%nat. split; [lia | reflexivity].
      * exists (S k). split; [lia | exact Hk].
    + intros ([|k] & -> & Hk); simpl in Hk.
      * left. injection Hk as ->. f_equal. lia.
      * right. exists k. split; [lia | exact Hk].
Qed.




(** *** RainbowEffect *)

Section rainbow_frame.

Variables (self : Effect) (now : Q) (sequence : LightSequence) (config : EffectConfig).

Hypothesis rainbow_defined :
  forall pos, exists c,
    get_color_at_position (color_manager self) "rainbow" pos = Ok (Some c).

Hypothesis ids_distinct : NoDup (light_ids sequence).

Local Abbreviation ids := (light_ids sequence).
Local Abbreviation N := (length (light_ids sequence)).
Local Abbreviation elapsed := (now - _start_time self).

Local Abbreviation rgb_at := (rainbow_rgb self now sequence config).
Local Abbreviation step_at := (rainbow_step self now sequence config).


Lemma rainbow_body_ok (item : nat * string) (updates : gmap string Params) :
  item ∈ enumerate ids ->
  RainbowEffect.body self sequence config N (elapsed * (inject_Z (speed config) / 50))
    item updates = Ok (step_at item updates).
Proof.
  destruct item as [i id]. intros Hin.
  apply elem_of_enumerate_from in Hin as (k & -> & Hk). simpl in Hk.
  unfold RainbowEffect.body, rainbow_step, rainbow_rgb, spec.rainbow_position.
  cbn [fst snd Nat.add].
  destruct (rainbow_defined
    (if reverse config
     then 100 - py_mod (of_nat k / of_nat N * 100
                        + elapsed * (inject_Z (speed config) / 50) * 20) 100
     else py_mod (of_nat k / of_nat N * 100
                  + elapsed * (inject_Z (speed config) / 50) * 20) 100))
    as [c Hc].
  rewrite Hc. cbn [bind]. rewrite apply_intensity_scale. cbn [bind].
  destruct (mirror config && (N / 2 <=? k)%nat); [|reflexivity].
  apply lookup_lt_Some in Hk.
  destruct (lookup_lt_is_Some_2 ids (N - 1 - k)%nat) as [m ->]; [lia|].
  reflexivity.
Qed.

Lemma rainbow_frame_fold :
  RainbowEffect.generate_frame self now sequence config =
  Ok (foldl (fun u item => step_at item u) ∅ (enumerate ids)).
Proof.
  unfold RainbowEffect.generate_frame.
  apply for_each_ok. intros item u Hin. now apply rainbow_body_ok.
Qed.





End rainbow_frame.

(** *** ColorWipeEffect *)

Lemma Qfloor_sub_Z (x : Q) (k : Z) : Qfloor (x - inject_Z k) = (Qfloor x - k)%Z.
Proof.
  apply Qfloor_unique.
  - unfold Z.sub. rewrite inject_Z_plus, inject_Z_opp.
    pose proof (Qfloor_le x). lra.
  - unfold Z.sub. rewrite inject_Z_plus, inject_Z_opp.
    pose proof (Qlt_floor x) as H. rewrite inject_Z_plus in H.
    change (inject_Z 1) with 1 in H. lra.
Qed.

(** Truncating the float remainder is the integer remainder of the floor. *)
Lemma py_int_py_mod (x : Q) (m : Z) :
  (0 < m)%Z -> py_int (py_mod x (inject_Z m)) = (Qfloor x mod m)%Z.
Proof.
  intros Hm.
  assert (Hmq : 0 < inject_Z m).
  { change 0 with (inject_Z 0). now rewrite <- Zlt_Qlt. }
  destruct (py_mod_range x (inject_Z m) Hmq) as [Hlo Hhi].
  rewrite py_int_nonneg by exact Hlo.
  set (q := Qfloor (x / inject_Z m)).
  assert (Hfl : Qfloor (py_mod x (inject_Z m)) = (Qfloor x - m * q)%Z).
  { unfold py_mod. fold q. rewrite <- Qfloor_sub_Z. apply Qfloor_comp.
    rewrite inject_Z_mult. reflexivity. }
  rewrite Hfl. apply (Z.mod_unique _ _ q); [left | ring].
  rewrite <- Hfl. split.
  - change 0%Z with (Qfloor 0). apply Qfloor_resp_le. exact Hlo.
  - rewrite Zlt_Qlt. pose proof (Qfloor_le (py_mod x (inject_Z m))). lra.
Qed.

Lemma active_lights_spec (N : nat) (speed0 : Z) (elapsed : Q) :
  py_int (py_mod (elapsed * (inject_Z speed0 / 50) * 2) (of_nat (N + 1)))
  = spec.activeCount N speed0 elapsed.
Proof.
  unfold spec.activeCount, of_nat.
  rewrite py_int_py_mod by lia. f_equal. lia.
Qed.

Section color_wipe_frame.

Variables (self : Effect) (now : Q) (sequence : LightSequence) (config : EffectConfig).

Hypothesis palette_defined :
  forall pos, exists c,
    get_color_at_position (color_manager self) (palette_name config) pos = Ok (Some c).

Hypothesis ids_distinct : NoDup (light_ids sequence).

Local Abbreviation ids := (light_ids sequence).
Local Abbreviation N := (length (light_ids sequence)).
Local Abbreviation active :=
  (spec.activeCount (length (light_ids sequence)) (speed config)
     (now - _start_time self)).

Local Abbreviation index_at := (wipe_index self now sequence config).
Local Abbreviation wipe_at := (wipe_rgb self now sequence config).


Lemma wipe_body_ok (item : nat * string) (updates : gmap string Params) :
  ColorWipeEffect.body self config N active item updates
  = Ok (<[item.2 := wipe_at item.1]> updates).
Proof.
  destruct item as [k id].
  unfold ColorWipeEffect.body, wipe_rgb, wipe_index. cbn [fst snd].
  destruct (Z.of_nat (if reverse config then (N - 1 - k)%nat else k) <? active)%Z;
    [|reflexivity].
  destruct (palette_defined
    (of_nat (if reverse config then (N - 1 - k)%nat else k) / of_nat N * 100))
    as [c Hc].
  rewrite Hc. cbn [bind]. rewrite apply_intensity_scale. reflexivity.
Qed.



End color_wipe_frame.

(** *** The frames of the two time-driven effects *)




(** C10: two configurations that differ only in [palette_name] give the same
    rainbow frame. *)
Theorem rainbow_ignores_palette_name (self : Effect) (now : Q)
    (sequence : LightSequence) (config1 config2 : EffectConfig) :
  speed config1 = speed config2 ->
  intensity config1 = intensity config2 ->
  reverse config1 = reverse config2 ->
  mirror config1 = mirror config2 ->
  RainbowEffect.generate_frame self now sequence config1
  = RainbowEffect.generate_frame self now sequence config2.
Proof.
  destruct config1 as [s1 i1 p1 r1 m1], config2 as [s2 i2 p2 r2 m2].
  simpl. intros -> -> -> ->. reflexivity.
Qed.

Lemma rainbow_ignores_palette_name_witness :
  RainbowEffect.generate_frame effect0 1 four_lights
    (mkEffectConfig 50 100 "rainbow" false true)
  = RainbowEffect.generate_frame effect0 1 four_lights
    (mkEffectConfig 50 100 "fire" false true).
Proof.
  apply rainbow_ignores_palette_name; reflexivity.
Defined.



(** ** The running application *)

Import ha_api app.

Section application.
Context {HA : Type} `{!HomeAssistantAPI HA}.


Lemma orderly_ret {A} (a : A) : orderly (ret (HA := HA) a).
Proof.
  intros w w' r [= <- <-]. repeat split. exists []. now rewrite app_nil_r.
Qed.

Lemma orderly_raise {A} (e : exn) : orderly (raise (HA := HA) (A := A) e).
Proof.
  intros w w' r [= <- <-]. repeat split. exists []. now rewrite app_nil_r.
Qed.

Lemma orderly_bind {A B} (m : prog (HA := HA) A) (k : A -> prog (HA := HA) B) :
  orderly m -> (forall a, orderly (k a)) -> orderly (bindP m k).
Proof.
  intros Hm Hk w w' r. unfold bindP.
  destruct (m w) as [w1 [a|e]] eqn:Em; intros Hr.
  - destruct (Hm _ _ _ Em) as (Hc & Hs & new1 & Hn1 & Hf1).
    destruct (Hk a _ _ _ Hr) as (Hc' & Hs' & new2 & Hn2 & Hf2).
    split; [congruence|]. split; [congruence|].
    exists (new1 ++ new2)%list. split.
    + rewrite Hn2, Hn1. now rewrite app_assoc.
    + apply Forall_app. split; [exact Hf1|]. now rewrite Hc in Hf2.
  - injection Hr as <- <-. exact (Hm _ _ _ Em).
Qed.

Lemma orderly_try {A} (m : prog (HA := HA) A) (h : exn -> prog (HA := HA) A) :
  orderly m -> (forall e, orderly (h e)) -> orderly (try_except m h).
Proof.
  intros Hm Hh w w' r. unfold try_except.
  destruct (m w) as [w1 [a|e]] eqn:Em; intros Hr.
  - injection Hr as <- <-. exact (Hm _ _ _ Em).
  - destruct (Hm _ _ _ Em) as (Hc & Hs & new1 & Hn1 & Hf1).
    destruct (Hh e _ _ _ Hr) as (Hc' & Hs' & new2 & Hn2 & Hf2).
    split; [congruence|]. split; [congruence|].
    exists (new1 ++ new2)%list. split.
    + rewrite Hn2, Hn1. now rewrite app_assoc.
    + apply Forall_app. split; [exact Hf1|]. now rewrite Hc in Hf2.
Qed.

Lemma orderly_for_in {A} (items : list A) (body : A -> prog (HA := HA) unit) :
  (forall x, orderly (body x)) -> orderly (for_in items body).
Proof.
  intros Hb. induction items as [|x items IH]; simpl.
  - apply orderly_ret.
  - apply orderly_bind; [apply Hb | intros _; exact IH].
Qed.

Lemma orderly_modify (f : World HA -> World HA) :
  (forall w, current (f w) = current w /\ calls (f w) = calls w /\
             service_errors (f w) = service_errors w) ->
  orderly (modify f).
Proof.
  intros Hf w w' r [= <- <-]. destruct (Hf w) as (Hc & Hcalls & Hs).
  repeat split; [exact Hc | exact Hs|]. exists []. now rewrite app_nil_r.
Qed.

Lemma orderly_get_state (entity_id0 : string) : orderly (api_get_state entity_id0).
Proof.
  intros w w' r. unfold api_get_state.
  destruct (get_state (ha w) entity_id0) as [ha' r']. intros [= <- <-].
  repeat split. exists []. simpl. now rewrite app_nil_r.
Qed.

Lemma orderly_call_service (domain service0 : string) (data : ServiceData) :
  orderly (api_call_service domain service0 data).
Proof.
  intros w w' r. unfold api_call_service.
  destruct (call_service (ha w) domain service0 data) as [ha' r'].
  intros [= <- <-]. repeat split. eexists. split; [reflexivity|].
  now constructor.
Qed.

(** A coroutine that first reads the world. *)
Lemma orderly_read {A} (m : World HA -> prog (HA := HA) A) :
  (forall w0, orderly (m w0)) -> orderly (fun w => m w w).
Proof. intros H w w' r Hr. exact (H w w w' r Hr). Qed.

Lemma engine_free_ret {A} (a : A) : engine_free (ret (HA := HA) a).
Proof. now intros w w' r [= <- <-]. Qed.

Lemma engine_free_raise {A} (e : exn) : engine_free (raise (HA := HA) (A := A) e).
Proof. now intros w w' r [= <- <-]. Qed.

Lemma engine_free_bind {A B} (m : prog (HA := HA) A) (k : A -> prog (HA := HA) B) :
  engine_free m -> (forall a, engine_free (k a)) -> engine_free (bindP m k).
Proof.
  intros Hm Hk w w' r. unfold bindP.
  destruct (m w) as [w1 [a|e]] eqn:Em; intros Hr.
  - rewrite (Hk a _ _ _ Hr). exact (Hm _ _ _ Em).
  - injection Hr as <- <-. exact (Hm _ _ _ Em).
Qed.

Lemma engine_free_try {A} (m : prog (HA := HA) A) (h : exn -> prog (HA := HA) A) :
  engine_free m -> (forall e, engine_free (h e)) -> engine_free (try_except m h).
Proof.
  intros Hm Hh w w' r. unfold try_except.
  destruct (m w) as [w1 [a|e]] eqn:Em; intros Hr.
  - injection Hr as <- <-. exact (Hm _ _ _ Em).
  - rewrite (Hh e _ _ _ Hr). exact (Hm _ _ _ Em).
Qed.

Lemma engine_free_for_in {A} (items : list A) (body : A -> prog (HA := HA) unit) :
  (forall x, engine_free (body x)) -> engine_free (for_in items body).
Proof.
  intros Hb. induction items as [|x items IH]; simpl.
  - apply engine_free_ret.
  - apply engine_free_bind; [apply Hb | intros _; exact IH].
Qed.

Lemma engine_free_modify (f : World HA -> World HA) :
  (forall w, effect_engine (f w) = effect_engine w) -> engine_free (modify f).
Proof. intros Hf w w' r [= <- <-]. apply Hf. Qed.

Lemma engine_free_get_state (entity_id0 : string) :
  engine_free (api_get_state entity_id0).
Proof.
  intros w w' r. unfold api_get_state.
  destruct (get_state (ha w) entity_id0) as [ha' r']. now intros [= <- <-].
Qed.

Lemma engine_free_call_service (domain service0 : string) (data : ServiceData) :
  engine_free (api_call_service domain service0 data).
Proof.
  intros w w' r. unfold api_call_service.
  destruct (call_service (ha w) domain service0 data) as [ha' r'].
  now intros [= <- <-].
Qed.

Lemma engine_free_read {A} (m : World HA -> prog (HA := HA) A) :
  (forall w0, engine_free (m w0)) -> engine_free (fun w => m w w).
Proof. intros H w w' r Hr. exact (H w w w' r Hr). Qed.

End application.

Create HintDb app_frame discriminated.

#[export] Hint Resolve orderly_ret orderly_raise orderly_bind orderly_try
  orderly_for_in orderly_get_state orderly_call_service
  engine_free_ret engine_free_raise engine_free_bind engine_free_try
  engine_free_for_in engine_free_get_state engine_free_call_service : app_frame.

Section light_manager_frames.
Context {HA : Type} `{!HomeAssistantAPI HA}.

Lemma orderly_fetch_capabilities (id : string) (s : LightSequence) :
  orderly (LightManager._fetch_capabilities (HA := HA) id s).
Proof. unfold LightManager._fetch_capabilities. auto with app_frame. Qed.

Lemma orderly_fetch_state (id : string) (s : LightSequence) :
  orderly (LightManager._fetch_state (HA := HA) id s).
Proof.
  unfold LightManager._fetch_state.
  apply orderly_bind; [auto with app_frame|]. intros st.
  apply orderly_bind; [|auto with app_frame].
  apply orderly_modify. intros w. now destruct w.
Qed.

Lemma engine_free_fetch_capabilities (id : string) (s : LightSequence) :
  engine_free (LightManager._fetch_capabilities (HA := HA) id s).
Proof. unfold LightManager._fetch_capabilities. auto with app_frame. Qed.

Lemma engine_free_fetch_state (id : string) (s : LightSequence) :
  engine_free (LightManager._fetch_state (HA := HA) id s).
Proof.
  unfold LightManager._fetch_state.
  apply engine_free_bind; [auto with app_frame|]. intros st.
  apply engine_free_bind; [|auto with app_frame].
  apply engine_free_modify. intros w. now destruct w.
Qed.

Lemma orderly_fetch_all (ids : list string) (s : LightSequence) :
  orderly (LightManager.fetch_all (HA := HA) ids s).
Proof.
  revert s. induction ids as [|id ids IH]; intros s; simpl.
  - apply orderly_ret.
  - apply orderly_bind; [apply orderly_fetch_capabilities|]. intros s1.
    apply orderly_bind; [apply orderly_fetch_state|]. intros s2. apply IH.
Qed.

Lemma engine_free_fetch_all (ids : list string) (s : LightSequence) :
  engine_free (LightManager.fetch_all (HA := HA) ids s).
Proof.
  revert s. induction ids as [|id ids IH]; intros s; simpl.
  - apply engine_free_ret.
  - apply engine_free_bind; [apply engine_free_fetch_capabilities|]. intros s1.
    apply engine_free_bind; [apply engine_free_fetch_state|]. intros s2. apply IH.
Qed.

Lemma orderly_create_sequence (name0 : string) (ids : list string) :
  orderly (LightManager.create_sequence (HA := HA) name0 ids).
Proof.
  unfold LightManager.create_sequence.
  apply orderly_bind; [apply orderly_fetch_all|]. intros s.
  apply orderly_bind; [|auto with app_frame].
  apply orderly_modify. intros w. now destruct w.
Qed.

Lemma engine_free_create_sequence (name0 : string) (ids : list string) :
  engine_free (LightManager.create_sequence (HA := HA) name0 ids).
Proof.
  unfold LightManager.create_sequence.
  apply engine_free_bind; [apply engine_free_fetch_all|]. intros s.
  apply engine_free_bind; [|auto with app_frame].
  apply engine_free_modify. intros w. now destruct w.
Qed.

Lemma orderly_update_light (id : string) (rgb : Params) :
  orderly (LightManager.update_light (HA := HA) id rgb).
Proof.
  unfold LightManager.update_light.
  apply orderly_bind; [auto with app_frame|]. intros _.
  apply (orderly_read (fun w0 => for_in _ _)). intros w0.
  apply orderly_for_in. intros [key s].
  destruct (bool_decide _); [|apply orderly_ret].
  apply orderly_bind; [apply orderly_fetch_state|]. intros s'.
  apply orderly_modify. intros w. now destruct w.
Qed.

Lemma engine_free_update_light (id : string) (rgb : Params) :
  engine_free (LightManager.update_light (HA := HA) id rgb).
Proof.
  unfold LightManager.update_light.
  apply engine_free_bind; [auto with app_frame|]. intros _.
  apply (engine_free_read (fun w0 => for_in _ _)). intros w0.
  apply engine_free_for_in. intros [key s].
  destruct (bool_decide _); [|apply engine_free_ret].
  apply engine_free_bind; [apply engine_free_fetch_state|]. intros s'.
  apply engine_free_modify. intros w. now destruct w.
Qed.

Lemma orderly_turn_off_sequence (name0 : string) :
  orderly (LightManager.turn_off_sequence (HA := HA) name0).
Proof.
  intros w w' r. unfold LightManager.turn_off_sequence.
  destruct (sequences (light_manager w) !! name0) as [s|].
  - apply orderly_for_in. intros id. auto with app_frame.
  - apply orderly_raise.
Qed.

Lemma engine_free_turn_off_sequence (name0 : string) :
  engine_free (LightManager.turn_off_sequence (HA := HA) name0).
Proof.
  intros w w' r. unfold LightManager.turn_off_sequence.
  destruct (sequences (light_manager w) !! name0) as [s|].
  - apply engine_free_for_in. intros id. auto with app_frame.
  - apply engine_free_raise.
Qed.

End light_manager_frames.

(** ** Sequence creation *)

Section create_sequence.
Context {HA : Type} `{!HomeAssistantAPI HA}.

Lemma fetch_all_outcome (ids : list string) (s : LightSequence) (w : World HA) :
  let '(w', r) := LightManager.fetch_all ids s w in
  sequences (light_manager w') = sequences (light_manager w) /\
  match r with
  | Ok s' =>
      spec.every_fetch_succeeds ids (ha w) = true /\
      name s' = name s /\ light_ids s' = light_ids s
  | Raise _ => spec.every_fetch_succeeds ids (ha w) = false
  end.
Proof.
  revert s w. induction ids as [|id ids IH]; intros s w; simpl.
  - auto.
  - unfold bindP at 1. unfold LightManager._fetch_capabilities at 1.
    unfold bindP at 1. unfold api_get_state at 1.
    destruct (get_state (ha w) id) as [h1 [d1|e1]] eqn:E1; simpl; [|auto].
    unfold bindP at 1. unfold LightManager._fetch_state at 1.
    unfold bindP at 1. unfold api_get_state at 1. simpl.
    destruct (get_state h1 id) as [h2 [d2|e2]] eqn:E2; simpl; [|auto].
    match goal with
    | |- context [LightManager.fetch_all ids ?s1 ?w1] =>
        specialize (IH s1 w1); destruct (LightManager.fetch_all ids s1 w1) as [w' r]
    end.
    simpl in IH. destruct IH as [Hseq Hr]. split; [exact Hseq|].
    destruct r as [s'|e]; [|exact Hr].
    destruct Hr as (Hok & Hn & Hl). auto.
Qed.

(** C8: [create_sequence] either fails, exactly when some fetch of
    capabilities or state fails, and then the registry's sequence map is what
    it was before the call; or it succeeds, every fetch having succeeded, and
    the map gains the one new sequence under its name. *)
Theorem create_sequence_all_or_nothing (name0 : string) (ids : list string)
    (w : World HA) :
  let '(w', r) := LightManager.create_sequence name0 ids w in
  match r with
  | Ok sequence =>
      spec.every_fetch_succeeds ids (ha w) = true /\
      sequences (light_manager w')
      = <[name0 := sequence]> (sequences (light_manager w)) /\
      name sequence = name0 /\ light_ids sequence = ids
  | Raise _ =>
      spec.every_fetch_succeeds ids (ha w) = false /\
      sequences (light_manager w') = sequences (light_manager w)
  end.
Proof.
  unfold LightManager.create_sequence, bindP.
  pose proof (fetch_all_outcome ids (new_LightSequence name0 ids) w) as H.
  destruct (LightManager.fetch_all ids (new_LightSequence name0 ids) w)
    as [w1 [s'|e]]; simpl in *.
  - destruct H as (Hseq & Hok & Hn & Hl). rewrite Hseq. auto.
  - destruct H as (Hseq & Hfail). auto.
Qed.

End create_sequence.

(** One light of two cannot be reached: the call raises, the sequence map
    stays empty, and only the state cache has seen the reachable light. *)
Example create_sequence_offline_light :
  let w := LightFX.__init__ (mkSimpleHA ["x"]) 0 in
  let '(w', r) := LightManager.create_sequence "porch" ["a"; "x"] w in
  r = Raise (ControllerError "Failed to get state") /\
  sequences (light_manager w') = ∅ /\
  dom (light_states (light_manager w')) = {["a"]}.
Proof. vm_compute. repeat split. Qed.

(** ** The effect scheduler *)


Lemma cancel_in_length tid l : length (cancel_in tid l) = length l.
Proof.
  unfold cancel_in. destruct (l !! tid) as [t|]; [|reflexivity].
  destruct (task_status t); try reflexivity. apply length_alter.
Qed.

Lemma cancel_in_lookup_ne tid j l : j <> tid -> cancel_in tid l !! j = l !! j.
Proof.
  intros Hne. unfold cancel_in. destruct (l !! tid) as [t|]; [|reflexivity].
  destruct (task_status t); try reflexivity. apply list_lookup_alter_ne. congruence.
Qed.

Lemma cancel_in_key tid j l :
  task_key <$> cancel_in tid l !! j = task_key <$> l !! j.
Proof.
  unfold cancel_in. destruct (l !! tid) as [t|] eqn:Et; [|reflexivity].
  destruct (task_status t); try reflexivity.
  destruct (decide (j = tid)) as [-> | Hne].
  - rewrite list_lookup_alter_eq, Et. reflexivity.
  - rewrite list_lookup_alter_ne by congruence. reflexivity.
Qed.

Lemma cancel_in_status_eq tid l t :
  l !! tid = Some t ->
  status_of (cancel_in tid l) tid
  = Some (match task_status t with Pending => Cancelled | st => st end).
Proof.
  intros Et. unfold status_of, cancel_in. rewrite Et.
  destruct (task_status t) eqn:Est; try (rewrite Et; simpl; congruence).
  rewrite list_lookup_alter_eq, Et. reflexivity.
Qed.

Lemma cancel_in_not_pending tid j l :
  status_of l j <> Some Pending -> status_of (cancel_in tid l) j = status_of l j.
Proof.
  intros Hnp. destruct (decide (j = tid)) as [-> | Hne].
  - unfold status_of in *. destruct (l !! tid) as [t|] eqn:Et.
    + pose proof (cancel_in_status_eq tid l t Et) as H.
      unfold status_of in H. rewrite H. simpl in *.
      destruct (task_status t); congruence.
    + unfold cancel_in. rewrite Et. now rewrite Et.
  - unfold status_of. now rewrite cancel_in_lookup_ne.
Qed.

Section scheduler.
Context {HA : Type} `{!HomeAssistantAPI HA}.

Lemma turn_off_loop (cur : option nat) (ids : list string) (w : World HA) :
  current w = cur ->
  exists w',
    for_in ids
      (fun entity_id0 =>
         try_except
           (api_call_service "light" "turn_off" (mkServiceData entity_id0 None))
           (fun e => ret tt)) w = (w', Ok tt) /\
    light_manager w' = light_manager w /\
    effect_engine w' = effect_engine w /\
    current w' = current w /\
    service_errors w' = service_errors w /\
    calls w' = (calls w ++ off_calls cur ids)%list.
Proof.
  revert w. induction ids as [|id ids IH]; intros w Hcur; simpl.
  - exists w. rewrite app_nil_r. repeat split; reflexivity.
  - unfold bindP at 1, try_except at 1, api_call_service at 1.
    destruct (call_service (ha w) "light" "turn_off" (mkServiceData id None))
      as [h' r].
    set (w1 := set_calls _ (set_ha h' w)).
    assert (Hw1 : current w1 = cur) by exact Hcur.
    destruct (IH w1 Hw1) as (w' & Hrun & Hlm & Hee & Hc & Hs & Hcalls).
    exists w'. destruct r as [[]|e]; simpl; rewrite Hrun;
      (split; [reflexivity|]); rewrite Hlm, Hee, Hc, Hs, Hcalls;
      subst w1; simpl; rewrite Hcur, <- app_assoc; auto.
Qed.

Lemma turn_off_outcome (name0 : string) (seq : LightSequence) (w : World HA) :
  sequences (light_manager w) !! name0 = Some seq ->
  exists w',
    LightManager.turn_off_sequence name0 w = (w', Ok tt) /\
    light_manager w' = light_manager w /\
    effect_engine w' = effect_engine w /\
    current w' = current w /\
    service_errors w' = service_errors w /\
    calls w' = (calls w ++ off_calls (current w) (light_ids seq))%list.
Proof.
  intros Hseq. unfold LightManager.turn_off_sequence. rewrite Hseq.
  now apply turn_off_loop.
Qed.


Lemma stop_effect_idle (name0 : string) (w : World HA) :
  _running_effects (effect_engine w) !! name0 = None ->
  EffectEngine.stop_effect name0 w = (w, Ok tt).
Proof. intros H. unfold EffectEngine.stop_effect. now rewrite H. Qed.

Lemma stop_effect_live (name0 : string) (w : World HA) eff cfg tid :
  _running_effects (effect_engine w) !! name0 = Some (eff, cfg, tid) ->
  (forall e, status_of (tasks (effect_engine w)) tid = Some (Failed e) ->
             e = CancelledError) ->
  EffectEngine.stop_effect name0 w
  = LightManager.turn_off_sequence name0 (stopped name0 tid w).
Proof.
  intros Hrun Hnf. unfold EffectEngine.stop_effect. rewrite Hrun.
  unfold bindP, EffectEngine.cancel, EffectEngine.await_task, try_except,
    stopped, cancel_in, status_of in *.
  destruct w as [h lm [effs run ts] cur cs errs]. simpl in *.
  destruct (ts !! tid) as [t|] eqn:Et; simpl in *.
  - destruct (task_status t) eqn:Est; simpl.
    + unfold EffectEngine.set_task_status. simpl.
      rewrite list_lookup_alter_eq, Et. simpl. reflexivity.
    + rewrite Et, Est. reflexivity.
    + rewrite (Hnf e eq_refl) in *. rewrite Et, Est. reflexivity.
  - rewrite Et. reflexivity.
Qed.

Lemma stop_effect_failed (name0 : string) (w : World HA) eff cfg tid e :
  _running_effects (effect_engine w) !! name0 = Some (eff, cfg, tid) ->
  status_of (tasks (effect_engine w)) tid = Some (Failed e) ->
  e <> CancelledError ->
  EffectEngine.stop_effect name0 w = (w, Raise e).
Proof.
  intros Hrun Hst Hne. unfold EffectEngine.stop_effect. rewrite Hrun.
  unfold bindP, EffectEngine.cancel, EffectEngine.await_task, try_except,
    status_of in *.
  destruct (tasks (effect_engine w) !! tid) as [t|] eqn:Et; [|discriminate].
  simpl in Hst. injection Hst as Hst. rewrite Hst, Et, Hst.
  destruct e; try reflexivity. congruence.
Qed.

End scheduler.

(** *** Invariants of the scheduler *)

Section invariants.
Context {HA : Type} `{!HomeAssistantAPI HA}.


Lemma Inv_one_task_per_sequence (w : World HA) tid1 tid2 t1 t2 :
  Inv w ->
  tasks (effect_engine w) !! tid1 = Some t1 -> task_status t1 = Pending ->
  tasks (effect_engine w) !! tid2 = Some t2 -> task_status t2 = Pending ->
  task_key t1 = task_key t2 -> tid1 = tid2.
Proof.
  intros [_ Hinv] H1 Hp1 H2 Hp2 Hkey.
  destruct (Hinv tid1 t1 H1 Hp1) as (e1 & c1 & Hr1).
  destruct (Hinv tid2 t2 H2 Hp2) as (e2 & c2 & Hr2).
  rewrite Hkey in Hr1. congruence.
Qed.

Lemma Inv_init (ha0 : HA) (now : Q) : Inv (LightFX.__init__ ha0 now).
Proof. split; [reflexivity|]. intros tid t Ht. destruct tid; discriminate. Qed.

(** Any change of the world that leaves the engine and [current] alone. *)
Lemma Inv_same_engine (w w' : World HA) :
  effect_engine w' = effect_engine w -> current w' = current w -> Inv w -> Inv w'.
Proof. intros He Hc [H1 H2]. split; [congruence|]. now rewrite He. Qed.

Lemma settled_same_engine (w w' : World HA) tid :
  effect_engine w' = effect_engine w -> settled w tid -> settled w' tid.
Proof. intros He. unfold settled. now rewrite He. Qed.

Lemma Inv_stopped (name0 : string) (w : World HA) eff cfg tid :
  _running_effects (effect_engine w) !! name0 = Some (eff, cfg, tid) ->
  Inv w -> Inv (stopped name0 tid w).
Proof.
  intros Hrun [Hcur Hinv]. split; [exact Hcur|].
  intros j t Hj Hp. simpl in Hj |- *.
  destruct (decide (j = tid)) as [-> | Hne].
  - exfalso. assert (Hs : status_of (cancel_in tid (tasks (effect_engine w))) tid
                          = Some Pending) by (unfold status_of; now rewrite Hj, <- Hp).
    destruct (tasks (effect_engine w) !! tid) as [t0|] eqn:Et.
    + rewrite (cancel_in_status_eq tid _ t0 Et) in Hs.
      destruct (task_status t0); discriminate.
    + unfold cancel_in in Hj. rewrite Et in Hj. congruence.
  - rewrite cancel_in_lookup_ne in Hj by exact Hne.
    destruct (Hinv j t Hj Hp) as (e & c & Hr).
    exists e, c. rewrite lookup_delete_ne; [exact Hr|].
    intros Heq. rewrite <- Heq in Hr. congruence.
Qed.

Lemma settled_stopped (name0 : string) (w : World HA) tid j :
  settled w j -> settled (stopped name0 tid w) j.
Proof.
  intros (st & Hst & Hnp). exists st. split; [|exact Hnp]. simpl.
  rewrite cancel_in_not_pending; [exact Hst|]. rewrite Hst. congruence.
Qed.

Lemma stopped_settles (name0 : string) (w : World HA) tid t :
  tasks (effect_engine w) !! tid = Some t -> settled (stopped name0 tid w) tid.
Proof.
  intros Ht. unfold settled. simpl.
  rewrite (cancel_in_status_eq tid _ t Ht). eexists. split; [reflexivity|].
  destruct (task_status t); discriminate.
Qed.

End invariants.

Section scheduler_steps.
Context {HA : Type} `{!HomeAssistantAPI HA}.


Lemma engine_step_refl (w : World HA) : engine_step w w.
Proof.
  split; auto. exists []. now rewrite app_nil_r.
Qed.

Lemma engine_step_trans (w1 w2 w3 : World HA) :
  engine_step w1 w2 -> engine_step w2 w3 -> engine_step w1 w3.
Proof.
  intros [i1 s1 c1 e1 (n1 & Hn1 & Hf1)] [i2 s2 c2 e2 (n2 & Hn2 & Hf2)].
  split; auto; try congruence.
  exists (n1 ++ n2)%list. split.
  - rewrite Hn2, Hn1. now rewrite app_assoc.
  - apply Forall_app. split; [exact Hf1|]. now rewrite c1 in Hf2.
Qed.

(** An orderly coroutine that leaves the engine alone. *)
Lemma engine_step_free {A} (m : prog A) (w w' : World HA) (r : result A) :
  orderly m -> engine_free m -> m w = (w', r) -> engine_step w w'.
Proof.
  intros Ho Hf Hr. destruct (Ho _ _ _ Hr) as (Hc & Hs & Hcalls).
  pose proof (Hf _ _ _ Hr) as He.
  split; auto.
  - now apply Inv_same_engine.
  - intros j. now apply settled_same_engine.
Qed.

Lemma engine_step_stopped (name0 : string) (w : World HA) eff cfg tid :
  _running_effects (effect_engine w) !! name0 = Some (eff, cfg, tid) ->
  engine_step w (stopped name0 tid w).
Proof.
  intros Hrun. split; try reflexivity.
  - now apply (Inv_stopped name0 w eff cfg tid).
  - intros j. apply settled_stopped.
  - exists []. simpl. now rewrite app_nil_r.
Qed.

(** [stop_effect]: either nothing changes (no record, or the recorded task
    has failed and its exception is re-raised), or the recorded task is
    cancelled, the record is deleted and the lights are turned off. *)
Lemma stop_effect_cases (name0 : string) (w : World HA) :
  (exists r, EffectEngine.stop_effect name0 w = (w, r) /\
     (r = Ok tt -> _running_effects (effect_engine w) !! name0 = None)) \/
  (exists eff cfg tid,
     _running_effects (effect_engine w) !! name0 = Some (eff, cfg, tid) /\
     EffectEngine.stop_effect name0 w
     = LightManager.turn_off_sequence name0 (stopped name0 tid w)).
Proof.
  destruct (_running_effects (effect_engine w) !! name0) as [[[eff cfg] tid]|] eqn:Hrun.
  - destruct (status_of (tasks (effect_engine w)) tid) as [[| |e]|] eqn:Hst.
    1,2,4: right; exists eff, cfg, tid; split; [reflexivity|];
      apply (stop_effect_live name0 w eff cfg tid Hrun); intros e He; congruence.
    assert (Hdec : e = CancelledError \/ e <> CancelledError)
      by (destruct e; auto; right; discriminate).
    destruct Hdec as [-> | Hne].
    + right. exists eff, cfg, tid. split; [reflexivity|].
      apply (stop_effect_live name0 w eff cfg tid Hrun). intros e He. congruence.
    + left. exists (Raise e). split; [|discriminate].
      now apply (stop_effect_failed name0 w eff cfg tid e).
  - left. exists (Ok tt). split; [now apply stop_effect_idle | auto].
Qed.

Lemma stop_effect_step (name0 : string) (w w' : World HA) (r : result unit) :
  EffectEngine.stop_effect name0 w = (w', r) ->
  engine_step w w' /\
  light_manager w' = light_manager w /\
  effects (effect_engine w') = effects (effect_engine w) /\
  length (tasks (effect_engine w')) = length (tasks (effect_engine w)) /\
  (r = Ok tt -> _running_effects (effect_engine w') !! name0 = None).
Proof.
  intros Hr. destruct (stop_effect_cases name0 w) as [(r0 & Hsame & Hidle) | Hlive].
  - rewrite Hsame in Hr. injection Hr as <- <-.
    split; [apply engine_step_refl | auto].
  - destruct Hlive as (eff & cfg & tid & Hrun & Hstop). rewrite Hstop in Hr.
    pose proof (engine_step_stopped name0 w eff cfg tid Hrun) as Hs1.
    pose proof (engine_step_free _ _ _ _ (orderly_turn_off_sequence name0)
                  (engine_free_turn_off_sequence name0) Hr) as Hs2.
    pose proof (engine_free_turn_off_sequence name0 _ _ _ Hr) as He.
    split; [exact (engine_step_trans _ _ _ Hs1 Hs2)|].
    rewrite He. simpl. rewrite cancel_in_length, lookup_delete_eq.
    repeat split; auto.
    unfold LightManager.turn_off_sequence in Hr.
    destruct (sequences (light_manager (stopped name0 tid w)) !! name0) as [seq|] eqn:Es.
    + destruct (turn_off_loop (current (stopped name0 tid w)) (light_ids seq)
                  (stopped name0 tid w) eq_refl) as (w2 & Hrun2 & Hlm & _).
      rewrite Hrun2 in Hr. injection Hr as <- <-. exact Hlm.
    + injection Hr as <- <-. reflexivity.
Qed.

End scheduler_steps.

Section start_effect.
Context {HA : Type} `{!HomeAssistantAPI HA}.


Lemma Inv_installed name0 seq eff cfg (w : World HA) :
  _running_effects (effect_engine w) !! name0 = None ->
  Inv w -> Inv (installed name0 seq eff cfg w).
Proof.
  intros Hnone [Hcur Hinv]. split; [exact Hcur|].
  intros j t Hj Hp. simpl in Hj |- *.
  destruct (decide (j < length (tasks (effect_engine w)))%nat) as [Hlt | Hge].
  - rewrite lookup_app_l in Hj by exact Hlt.
    destruct (Hinv j t Hj Hp) as (e & c & Hr). exists e, c.
    rewrite lookup_insert_ne; [exact Hr|]. intros Heq. congruence.
  - rewrite lookup_app_r in Hj by lia.
    destruct (j - length (tasks (effect_engine w)))%nat as [|k] eqn:Ek;
      [|destruct k; discriminate].
    injection Hj as <-. simpl. exists eff, cfg.
    rewrite lookup_insert_eq. do 2 f_equal. lia.
Qed.

Lemma settled_installed name0 seq eff cfg (w : World HA) j :
  settled w j -> settled (installed name0 seq eff cfg w) j.
Proof.
  intros (st & Hst & Hnp). exists st. split; [|exact Hnp].
  unfold status_of in *. simpl.
  destruct (tasks (effect_engine w) !! j) as [t|] eqn:Et; [|discriminate].
  now rewrite (lookup_app_l_Some _ _ _ _ Et).
Qed.

Lemma start_effect_unfold (name0 effect_name : string) (cfg : EffectConfig)
    (w : World HA) :
  EffectEngine.start_effect name0 effect_name cfg w =
  match EffectEngine.stop_effect name0 w with
  | (w1, Ok _) =>
      match sequences (light_manager w1) !! name0 with
      | None => (w1, Raise (ValueError ("Sequence " ++ name0 ++ " not found")))
      | Some seq =>
          match effects (effect_engine w1) !! effect_name with
          | None => (w1, Raise (ValueError ("Effect " ++ effect_name ++ " not found")))
          | Some eff => (installed name0 seq eff cfg w1, Ok tt)
          end
      end
  | (w1, Raise e) => (w1, Raise e)
  end.
Proof.
  unfold EffectEngine.start_effect, bindP at 1.
  destruct (EffectEngine.stop_effect name0 w) as [w1 [[]|e]]; [|reflexivity].
  unfold LightManager.get_sequence.
  destruct (sequences (light_manager w1) !! name0) as [seq|]; [|reflexivity].
  destruct (effects (effect_engine w1) !! effect_name) as [eff|]; [|reflexivity].
  destruct w1 as [h lm [effs run ts] cur cs errs]. reflexivity.
Qed.

(** [start_effect]: what holds of the world it leaves, and what a
    successful start has installed. *)
Lemma start_effect_step (name0 effect_name : string) (cfg : EffectConfig)
    (w w' : World HA) (r : result unit) :
  EffectEngine.start_effect name0 effect_name cfg w = (w', r) ->
  engine_step w w' /\
  (r = Ok tt ->
   exists seq eff,
     sequences (light_manager w) !! name0 = Some seq /\
     effects (effect_engine w) !! effect_name = Some eff /\
     _running_effects (effect_engine w') !! name0
     = Some (eff, cfg, length (tasks (effect_engine w))) /\
     tasks (effect_engine w') !! length (tasks (effect_engine w))
     = Some (mkTask name0 seq eff cfg Pending)).
Proof.
  rewrite start_effect_unfold.
  destruct (EffectEngine.stop_effect name0 w) as [w1 [[]|e]] eqn:Hstop.
  - destruct (stop_effect_step name0 w w1 (Ok tt) Hstop)
      as (Hstep & Hlm & Heffs & Hlen & Hnone).
    specialize (Hnone eq_refl).
    destruct (sequences (light_manager w1) !! name0) as [seq|] eqn:Hseq.
    + destruct (effects (effect_engine w1) !! effect_name) as [eff|] eqn:Heff.
      * intros [= <- <-]. split.
        -- destruct Hstep as [i1 s1 c1 e1 Hcalls]. split; auto.
           ++ intros Hi. apply Inv_installed; auto.
           ++ intros j Hj. apply settled_installed; auto.
        -- intros _. exists seq, eff.
           rewrite <- Hlm, <- Heffs, <- Hlen. simpl.
           rewrite lookup_insert_eq. repeat split; auto.
           rewrite lookup_app_r by lia. now rewrite Nat.sub_diag.
      * intros [= <- <-]. split; [exact Hstep | discriminate].
    + intros [= <- <-]. split; [exact Hstep | discriminate].
  - intros [= <- <-]. split; [|discriminate].
    exact (proj1 (stop_effect_step name0 w w1 (Raise e) Hstop)).
Qed.

End start_effect.

Section events.
Context {HA : Type} `{!HomeAssistantAPI HA}.

Lemma orderly_run_effect seq eff cfg now twinkle n :
  orderly (EffectEngine._run_effect (HA := HA) seq eff cfg now twinkle n).
Proof.
  unfold EffectEngine._run_effect.
  destruct (EffectEngine.generate_frame eff now twinkle seq cfg).
  - apply orderly_for_in. intros [id rgb]. apply orderly_update_light.
  - apply orderly_raise.
Qed.

Lemma engine_free_run_effect seq eff cfg now twinkle n :
  engine_free (EffectEngine._run_effect (HA := HA) seq eff cfg now twinkle n).
Proof.
  unfold EffectEngine._run_effect.
  destruct (EffectEngine.generate_frame eff now twinkle seq cfg).
  - apply engine_free_for_in. intros [id rgb]. apply engine_free_update_light.
  - apply engine_free_raise.
Qed.

Lemma Inv_set_task_status (w : World HA) tid e :
  Inv w -> Inv (EffectEngine.set_task_status tid (Failed e) w).
Proof.
  intros [Hcur Hinv]. split; [exact Hcur|].
  intros j t Hj Hp. simpl in Hj |- *.
  destruct (decide (j = tid)) as [-> | Hne].
  - rewrite list_lookup_alter_eq in Hj.
    destruct (tasks (effect_engine w) !! tid); [|discriminate].
    injection Hj as <-. discriminate.
  - rewrite list_lookup_alter_ne in Hj by congruence. exact (Hinv j t Hj Hp).
Qed.

Lemma settled_set_task_status (w : World HA) tid e j :
  settled w j -> settled (EffectEngine.set_task_status tid (Failed e) w) j.
Proof.
  intros (st & Hst & Hnp). unfold settled, status_of in *. simpl.
  destruct (decide (j = tid)) as [-> | Hne].
  - rewrite list_lookup_alter_eq.
    destruct (tasks (effect_engine w) !! tid); [|discriminate].
    simpl. eexists. split; [reflexivity | discriminate].
  - rewrite list_lookup_alter_ne by congruence. eauto.
Qed.

(** Resuming a task: only a pending task does anything, and every call it
    issues carries its own identity. *)
Lemma resume_step (tid : nat) (now : Q) (twinkle : gmap string Params) (n : nat)
    (w : World HA) :
  let w' := EffectEngine.resume tid now twinkle n w in
  (Inv w -> Inv w') /\
  (forall j, settled w j -> settled w' j) /\
  current w' = current w /\
  exists new,
    calls w' = (calls w ++ new)%list /\
    Forall (fun c => issuer c = Some tid /\
                     status_of (tasks (effect_engine w)) tid = Some Pending) new.
Proof.
  cbv zeta. unfold EffectEngine.resume.
  assert (Hsame : (Inv w -> Inv w) /\ (forall j, settled w j -> settled w j) /\
                  current w = current w /\
                  exists new, calls w = (calls w ++ new)%list /\
                    Forall (fun c => issuer c = Some tid /\
                      status_of (tasks (effect_engine w)) tid = Some Pending) new).
  { split; [auto|]. split; [auto|]. split; [reflexivity|].
    exists []. split; [now rewrite app_nil_r | constructor]. }
  destruct (tasks (effect_engine w) !! tid) as [t|] eqn:Et; [|exact Hsame].
  destruct (task_status t) eqn:Est; try exact Hsame.
  clear Hsame.
  destruct (EffectEngine._run_effect _ _ _ now twinkle n (set_current (Some tid) w))
    as [w1 r] eqn:Hrun.
  pose proof (orderly_run_effect (task_sequence t) (task_effect t) (task_config t)
                now twinkle n) as Ho.
  pose proof (engine_free_run_effect (task_sequence t) (task_effect t)
                (task_config t) now twinkle n) as Hfree.
  destruct (Ho _ _ _ Hrun) as (Hc & Hs & new & Hnew & Hf).
  pose proof (Hfree _ _ _ Hrun) as He.
  simpl in Hc, Hnew, Hf, He.
  assert (Hpend : status_of (tasks (effect_engine w)) tid = Some Pending)
    by (unfold status_of; now rewrite Et, <- Est).
  assert (Hcalls : exists new0, calls w1 = (calls w ++ new0)%list /\
            Forall (fun c => issuer c = Some tid /\
              status_of (tasks (effect_engine w)) tid = Some Pending) new0).
  { exists new. split; [exact Hnew|]. eapply Forall_impl; [exact Hf|]. auto. }
  assert (Hinv1 : Inv w -> Inv (set_current (current w) w1)).
  { intros [Hcur Hinv]. split; [exact Hcur|]. simpl. now rewrite He. }
  assert (Hset1 : forall j, settled w j -> settled (set_current (current w) w1) j).
  { intros j. unfold settled. simpl. now rewrite He. }
  destruct r as [[]|e].
  - split; [exact Hinv1|]. split; [exact Hset1|]. split; [reflexivity|].
    exact Hcalls.
  - split; [|split; [|split; [reflexivity|exact Hcalls]]].
    + intros Hi. now apply Inv_set_task_status, Hinv1.
    + intros j Hj. now apply settled_set_task_status, Hset1.
Qed.

Lemma dispatch_step (call : LightFX.ServiceCall) (w w' : World HA)
    (r : result unit) :
  LightFX.dispatch call w = (w', r) -> engine_step w w'.
Proof.
  unfold LightFX.dispatch.
  destruct (String.eqb (LightFX.service call) "start_effect").
  - unfold bindP at 1. destruct (LightFX.data_sequence call) as [s|]; simpl;
      [|intros [= <- <-]; apply engine_step_refl].
    unfold bindP at 1. destruct (LightFX.data_effect call) as [e|]; simpl;
      [|intros [= <- <-]; apply engine_step_refl].
    intros Hr. exact (proj1 (start_effect_step _ _ _ _ _ _ Hr)).
  - destruct (String.eqb (LightFX.service call) "stop_effect").
    + unfold bindP at 1. destruct (LightFX.data_sequence call) as [s|]; simpl;
        [|intros [= <- <-]; apply engine_step_refl].
      intros Hr. exact (proj1 (stop_effect_step _ _ _ _ Hr)).
    + intros [= <- <-]. apply engine_step_refl.
Qed.

Lemma handle_service_call_step (call : LightFX.ServiceCall) (w : World HA) :
  let w' := (LightFX.handle_service_call call w).1 in
  (Inv w -> Inv w') /\
  (forall j, settled w j -> settled w' j) /\
  current w' = current w /\
  exists new, calls w' = (calls w ++ new)%list /\
              Forall (fun c => issuer c = current w) new.
Proof.
  cbv zeta. unfold LightFX.handle_service_call, try_except.
  destruct (LightFX.dispatch call w) as [w1 [[]|e]] eqn:Hd;
    destruct (dispatch_step call w w1 _ Hd) as [Hi Hs Hc He Hcalls]; simpl.
  - split; [exact Hi|]. split; [exact Hs|]. split; [exact Hc|]. exact Hcalls.
  - split; [|split; [exact Hs|split; [exact Hc|exact Hcalls]]].
    intros Hinv. destruct (Hi Hinv) as [H1 H2]. split; assumption.
Qed.

(** One event of the application keeps the invariant, keeps finished tasks
    finished, and issues no call in the name of a finished task. *)
Lemma step_safe (ev : LightFX.event) (w : World HA) (tid : nat) :
  Inv w -> settled w tid ->
  Inv (LightFX.step ev w) /\ settled (LightFX.step ev w) tid /\
  exists new, calls (LightFX.step ev w) = (calls w ++ new)%list /\
              Forall (fun c => issuer c <> Some tid) new.
Proof.
  intros Hinv Hset. pose proof (proj1 Hinv) as Hcur.
  destruct ev as [name0 ids | call | task now twinkle n]; simpl.
  - destruct (LightManager.create_sequence name0 ids w) as [w' r] eqn:Hr. simpl.
    destruct (engine_step_free _ _ _ _ (orderly_create_sequence name0 ids)
                (engine_free_create_sequence name0 ids) Hr)
      as [Hi Hs Hc He (new & Hnew & Hf)].
    split; [auto|]. split; [auto|]. exists new. split; [exact Hnew|].
    eapply Forall_impl; [exact Hf|]. simpl. intros c Hcc. congruence.
  - destruct (handle_service_call_step call w) as (Hi & Hs & Hc & new & Hnew & Hf).
    split; [auto|]. split; [auto|]. exists new. split; [exact Hnew|].
    eapply Forall_impl; [exact Hf|]. simpl. intros c Hcc. congruence.
  - destruct (resume_step task now twinkle n w) as (Hi & Hs & Hc & new & Hnew & Hf).
    split; [auto|]. split; [auto|]. exists new. split; [exact Hnew|].
    eapply Forall_impl; [exact Hf|]. simpl. intros c [Hcc Hp] Heq.
    destruct Hset as (st & Hst & Hnp). congruence.
Qed.

Lemma run_cons (ev : LightFX.event) (evs : list LightFX.event) (w : World HA) :
  LightFX.run (ev :: evs) w = LightFX.run evs (LightFX.step ev w).
Proof. reflexivity. Qed.

Lemma run_safe (evs : list LightFX.event) (w : World HA) (tid : nat) :
  Inv w -> settled w tid ->
  Inv (LightFX.run evs w) /\ settled (LightFX.run evs w) tid /\
  exists new, calls (LightFX.run evs w) = (calls w ++ new)%list /\
              Forall (fun c => issuer c <> Some tid) new.
Proof.
  revert w. induction evs as [|ev evs IH]; intros w Hinv Hset.
  - split; [exact Hinv|]. split; [exact Hset|]. exists [].
    split; [simpl; now rewrite app_nil_r | constructor].
  - rewrite run_cons.
    destruct (step_safe ev w tid Hinv Hset) as (Hi & Hs & new1 & Hn1 & Hf1).
    destruct (IH _ Hi Hs) as (Hi' & Hs' & new2 & Hn2 & Hf2).
    split; [exact Hi'|]. split; [exact Hs'|]. exists (new1 ++ new2)%list. split.
    + rewrite Hn2, Hn1. now rewrite app_assoc.
    + apply Forall_app. auto.
Qed.

Lemma run_Inv (evs : list LightFX.event) (w : World HA) :
  Inv w -> Inv (LightFX.run evs w).
Proof.
  revert w. induction evs as [|ev evs IH]; intros w Hinv; [exact Hinv|].
  rewrite run_cons. apply IH. destruct ev as [name0 ids | call | task now twinkle n]; simpl.
  - destruct (LightManager.create_sequence name0 ids w) as [w' r] eqn:Hr. simpl.
    exact (es_inv _ _ (engine_step_free _ _ _ _ (orderly_create_sequence name0 ids)
                         (engine_free_create_sequence name0 ids) Hr) Hinv).
  - exact (proj1 (handle_service_call_step call w) Hinv).
  - exact (proj1 (resume_step task now twinkle n w) Hinv).
Qed.

End events.

Section start_effect_outcomes.
Context {HA : Type} `{!HomeAssistantAPI HA}.


(** Stopping a registered sequence whose task has not failed succeeds. *)
Lemma stop_effect_ok (name0 : string) (seq : LightSequence) (w : World HA) :
  sequences (light_manager w) !! name0 = Some seq ->
  no_failed_task name0 w ->
  exists w1,
    EffectEngine.stop_effect name0 w = (w1, Ok tt) /\
    light_manager w1 = light_manager w /\
    effects (effect_engine w1) = effects (effect_engine w) /\
    length (tasks (effect_engine w1)) = length (tasks (effect_engine w)) /\
    service_errors w1 = service_errors w /\
    (forall eff cfg tid,
       _running_effects (effect_engine w) !! name0 = Some (eff, cfg, tid) ->
       tasks (effect_engine w1) = cancel_in tid (tasks (effect_engine w)) /\
       calls w1 = (calls w ++ off_calls (current w) (light_ids seq))%list).
Proof.
  intros Hseq Hnf.
  destruct (_running_effects (effect_engine w) !! name0)
    as [[[eff cfg] tid]|] eqn:Hrun.
  - assert (Hlive : EffectEngine.stop_effect name0 w
                    = LightManager.turn_off_sequence name0 (stopped name0 tid w)).
    { apply (stop_effect_live name0 w eff cfg tid Hrun). intros e He.
      exfalso. exact (Hnf eff cfg tid e Hrun He). }
    destruct (turn_off_outcome name0 seq (stopped name0 tid w) Hseq)
      as (w2 & Hoff & Hlm & Hee & Hcur & Herr & Hcalls).
    exists w2. rewrite Hlive, Hoff, Hlm, Hee, Herr. simpl.
    rewrite cancel_in_length.
    split; [reflexivity|]. split; [reflexivity|]. split; [reflexivity|].
    split; [reflexivity|]. split; [reflexivity|].
    intros eff' cfg' tid' [= -> -> ->]. split; [reflexivity | exact Hcalls].
  - exists w. rewrite stop_effect_idle by exact Hrun.
    split; [reflexivity|]. split; [reflexivity|]. split; [reflexivity|].
    split; [reflexivity|]. split; [reflexivity|]. discriminate.
Qed.


End start_effect_outcomes.

(** *** The claims about starting and stopping effects *)


Section claims.
Context {HA : Type} `{!HomeAssistantAPI HA}.

(** C2: in a world that satisfies the scheduler's invariant, starting an
    effect on a sequence whose recorded task is still pending succeeds; the
    old task is cancelled, the one record of the sequence names the new task,
    which is pending; and whatever happens afterwards, no two pending tasks
    belong to one sequence and no call made since the start was issued by the
    superseded task. *)
Theorem start_effect_supersedes (w : World HA) (name0 effect_name : string)
    (config : EffectConfig) eff0 cfg0 tid0 t0 seq eff :
  Inv w ->
  _running_effects (effect_engine w) !! name0 = Some (eff0, cfg0, tid0) ->
  tasks (effect_engine w) !! tid0 = Some t0 ->
  task_status t0 = Pending ->
  sequences (light_manager w) !! name0 = Some seq ->
  effects (effect_engine w) !! effect_name = Some eff ->
  exists w',
    EffectEngine.start_effect name0 effect_name config w = (w', Ok tt) /\
    let tid1 := length (tasks (effect_engine w)) in
    _running_effects (effect_engine w') !! name0 = Some (eff, config, tid1) /\
    tid0 <> tid1 /\
    status_of (tasks (effect_engine w')) tid0 = Some Cancelled /\
    status_of (tasks (effect_engine w')) tid1 = Some Pending /\
    forall evs,
      let w'' := LightFX.run evs w' in
      (forall tid tid' t t',
         tasks (effect_engine w'') !! tid = Some t -> task_status t = Pending ->
         tasks (effect_engine w'') !! tid' = Some t' -> task_status t' = Pending ->
         task_key t = task_key t' -> tid = tid') /\
      Forall (fun c => issuer c <> Some tid0) (calls_since w w'').
Proof.
  intros Hinv Hrun Ht0 Hp Hseq Heff.
  assert (Hnf : no_failed_task name0 w).
  { intros eff' cfg' tid' e Hrun' Hst. rewrite Hrun in Hrun'.
    injection Hrun' as <- <- <-. unfold status_of in Hst. rewrite Ht0 in Hst.
    simpl in Hst. congruence. }
  destruct (stop_effect_ok name0 seq w Hseq Hnf)
    as (w1 & Hstop & Hlm & Heffs & Hlen & Herr & Hrec).
  destruct (Hrec eff0 cfg0 tid0 Hrun) as [Htasks Hcalls0].
  assert (Hstart : EffectEngine.start_effect name0 effect_name config w
                   = (installed name0 seq eff config w1, Ok tt)).
  { rewrite start_effect_unfold, Hstop, Hlm, Hseq, Heffs, Heff. reflexivity. }
  exists (installed name0 seq eff config w1). split; [exact Hstart|].
  pose proof (lookup_lt_Some _ _ _ Ht0) as Hlt.
  destruct (start_effect_step _ _ _ _ _ _ Hstart) as [Hstep _].
  assert (Hst0 : status_of (tasks (effect_engine (installed name0 seq eff config w1)))
                   tid0 = Some Cancelled).
  { unfold status_of. simpl. rewrite lookup_app_l by lia.
    pose proof (cancel_in_status_eq tid0 _ t0 Ht0) as Hc.
    unfold status_of in Hc. rewrite Htasks, Hc, Hp. reflexivity. }
  cbv zeta. split; [|split; [|split; [|split]]].
  - simpl. rewrite lookup_insert_eq. now rewrite Hlen.
  - lia.
  - exact Hst0.
  - unfold status_of. simpl. rewrite lookup_app_r by lia.
    rewrite Hlen, Nat.sub_diag. reflexivity.
  - intros evs.
    assert (Hinv' : Inv (installed name0 seq eff config w1))
      by exact (es_inv _ _ Hstep Hinv).
    assert (Hset : settled (installed name0 seq eff config w1) tid0).
    { exists Cancelled. split; [exact Hst0 | discriminate]. }
    destruct (run_safe evs _ tid0 Hinv' Hset) as (Hinv'' & _ & new & Hnew & Hf).
    split.
    + intros tid tid' t t' H1 Hp1 H2 Hp2 Hk.
      exact (Inv_one_task_per_sequence _ _ _ _ _ Hinv'' H1 Hp1 H2 Hp2 Hk).
    + destruct (es_calls _ _ Hstep) as (new0 & Hnew0 & Hf0).
      unfold calls_since. rewrite Hnew, Hnew0, <- app_assoc, drop_app_length.
      apply Forall_app. split; [|exact Hf].
      eapply Forall_impl; [exact Hf0|]. simpl. intros c Hc.
      rewrite Hc, (proj1 Hinv). discriminate.
Qed.

(** C9 (amended): when the recorded task of a sequence is pending, a start
    with an unregistered effect kind cancels the task, deletes the record,
    sends an off command to every light of the sequence and then raises the
    effect-not-found error; when instead the sequence is no longer
    registered, the task is cancelled and the record deleted, but the
    not-found error comes from [turn_off_sequence] and no off command is
    sent. *)
Theorem start_effect_failure_stops (w : World HA) (name0 effect_name : string)
    (config : EffectConfig) eff0 cfg0 tid0 t0 :
  _running_effects (effect_engine w) !! name0 = Some (eff0, cfg0, tid0) ->
  tasks (effect_engine w) !! tid0 = Some t0 ->
  task_status t0 = Pending ->
  (forall seq,
     sequences (light_manager w) !! name0 = Some seq ->
     effects (effect_engine w) !! effect_name = None ->
     exists w',
       EffectEngine.start_effect name0 effect_name config w
       = (w', Raise (ValueError ("Effect " ++ effect_name ++ " not found"))) /\
       _running_effects (effect_engine w') !! name0 = None /\
       status_of (tasks (effect_engine w')) tid0 = Some Cancelled /\
       calls w' = (calls w ++ off_calls (current w) (light_ids seq))%list) /\
  (sequences (light_manager w) !! name0 = None ->
   exists w',
     EffectEngine.start_effect name0 effect_name config w
     = (w', Raise (ValueError ("Sequence " ++ name0 ++ " not found"))) /\
     _running_effects (effect_engine w') !! name0 = None /\
     status_of (tasks (effect_engine w')) tid0 = Some Cancelled /\
     calls w' = calls w).
Proof.
  intros Hrun Ht0 Hp.
  assert (Hlive : EffectEngine.stop_effect name0 w
                  = LightManager.turn_off_sequence name0 (stopped name0 tid0 w)).
  { apply (stop_effect_live name0 w eff0 cfg0 tid0 Hrun). intros e He.
    unfold status_of in He. rewrite Ht0 in He. simpl in He. congruence. }
  assert (Hst : status_of (cancel_in tid0 (tasks (effect_engine w))) tid0
                = Some Cancelled)
    by (rewrite (cancel_in_status_eq tid0 _ t0 Ht0), Hp; reflexivity).
  split.
  - intros seq Hseq Heff.
    destruct (turn_off_outcome name0 seq (stopped name0 tid0 w) Hseq)
      as (w2 & Hoff & Hlm & Hee & Hcur & Herr & Hcalls).
    exists w2. rewrite start_effect_unfold, Hlive, Hoff, Hlm, Hee. simpl.
    rewrite Hseq, Heff, lookup_delete_eq.
    split; [reflexivity|]. split; [reflexivity|]. split; [exact Hst | exact Hcalls].
  - intros Hseq. exists (stopped name0 tid0 w).
    rewrite start_effect_unfold, Hlive.
    unfold LightManager.turn_off_sequence. simpl. rewrite Hseq. simpl.
    rewrite lookup_delete_eq.
    split; [reflexivity|]. split; [reflexivity|]. split; [exact Hst | reflexivity].
Qed.


End claims.

Lemma start_effect_supersedes_witness :
  exists w',
    EffectEngine.start_effect "porch" "color_wipe" default_config porch_world
    = (w', Ok tt) /\
    status_of (tasks (effect_engine w')) 0 = Some Cancelled /\
    status_of (tasks (effect_engine w')) 1 = Some Pending.
Proof.
  edestruct (start_effect_supersedes porch_world "porch" "color_wipe" default_config)
    as (w' & Hstart & _ & _ & Hold & Hnew & _).
  - apply run_Inv, Inv_init.
  - vm_compute. reflexivity.
  - vm_compute. reflexivity.
  - reflexivity.
  - vm_compute. reflexivity.
  - vm_compute. reflexivity.
  - exists w'. split; [exact Hstart|]. split; [exact Hold | exact Hnew].
Defined.

(** C9 (as stated, refuted): the rainbow effect runs on the lights a and b,
    and the sequence record is then removed from the registry; the start
    that follows cancels the task and deletes the record and raises the
    not-found error, but it sends no off command to the two lights. *)
Lemma start_effect_removed_sequence_no_off :
  let w := set_light_manager (mkLightManager ∅ ∅) porch_world in
  let '(w', r) := EffectEngine.start_effect "porch" "rainbow" default_config w in
  status_of (tasks (effect_engine w)) 0 = Some Pending /\
  (light_ids ∘ task_sequence) <$> tasks (effect_engine w) !! 0%nat = Some ["a"; "b"] /\
  r = Raise (ValueError "Sequence porch not found") /\
  _running_effects (effect_engine w') !! "porch" = None /\
  status_of (tasks (effect_engine w')) 0 = Some Cancelled /\
  calls w' = [].
Proof. vm_compute. repeat split. Qed.

Lemma start_effect_failure_stops_witness :
  exists w',
    EffectEngine.start_effect "porch" "sparkle" default_config porch_world
    = (w', Raise (ValueError "Effect sparkle not found")) /\
    _running_effects (effect_engine w') !! "porch" = None /\
    status_of (tasks (effect_engine w')) 0 = Some Cancelled /\
    calls w' = off_calls None ["a"; "b"].
Proof.
  edestruct (start_effect_failure_stops porch_world "porch" "sparkle" default_config)
    as [Hkind _].
  - vm_compute. reflexivity.
  - vm_compute. reflexivity.
  - reflexivity.
  - edestruct Hkind as (w' & Hstart & Hrec & Hst & Hcalls).
    + vm_compute. reflexivity.
    + vm_compute. reflexivity.
    + exists w'. split; [exact Hstart|]. split; [exact Hrec|].
      split; [exact Hst | exact Hcalls].
Defined.



(** * Further properties of the code *)

(** ** White-channel extraction *)

Lemma Qfloor_between (x : Q) (n : Z) :
  0 <= x -> x <= inject_Z n -> (0 <= Qfloor x <= n)%Z.
Proof.
  intros H0 Hn. split.
  - change 0%Z with (Qfloor 0). now apply Qfloor_resp_le.
  - rewrite <- (Qfloor_Z n). now apply Qfloor_resp_le.
Qed.

(** X1: for non-negative channels, [rgb_to_rgbw] moves the common part of
    the three channels into the white channel and loses nothing: the white
    value is the smallest channel, adding it back to each colour channel
    gives the input, and at least one colour channel is left at zero. *)
Theorem rgb_to_rgbw_extracts_white (r g b : Z) :
  (0 <= r)%Z -> (0 <= g)%Z -> (0 <= b)%Z ->
  let '(r', g', b', w) := rgb_to_rgbw (r, g, b) in
  w = Z.min (Z.min r g) b /\
  (r' + w = r)%Z /\ (g' + w = g)%Z /\ (b' + w = b)%Z /\
  (0 <= r' <= r)%Z /\ (0 <= g' <= g)%Z /\ (0 <= b' <= b)%Z /\
  Z.min (Z.min r' g') b' = 0%Z.
Proof.
  intros Hr Hg Hb. unfold rgb_to_rgbw.
  destruct (Z.ltb_spec 0 (Z.min (Z.min r g) b)); lia.
Qed.

Lemma rgb_to_rgbw_extracts_white_witness :
  let '(r', g', b', w) := rgb_to_rgbw (200, 120, 50)%Z in
  w = Z.min (Z.min 200 120) 50 /\
  (r' + w = 200)%Z /\ (g' + w = 120)%Z /\ (b' + w = 50)%Z /\
  (0 <= r' <= 200)%Z /\ (0 <= g' <= 120)%Z /\ (0 <= b' <= 50)%Z /\
  Z.min (Z.min r' g') b' = 0%Z.
Proof. apply (rgb_to_rgbw_extracts_white 200 120 50); lia. Defined.

(** X2: [rgb_to_rgbww] leaves the colour channels that [rgb_to_rgbw]
    leaves, and splits that function's white value between the cold and
    the warm channel without loss, for every colour temperature: both
    parts are non-negative and add up to the white value; from 6500 up
    everything is cold, from 2700 down everything is warm. *)
Theorem rgb_to_rgbww_splits_white (r g b color_temp : Z) :
  (0 <= r)%Z -> (0 <= g)%Z -> (0 <= b)%Z ->
  let '(r', g', b', cw, ww) := rgb_to_rgbww (r, g, b) color_temp in
  let '(r0, g0, b0, w) := rgb_to_rgbw (r, g, b) in
  (r', g', b') = (r0, g0, b0) /\
  (cw + ww = w)%Z /\ (0 <= cw)%Z /\ (0 <= ww)%Z /\
  ((6500 <= color_temp)%Z -> cw = w /\ ww = 0%Z) /\
  ((color_temp <= 2700)%Z -> cw = 0%Z /\ ww = w).
Proof.
  intros Hr Hg Hb. unfold rgb_to_rgbww, rgb_to_rgbw.
  set (w := Z.min (Z.min r g) b).
  assert (Hw : (0 <= w)%Z) by (subst w; lia).
  assert (Hsplit :
    let '(cw, ww) :=
      if (6500 <=? color_temp)%Z then (w, 0%Z)
      else if (color_temp <=? 2700)%Z then (0%Z, w)
      else
        let ratio := inject_Z (color_temp - 2700) / inject_Z (6500 - 2700) in
        let cw := py_int (inject_Z w * ratio) in (cw, (w - cw)%Z) in
    (cw + ww = w)%Z /\ (0 <= cw)%Z /\ (0 <= ww)%Z /\
    ((6500 <= color_temp)%Z -> cw = w /\ ww = 0%Z) /\
    ((color_temp <= 2700)%Z -> cw = 0%Z /\ ww = w)).
  { destruct (Z.leb_spec 6500 color_temp) as [Hc|Hc]; [repeat split; lia|].
    destruct (Z.leb_spec color_temp 2700) as [Hd|Hd]; [repeat split; lia|].
    cbv zeta.
    set (x := inject_Z w * (inject_Z (color_temp - 2700) / inject_Z (6500 - 2700))).
    assert (Hx : 0 <= x /\ x <= inject_Z w).
    { assert (Hr0 : 0 <= inject_Z (color_temp - 2700) / inject_Z (6500 - 2700)
                    /\ inject_Z (color_temp - 2700) / inject_Z (6500 - 2700) <= 1).
      { apply Qdiv_between.
        - reflexivity.
        - change 0 with (inject_Z 0). rewrite <- Zle_Qle. lia.
        - rewrite <- Zle_Qle. lia. }
      assert (Hw' : 0 <= inject_Z w)
        by (change 0 with (inject_Z 0); rewrite <- Zle_Qle; lia).
      subst x. split; nra. }
    rewrite (py_int_nonneg x) by apply Hx.
    pose proof (Qfloor_between x w (proj1 Hx) (proj2 Hx)).
    repeat split; lia. }
  destruct (if (6500 <=? color_temp)%Z then _ else _) as [cw ww].
  destruct (0 <? w)%Z; (split; [reflexivity | exact Hsplit]).
Qed.

Lemma rgb_to_rgbww_splits_white_witness :
  let '(r', g', b', cw, ww) := rgb_to_rgbww (200, 120, 50)%Z 4600 in
  let '(r0, g0, b0, w) := rgb_to_rgbw (200, 120, 50)%Z in
  (r', g', b') = (r0, g0, b0) /\
  (cw + ww = w)%Z /\ (0 <= cw)%Z /\ (0 <= ww)%Z /\
  ((6500 <= 4600)%Z -> cw = w /\ ww = 0%Z) /\
  ((4600 <= 2700)%Z -> cw = 0%Z /\ ww = w).
Proof. apply (rgb_to_rgbww_splits_white 200 120 50 4600); lia. Defined.

(** ** Colours stay colours *)

Lemma interpolate_hue_range (h1 h2 ratio : Q) :
  0 <= h1 < 1 -> 0 <= h2 < 1 -> 0 <= ratio <= 1 ->
  0 <= _interpolate_hue h1 h2 ratio <= 1.
Proof.
  intros [H1a H1b] [H2a H2b] [Hra Hrb]. unfold _interpolate_hue.
  destruct (Qlt_bool (1 # 2) (h2 - h1)) eqn:Ehi;
    [apply Qlt_bool_iff in Ehi | apply Qlt_bool_false in Ehi].
  - assert (Hprod : (h2 - 1 - h1) * ratio <= 0) by nra.
    assert (Hprod' : h2 - 1 - h1 <= (h2 - 1 - h1) * ratio) by nra.
    repeat qcase; lra.
  - destruct (Qlt_bool (h2 - h1) (- (1 # 2))) eqn:Elo;
      [apply Qlt_bool_iff in Elo | apply Qlt_bool_false in Elo].
    + assert (Hprod : 0 <= (h2 + 1 - h1) * ratio) by nra.
      assert (Hprod' : (h2 + 1 - h1) * ratio <= h2 + 1 - h1) by nra.
      repeat qcase; lra.
    + assert (Hbetween : (0 <= h1 + (h2 - h1) * ratio) /\ h1 + (h2 - h1) * ratio < 1).
      { destruct (Qlt_le_dec h2 h1); split; nra. }
      repeat qcase; lra.
Qed.

Lemma hsv_to_rgb_range (h s v : Q) :
  0 <= h -> 0 <= s <= 1 -> 0 <= v <= 1 ->
  let '(r, g, b) := colorsys.hsv_to_rgb (h, s, v) in
  0 <= r <= 1 /\ 0 <= g <= 1 /\ 0 <= b <= 1.
Proof.
  intros Hh [Hs0 Hs1] [Hv0 Hv1]. unfold colorsys.hsv_to_rgb.
  destruct (Qeq_bool s 0); [lra|].
  set (f := h * 6 - inject_Z (py_int (h * 6))).
  assert (Hf : 0 <= f /\ f < 1).
  { subst f. rewrite py_int_nonneg by lra.
    pose proof (Qfloor_le (h * 6)). pose proof (Qlt_floor (h * 6)) as Hlt.
    rewrite inject_Z_plus in Hlt. change (inject_Z 1) with 1 in Hlt. lra. }
  destruct Hf as [Hf0 Hf1].
  assert (Hsf : 0 <= s * f /\ s * f <= 1) by (split; nra).
  assert (Hsf' : 0 <= s * (1 - f) /\ s * (1 - f) <= 1) by (split; nra).
  assert (Hp : 0 <= v * (1 - s) /\ v * (1 - s) <= 1) by (split; nra).
  assert (Hq : 0 <= v * (1 - s * f) /\ v * (1 - s * f) <= 1) by (split; nra).
  assert (Ht : 0 <= v * (1 - s * (1 - f)) /\ v * (1 - s * (1 - f)) <= 1)
    by (split; nra).
  repeat match goal with |- context [(?a =? ?b)%Z] => destruct (a =? b)%Z end;
    lra.
Qed.

Lemma rgb_to_hsv_range (c : Color) :
  valid c ->
  let '(h, s, v) := colorsys.rgb_to_hsv (rgb c) in
  0 <= h < 1 /\ 0 <= s <= 1 /\ 0 <= v <= 1.
Proof.
  intros ((Hr0 & Hr1) & (Hg0 & Hg1) & (Hb0 & Hb1)).
  pose proof (rgb_to_hsv_hue_range (rgb c)) as Hhue.
  unfold colorsys.rgb_to_hsv, rgb in *.
  destruct (Qmax3_spec (red c) (green c) (blue c)) as (HM & HM1 & HM2 & HM3).
  destruct (Qmin3_spec (red c) (green c) (blue c)) as (Hm & Hm1 & Hm2 & Hm3).
  set (maxc := Qmax (red c) (Qmax (green c) (blue c))) in *.
  set (minc := Qmin (red c) (Qmin (green c) (blue c))) in *.
  assert (HMr : 0 <= maxc /\ maxc <= 1) by (destruct HM as [->|[->| ->]]; lra).
  assert (Hmr : 0 <= minc /\ minc <= maxc) by (destruct Hm as [->|[->| ->]]; lra).
  destruct (Qeq_bool minc maxc) eqn:E.
  - lra.
  - apply Qeq_bool_false in E.
    assert (Hpos : 0 < maxc) by lra.
    split; [exact Hhue|]. split; [|lra].
    apply Qdiv_between; lra.
Qed.

Lemma interpolate_color_valid (c1 c2 : Color) (ratio : Q) :
  valid c1 -> valid c2 -> 0 <= ratio <= 1 ->
  valid (_interpolate_color c1 c2 ratio).
Proof.
  intros Hc1 Hc2 [Hr0 Hr1]. unfold _interpolate_color.
  pose proof (rgb_to_hsv_range c1 Hc1) as H1.
  pose proof (rgb_to_hsv_range c2 Hc2) as H2.
  destruct (colorsys.rgb_to_hsv (rgb c1)) as [[h1 s1] v1].
  destruct (colorsys.rgb_to_hsv (rgb c2)) as [[h2 s2] v2].
  destruct H1 as (Hh1 & Hs1 & Hv1), H2 as (Hh2 & Hs2 & Hv2).
  pose proof (interpolate_hue_range h1 h2 ratio Hh1 Hh2 (conj Hr0 Hr1)) as Hh.
  pose proof (hsv_to_rgb_range (_interpolate_hue h1 h2 ratio)
                (s1 + (s2 - s1) * ratio) (v1 + (v2 - v1) * ratio)) as Hrgb.
  destruct (colorsys.hsv_to_rgb _) as [[r g] b]. simpl.
  unfold valid. simpl. apply Hrgb.
  - apply Hh.
  - destruct (Qlt_le_dec s2 s1); split; nra.
  - destruct (Qlt_le_dec v2 v1); split; nra.
Qed.

Lemma gradient_loop_valid (position0 : Q) (cs : list ColorPoint) (c : Color) :
  Forall (fun s => valid (color s)) cs ->
  gradient_loop position0 cs = Some c -> valid c.
Proof.
  induction cs as [|c1 [|c2 rest] IH]; intros Hv Hloop; try discriminate.
  simpl in Hloop.
  pose proof (Forall_inv Hv) as Hv1.
  pose proof (Forall_inv (Forall_inv_tail Hv)) as Hv2.
  destruct (Qle_bool (position c1) position0) eqn:E1;
    [apply Qle_bool_iff in E1|]; simpl in Hloop.
  - destruct (Qle_bool position0 (position c2)) eqn:E2;
      [apply Qle_bool_iff in E2|].
    + destruct (Qeq_bool (position c2 - position c1) 0) eqn:E3.
      * injection Hloop as <-. exact Hv1.
      * apply Qeq_bool_false in E3. injection Hloop as <-.
        apply interpolate_color_valid; [exact Hv1 | exact Hv2 |].
        assert (Hpos : 0 < position c2 - position c1) by lra.
        apply Qdiv_between; lra.
    + apply IH; [exact (Forall_inv_tail Hv) | exact Hloop].
  - apply IH; [exact (Forall_inv_tail Hv) | exact Hloop].
Qed.

Lemma min_by_distance_elem (position0 : Q) (best : ColorPoint)
    (rest : list ColorPoint) :
  min_by_distance position0 best rest ∈ best :: rest.
Proof.
  revert best. induction rest as [|x rest IH]; intros best; simpl.
  - apply list_elem_of_here.
  - destruct (Qlt_bool _ _).
    + apply list_elem_of_further, IH.
    + specialize (IH best). apply elem_of_cons in IH as [->|IH].
      * apply list_elem_of_here.
      * now do 2 apply list_elem_of_further.
Qed.

Lemma palette_query_valid (self : ColorManager) (pname : string)
    (p : Palette) (position0 : Q) :
  palettes self !! pname = Some p ->
  type p = "static" \/ type p = "gradient" ->
  colors p <> [] ->
  Forall (fun s => valid (color s)) (colors p) ->
  exists c, get_color_at_position self pname position0 = Ok (Some c) /\ valid c.
Proof.
  intros Hp Hty Hne Hv. unfold get_color_at_position. rewrite Hp.
  destruct Hty as [-> | ->]; simpl.
  - destruct (colors p) as [|c cs]; [congruence|].
    eexists. split; [reflexivity|].
    pose proof (min_by_distance_elem position0 c cs) as Hin.
    rewrite Forall_forall in Hv. exact (Hv _ Hin).
  - assert (Hv' : Forall (fun s => valid (color s)) (sorted (colors p)))
      by now apply Forall_sorted.
    destruct (gradient_loop position0 (sorted (colors p))) as [c|] eqn:Eloop.
    + exists c. split; [reflexivity|]. exact (gradient_loop_valid _ _ _ Hv' Eloop).
    + assert (Hs : sorted (colors p) <> []).
      { intros Hnil. apply (f_equal length) in Hnil. rewrite length_sorted in Hnil.
        destruct (colors p); [congruence | discriminate]. }
      destruct (last_is_Some (sorted (colors p))) as [_ [cl Hl]]; [exact Hs|].
      destruct (head_is_Some (sorted (colors p))) as [_ [c0 H0]]; [exact Hs|].
      rewrite Hl, H0. eexists. split; [reflexivity|].
      rewrite Forall_forall in Hv'.
      destruct (Qlt_bool _ _).
      * apply Hv'. apply last_Some in Hl as [l' ->]. set_solver.
      * apply Hv'. apply head_Some in H0 as [l' ->]. set_solver.
Qed.

(** X3: on a palette of type static or gradient that has at least one stop
    and whose stops carry valid colours (channels in [0,1]), a query at any
    position returns a colour, and that colour is valid. *)
Theorem palette_query_returns_valid_color (self : ColorManager)
    (pname : string) (p : Palette) (position0 : Q) :
  palettes self !! pname = Some p ->
  type p = "static" \/ type p = "gradient" ->
  colors p <> [] ->
  Forall (fun s => valid (color s)) (colors p) ->
  exists c, get_color_at_position self pname position0 = Ok (Some c) /\ valid c.
Proof. exact (palette_query_valid self pname p position0). Qed.

Lemma palette_query_returns_valid_color_witness :
  exists c, get_color_at_position __init__ "rainbow" 42 = Ok (Some c) /\ valid c.
Proof.
  apply (palette_query_returns_valid_color __init__ "rainbow" rainbow 42).
  - vm_compute. reflexivity.
  - right. reflexivity.
  - discriminate.
  - repeat constructor; vm_compute; congruence.
Defined.

(** ** Palette queries: nearest stop, end stops, failures *)

Lemma min_by_distance_scan (position0 : Q) (rest : list ColorPoint) :
  forall (best : ColorPoint) (pre post : list ColorPoint),
  Forall (fun y => distance position0 best < distance position0 y) pre ->
  Forall (fun y => distance position0 best <= distance position0 y) post ->
  exists l1 l2,
    (pre ++ best :: post ++ rest
     = l1 ++ min_by_distance position0 best rest :: l2)%list /\
    Forall (fun y => distance position0 (min_by_distance position0 best rest)
                     < distance position0 y) l1 /\
    Forall (fun y => distance position0 (min_by_distance position0 best rest)
                     <= distance position0 y) l2.
Proof.
  unfold distance.
  induction rest as [|x rest IH]; intros best pre post Hpre Hpost;
    cbn [min_by_distance].
  - exists pre, post. rewrite app_nil_r. auto.
  - destruct (Qlt_bool (Qabs (position x - position0))
                (Qabs (position best - position0))) eqn:E;
      [apply Qlt_bool_iff in E | apply Qlt_bool_false in E].
    + destruct (IH x (pre ++ best :: post)%list []) as (l1 & l2 & Heq & H1 & H2).
      * apply Forall_app. split.
        -- eapply Forall_impl; [exact Hpre|]. cbv beta. intros y Hy. lra.
        -- constructor; [exact E|].
           eapply Forall_impl; [exact Hpost|]. cbv beta. intros y Hy. lra.
      * constructor.
      * exists l1, l2. rewrite <- Heq, <- app_assoc. auto.
    + destruct (IH best pre (post ++ [x])%list) as (l1 & l2 & Heq & H1 & H2).
      * exact Hpre.
      * apply Forall_app. split; [exact Hpost|]. constructor; [exact E | constructor].
      * exists l1, l2. rewrite <- Heq, <- app_assoc. auto.
Qed.

(** X4: on a static palette with at least one stop, a query returns the
    colour of the stop nearest to the queried position; among several
    nearest stops it is the first of the palette's list: every stop listed
    before the chosen one is strictly farther, every later one is at least
    as far. *)
Theorem static_query_returns_nearest (self : ColorManager) (pname : string)
    (p : Palette) (position0 : Q) :
  palettes self !! pname = Some p ->
  type p = "static" ->
  colors p <> [] ->
  exists stop l1 l2,
    get_color_at_position self pname position0 = Ok (Some (color stop)) /\
    colors p = (l1 ++ stop :: l2)%list /\
    Forall (fun y => distance position0 stop < distance position0 y) l1 /\
    Forall (fun y => distance position0 stop <= distance position0 y) l2.
Proof.
  intros Hp Hty Hne. unfold get_color_at_position. rewrite Hp, Hty. simpl.
  destruct (colors p) as [|c cs]; [congruence|].
  destruct (min_by_distance_scan position0 cs c [] [])
    as (l1 & l2 & Heq & H1 & H2); [constructor | constructor |].
  exists (min_by_distance position0 c cs), l1, l2. auto.
Qed.

Lemma static_query_returns_nearest_witness :
  exists stop l1 l2,
    get_color_at_position two_tone_manager "duo" 50 = Ok (Some (color stop)) /\
    colors two_tone = (l1 ++ stop :: l2)%list /\
    Forall (fun y => distance 50 stop < distance 50 y) l1 /\
    Forall (fun y => distance 50 stop <= distance 50 y) l2.
Proof.
  apply (static_query_returns_nearest two_tone_manager "duo" two_tone 50).
  - vm_compute. reflexivity.
  - reflexivity.
  - discriminate.
Defined.

Lemma insert_sorted_le x l :
  StronglySorted not_after l -> StronglySorted not_after (insert_sorted x l).
Proof.
  unfold not_after.
  induction l as [|y l IH]; intros Hs; simpl.
  - repeat constructor.
  - inversion Hs as [|? ? Hs' Hall]; subst.
    destruct (Qle_bool (position x) (position y)) eqn:E;
      [apply Qle_bool_iff in E | apply Qle_bool_false in E].
    + constructor; [exact Hs|]. constructor; [exact E|].
      eapply Forall_impl; [exact Hall|]. cbv beta. intros z Hz. lra.
    + constructor; [now apply IH|].
      apply Forall_insert_sorted. split; [lra | exact Hall].
Qed.

Lemma sorted_le l : StronglySorted not_after (sorted l).
Proof.
  induction l as [|x l IH]; simpl; [constructor|]. now apply insert_sorted_le.
Qed.

Lemma gradient_loop_below (position0 : Q) (cs : list ColorPoint) :
  Forall (fun s => position0 < position s) cs ->
  gradient_loop position0 cs = None.
Proof.
  induction cs as [|c1 [|c2 rest] IH]; intros Hall; try reflexivity.
  cbn [gradient_loop].
  assert (E : Qle_bool (position c1) position0 = false).
  { apply Qle_bool_false. exact (Forall_inv Hall). }
  rewrite E. simpl. apply IH. exact (Forall_inv_tail Hall).
Qed.

Lemma gradient_loop_above (position0 : Q) (cs : list ColorPoint) :
  Forall (fun s => position s < position0) cs ->
  gradient_loop position0 cs = None.
Proof.
  induction cs as [|c1 [|c2 rest] IH]; intros Hall; try reflexivity.
  cbn [gradient_loop].
  assert (E : Qle_bool position0 (position c2) = false).
  { apply Qle_bool_false. exact (Forall_inv (Forall_inv_tail Hall)). }
  rewrite E, andb_false_r. apply IH. exact (Forall_inv_tail Hall).
Qed.

(** X5: a gradient palette is flat outside its stops.  Queried below every
    stop it returns the colour of a stop at the lowest position, queried
    above every stop the colour of a stop at the highest position; nothing
    is extrapolated. *)
Theorem gradient_query_outside_range (self : ColorManager) (pname : string)
    (p : Palette) (position0 : Q) :
  palettes self !! pname = Some p ->
  type p = "gradient" ->
  colors p <> [] ->
  (Forall (fun s => position0 < position s) (colors p) ->
   exists stop,
     stop ∈ colors p /\
     get_color_at_position self pname position0 = Ok (Some (color stop)) /\
     Forall (fun s => position stop <= position s) (colors p)) /\
  (Forall (fun s => position s < position0) (colors p) ->
   exists stop,
     stop ∈ colors p /\
     get_color_at_position self pname position0 = Ok (Some (color stop)) /\
     Forall (fun s => position s <= position stop) (colors p)).
Proof.
  intros Hp Hty Hne.
  assert (Hs : sorted (colors p) <> []).
  { intros Hnil. apply (f_equal length) in Hnil. rewrite length_sorted in Hnil.
    destruct (colors p); [congruence | discriminate]. }
  destruct (last_is_Some (sorted (colors p))) as [_ [cl Hl]]; [exact Hs|].
  destruct (head_is_Some (sorted (colors p))) as [_ [c0 H0]]; [exact Hs|].
  pose proof (sorted_le (colors p)) as Hsorted.
  unfold get_color_at_position. rewrite Hp, Hty. simpl. split.
  - intros Hbelow.
    rewrite gradient_loop_below by now apply Forall_sorted.
    rewrite Hl, H0.
    assert (Hcl : cl ∈ colors p).
    { apply elem_of_sorted. apply last_Some in Hl as [l' ->]. set_solver. }
    assert (E : Qlt_bool (position cl) position0 = false).
    { apply Qlt_bool_false. rewrite Forall_forall in Hbelow.
      specialize (Hbelow _ Hcl). lra. }
    rewrite E. exists c0.
    apply head_Some in H0 as [l' Hl'].
    split; [apply elem_of_sorted; rewrite Hl'; set_solver|].
    split; [reflexivity|].
    rewrite Hl' in Hsorted. inversion Hsorted as [|? ? _ Hall]; subst.
    apply Forall_forall. intros s Hin. apply elem_of_sorted in Hin.
    rewrite Hl' in Hin. apply elem_of_cons in Hin as [->|Hin]; [lra|].
    rewrite Forall_forall in Hall. exact (Hall _ Hin).
  - intros Habove.
    rewrite gradient_loop_above by now apply Forall_sorted.
    rewrite Hl, H0.
    assert (Hcl : cl ∈ colors p).
    { apply elem_of_sorted. apply last_Some in Hl as [l' ->]. set_solver. }
    assert (E : Qlt_bool (position cl) position0 = true).
    { apply Qlt_bool_iff. rewrite Forall_forall in Habove. exact (Habove _ Hcl). }
    rewrite E. exists cl. split; [exact Hcl|]. split; [reflexivity|].
    apply last_Some in Hl as [l' Hl'].
    rewrite Hl' in Hsorted.
    apply Forall_forall. intros s Hin. apply elem_of_sorted in Hin.
    rewrite Hl' in Hin. apply elem_of_app in Hin as [Hin|Hin].
    + clear - Hsorted Hin. induction l' as [|y l' IH]; [inversion Hin|].
      simpl in Hsorted. inversion Hsorted as [|? ? Hs' Hall]; subst.
      apply elem_of_cons in Hin as [->|Hin].
      * rewrite Forall_forall in Hall. apply Hall. set_solver.
      * now apply IH.
    + apply list_elem_of_singleton in Hin as ->. lra.
Qed.

Lemma gradient_query_outside_range_witness :
  (exists stop,
     stop ∈ colors rainbow /\
     get_color_at_position __init__ "rainbow" (-5) = Ok (Some (color stop)) /\
     Forall (fun s => position stop <= position s) (colors rainbow)) /\
  (exists stop,
     stop ∈ colors rainbow /\
     get_color_at_position __init__ "rainbow" 120 = Ok (Some (color stop)) /\
     Forall (fun s => position s <= position stop) (colors rainbow)).
Proof.
  split.
  - apply (gradient_query_outside_range __init__ "rainbow" rainbow (-5)).
    + vm_compute. reflexivity.
    + reflexivity.
    + discriminate.
    + repeat constructor.
  - apply (gradient_query_outside_range __init__ "rainbow" rainbow 120).
    + vm_compute. reflexivity.
    + reflexivity.
    + discriminate.
    + repeat constructor.
Defined.

(** X6: the outcomes of a palette query, for every manager, name and
    position.  It raises in exactly two situations: the name is not
    registered (ValueError), or the palette is static or gradient and has no
    stop (ValueError from [min], IndexError from the gradient branch).  It
    returns [None] exactly for a registered palette of any other type, and a
    colour exactly for a static or gradient palette with at least one
    stop. *)
Theorem palette_query_outcomes (self : ColorManager) (pname : string)
    (position0 : Q) :
  match get_color_at_position self pname position0 with
  | Raise e =>
      (palettes self !! pname = None /\
       e = ValueError ("Palette " ++ pname ++ " not found")) \/
      (exists p, palettes self !! pname = Some p /\ colors p = [] /\
         ((type p = "static" /\ e = ValueError "min() arg is an empty sequence") \/
          (type p = "gradient" /\ e = IndexError)))
  | Ok None =>
      exists p, palettes self !! pname = Some p /\
                type p <> "static" /\ type p <> "gradient"
  | Ok (Some c) =>
      exists p, palettes self !! pname = Some p /\ colors p <> [] /\
                (type p = "static" \/ type p = "gradient")
  end.
Proof.
  destruct (palettes self !! pname) as [p|] eqn:Hp.
  - destruct (String.eqb_spec (type p) "static") as [Hs|Hs].
    + destruct (colors p) as [|c cs] eqn:Hc.
      * unfold get_color_at_position. rewrite Hp, Hs, Hc. simpl.
        right. exists p. rewrite Hc. auto.
      * destruct (get_color_total self pname p position0 Hp (or_introl Hs))
          as [c' ->]; [congruence|].
        exists p. rewrite Hc. auto.
    + destruct (String.eqb_spec (type p) "gradient") as [Hg|Hg].
      * destruct (colors p) as [|c cs] eqn:Hc.
        -- unfold get_color_at_position. rewrite Hp, Hg, Hc. simpl.
           right. exists p. rewrite Hc. auto.
        -- destruct (get_color_total self pname p position0 Hp (or_intror Hg))
             as [c' ->]; [congruence|].
           exists p. rewrite Hc. auto.
      * rewrite (other_type_returns_None self pname p position0 Hp Hs Hg).
        exists p. auto.
  - unfold get_color_at_position. rewrite Hp. left. auto.
Qed.

(** ** Frames carry one well-formed update per light *)

Lemma scale_intensity_triple (intensity0 : Z) (c : Color) :
  valid c -> (0 <= intensity0 <= 100)%Z ->
  rgb_triple (spec.scale_intensity intensity0 c).
Proof.
  intros (Hr & Hg & Hb) [Hi0 Hi1]. unfold rgb_triple, spec.scale_intensity.
  split; [reflexivity|].
  assert (Hk : 0 <= inject_Z intensity0 / 100 /\ inject_Z intensity0 / 100 <= 1).
  { apply Qdiv_between.
    - reflexivity.
    - change 0 with (inject_Z 0). rewrite <- Zle_Qle. lia.
    - change 100 with (inject_Z 100). rewrite <- Zle_Qle. lia. }
  assert (Hch : forall x, 0 <= x /\ x <= 1 ->
            (0 <= py_int (x * 255 * (inject_Z intensity0 / 100)) <= 255)%Z).
  { intros x [Hx0 Hx1].
    set (k := inject_Z intensity0 / 100) in *.
    assert (Hy : 0 <= x * 255 * k /\ x * 255 * k <= inject_Z 255).
    { change (inject_Z 255) with 255. split; nra. }
    rewrite py_int_nonneg by apply Hy.
    apply Qfloor_between; apply Hy. }
  simpl. repeat constructor; apply Hch; assumption.
Qed.

Lemma enumerate_keys {A} (l : list A) : (enumerate l).*2 = l.
Proof.
  unfold enumerate. generalize 0%nat.
  induction l as [|x l IH]; intros n; simpl; [reflexivity | now rewrite IH].
Qed.

Lemma rainbow_step_keys (self : Effect) (now : Q) (sequence : LightSequence)
    (config : EffectConfig) (j : nat) (id key : string) (u : gmap string Params) :
  (is_Some (rainbow_step self now sequence config (j, id) u !! key) ->
   is_Some (u !! key) \/ key = id \/ key ∈ light_ids sequence) /\
  (is_Some (u !! key) \/ key = id ->
   is_Some (rainbow_step self now sequence config (j, id) u !! key)).
Proof.
  unfold rainbow_step. cbn [fst snd].
  destruct (mirror config && _).
  - destruct (light_ids sequence !! _) as [m|] eqn:Em.
    + apply list_elem_of_lookup_2 in Em.
      rewrite !lookup_insert_is_Some. split.
      * intros [<-|[_ [<-|[_ H]]]]; auto.
      * destruct (decide (m = key)); destruct (decide (id = key)); intuition.
    + rewrite lookup_insert_is_Some. split.
      * intros [<-|[_ H]]; auto.
      * destruct (decide (id = key)); intuition.
  - rewrite lookup_insert_is_Some. split.
    + intros [<-|[_ H]]; auto.
    + destruct (decide (id = key)); intuition.
Qed.

Lemma rainbow_fold_keys (self : Effect) (now : Q) (sequence : LightSequence)
    (config : EffectConfig) (items : list (nat * string)) (key : string)
    (u : gmap string Params) :
  let frame := foldl (fun u item => rainbow_step self now sequence config item u)
                 u items in
  (is_Some (frame !! key) ->
   is_Some (u !! key) \/ key ∈ items.*2 \/ key ∈ light_ids sequence) /\
  (is_Some (u !! key) \/ key ∈ items.*2 -> is_Some (frame !! key)).
Proof.
  cbv zeta. revert u. induction items as [|[j id] items IH]; intros u; cbn [foldl].
  - simpl. split; [auto|]. intros [H|H]; [exact H | inversion H].
  - destruct (IH (rainbow_step self now sequence config (j, id) u)) as [IH1 IH2].
    destruct (rainbow_step_keys self now sequence config j id key u) as [Hs1 Hs2].
    cbn [fmap list_fmap snd]. rewrite elem_of_cons. split.
    + intros H. destruct (IH1 H) as [H'|[H'|H']]; [|auto|auto].
      destruct (Hs1 H') as [H''|[H''|H'']]; auto.
    + intros [H|[H|H]]; apply IH2; auto.
Qed.

Lemma rainbow_fold_Forall (self : Effect) (now : Q) (sequence : LightSequence)
    (config : EffectConfig) (P : Params -> Prop) (items : list (nat * string))
    (u : gmap string Params) :
  (forall i, P (rainbow_rgb self now sequence config i)) ->
  map_Forall (fun _ rgb => P rgb) u ->
  map_Forall (fun _ rgb => P rgb)
    (foldl (fun u item => rainbow_step self now sequence config item u) u items).
Proof.
  intros HP. revert u. induction items as [|[j id] items IH]; intros u Hu;
    cbn [foldl]; [exact Hu|].
  apply IH. unfold rainbow_step. cbn [fst snd].
  destruct (mirror config && _).
  - destruct (light_ids sequence !! _) as [m|].
    + repeat apply map_Forall_insert_2; auto.
    + apply map_Forall_insert_2; auto.
  - apply map_Forall_insert_2; auto.
Qed.

(** X7: whatever the clock, the speed and the reverse and mirror switches,
    and even when a light is listed twice, a rainbow frame holds one update
    for each light of the sequence and for no other entity, and each update
    is a triple of channel values between 0 and 255, provided the intensity
    lies between 0 and 100 and the rainbow palette yields valid colours. *)
Theorem rainbow_frame_well_formed (self : Effect) (now : Q)
    (sequence : LightSequence) (config : EffectConfig) (p : Palette) :
  palettes (color_manager self) !! "rainbow" = Some p ->
  type p = "static" \/ type p = "gradient" ->
  colors p <> [] ->
  Forall (fun s => valid (color s)) (colors p) ->
  (0 <= intensity config <= 100)%Z ->
  exists updates,
    RainbowEffect.generate_frame self now sequence config = Ok updates /\
    dom updates = list_to_set (light_ids sequence) /\
    forall id rgb, updates !! id = Some rgb -> rgb_triple rgb.
Proof.
  intros Hp Hty Hne Hv Hint.
  assert (Hdef : forall pos, exists c,
             get_color_at_position (color_manager self) "rainbow" pos = Ok (Some c))
    by (intros pos; exact (get_color_total _ _ p pos Hp Hty Hne)).
  eexists. split; [apply (rainbow_frame_fold self now sequence config Hdef)|].
  split.
  - apply set_eq. intros key. rewrite elem_of_dom, elem_of_list_to_set.
    destruct (rainbow_fold_keys self now sequence config
                (enumerate (light_ids sequence)) key ∅) as [H1 H2].
    rewrite enumerate_keys in H1, H2. rewrite lookup_empty in H1, H2. split.
    + intros H. destruct (H1 H) as [[? H']|[H'|H']]; [discriminate | auto | auto].
    + auto.
  - intros id rgb Hlook.
    refine (rainbow_fold_Forall self now sequence config rgb_triple _ ∅ _ _ id rgb Hlook).
    + intros i. unfold rainbow_rgb.
      destruct (palette_query_valid (color_manager self) "rainbow" p
                  (spec.rainbow_position (length (light_ids sequence)) i
                     (speed config) (now - _start_time self) (reverse config))
                  Hp Hty Hne Hv) as (c & -> & Hc).
      now apply scale_intensity_triple.
    + apply map_Forall_empty.
Qed.

Lemma rainbow_frame_well_formed_witness :
  exists updates,
    RainbowEffect.generate_frame effect0 (7 # 3) four_lights
      (mkEffectConfig 80 60 "rainbow" true true) = Ok updates /\
    dom updates = list_to_set (light_ids four_lights) /\
    forall id rgb, updates !! id = Some rgb -> rgb_triple rgb.
Proof.
  apply (rainbow_frame_well_formed effect0 (7 # 3) four_lights
           (mkEffectConfig 80 60 "rainbow" true true) rainbow).
  - vm_compute. reflexivity.
  - right. reflexivity.
  - discriminate.
  - repeat constructor; vm_compute; congruence.
  - simpl. lia.
Defined.

Lemma insert_fold_lookup {V} (g : nat -> V) (items : list (nat * string))
    (key : string) (u : gmap string V) :
  key ∉ items.*2 ->
  foldl (fun u item => <[item.2 := g item.1]> u) u items !! key = u !! key.
Proof.
  revert u. induction items as [|[j id] items IH]; intros u Hnot; cbn [foldl];
    [reflexivity|].
  cbn [fmap list_fmap snd] in Hnot. rewrite not_elem_of_cons in Hnot.
  rewrite IH by apply Hnot. cbn [fst snd]. apply lookup_insert_ne.
  intros ->. now apply Hnot.
Qed.

Lemma insert_fold_keys {V} (g : nat -> V) (items : list (nat * string))
    (key : string) (u : gmap string V) :
  is_Some (foldl (fun u item => <[item.2 := g item.1]> u) u items !! key) <->
  is_Some (u !! key) \/ key ∈ items.*2.
Proof.
  revert u. induction items as [|[j id] items IH]; intros u; cbn [foldl].
  - simpl. split; [auto|]. intros [H|H]; [exact H | inversion H].
  - rewrite IH. cbn [fmap list_fmap fst snd].
    rewrite lookup_insert_is_Some, elem_of_cons. split.
    + intros [[<-|[_ H]]|H]; auto.
    + destruct (decide (id = key)); intuition.
Qed.

Lemma insert_fold_Forall {V} (P : V -> Prop) (g : nat -> V)
    (items : list (nat * string)) (u : gmap string V) :
  (forall i, P (g i)) ->
  map_Forall (fun _ v => P v) u ->
  map_Forall (fun _ v => P v)
    (foldl (fun u item => <[item.2 := g item.1]> u) u items).
Proof.
  intros HP. revert u. induction items as [|[j id] items IH]; intros u Hu;
    cbn [foldl]; [exact Hu|].
  apply IH. apply map_Forall_insert_2; auto.
Qed.

(** X8: whatever the clock, the speed and the reverse switch, and even when
    a light is listed twice, a colour-wipe frame over a palette that yields
    valid colours holds one update for each light of the sequence and for no
    other entity, and each update is a triple of channel values between 0
    and 255, provided the intensity lies between 0 and 100. *)
Theorem color_wipe_frame_well_formed (self : Effect) (now : Q)
    (sequence : LightSequence) (config : EffectConfig) (p : Palette) :
  palettes (color_manager self) !! palette_name config = Some p ->
  type p = "static" \/ type p = "gradient" ->
  colors p <> [] ->
  Forall (fun s => valid (color s)) (colors p) ->
  (0 <= intensity config <= 100)%Z ->
  exists updates,
    ColorWipeEffect.generate_frame self now sequence config = Ok updates /\
    dom updates = list_to_set (light_ids sequence) /\
    forall id rgb, updates !! id = Some rgb -> rgb_triple rgb.
Proof.
  intros Hp Hty Hne Hv Hint.
  assert (Hdef : forall pos, exists c,
             get_color_at_position (color_manager self) (palette_name config) pos
             = Ok (Some c))
    by (intros pos; exact (get_color_total _ _ p pos Hp Hty Hne)).
  unfold ColorWipeEffect.generate_frame. rewrite Hp, active_lights_spec.
  rewrite (for_each_ok _ _
             (fun item u => <[item.2 := wipe_rgb self now sequence config item.1]> u))
    by (intros; apply (wipe_body_ok self now sequence config Hdef)).
  eexists. split; [reflexivity|]. split.
  - apply set_eq. intros key.
    rewrite elem_of_dom, elem_of_list_to_set, insert_fold_keys, enumerate_keys.
    rewrite lookup_empty. split; [|auto].
    intros [[? H]|H]; [discriminate | exact H].
  - intros id rgb Hlook.
    refine (insert_fold_Forall rgb_triple _ _ ∅ _ _ id rgb Hlook);
      [|apply map_Forall_empty].
    intros k. unfold wipe_rgb. cbv zeta.
    destruct (Z.of_nat _ <? _)%Z.
    + destruct (palette_query_valid (color_manager self) (palette_name config) p
                  (of_nat (wipe_index sequence config k)
                   / of_nat (length (light_ids sequence)) * 100)
                  Hp Hty Hne Hv) as (c & -> & Hc).
      now apply scale_intensity_triple.
    + split; [reflexivity|]. repeat constructor; lia.
Qed.

Lemma color_wipe_frame_well_formed_witness :
  exists updates,
    ColorWipeEffect.generate_frame effect0 (7 # 3) five_lights
      (mkEffectConfig 80 60 "rainbow" true false) = Ok updates /\
    dom updates = list_to_set (light_ids five_lights) /\
    forall id rgb, updates !! id = Some rgb -> rgb_triple rgb.
Proof.
  apply (color_wipe_frame_well_formed effect0 (7 # 3) five_lights
           (mkEffectConfig 80 60 "rainbow" true false) rainbow).
  - vm_compute. reflexivity.
  - right. reflexivity.
  - discriminate.
  - repeat constructor; vm_compute; congruence.
  - simpl. lia.
Defined.

(** ** The colour wipe over a palette that yields no colour *)





(** ** TwinkleEffect *)

Lemma channels_triple (k : Q) (c : Color) :
  valid c -> 0 <= k <= 1 ->
  rgb_triple (map (fun ch => py_int (ch * k))
                [red c * 255; green c * 255; blue c * 255]).
Proof.
  intros (Hr & Hg & Hb) [Hk0 Hk1]. split; [reflexivity|].
  assert (Hch : forall x, 0 <= x /\ x <= 1 -> (0 <= py_int (x * 255 * k) <= 255)%Z).
  { intros x [Hx0 Hx1].
    assert (Hy : 0 <= x * 255 * k /\ x * 255 * k <= inject_Z 255).
    { change (inject_Z 255) with 255. split; nra. }
    rewrite py_int_nonneg by apply Hy.
    apply Qfloor_between; apply Hy. }
  simpl. repeat constructor; apply Hch; assumption.
Qed.

Section twinkle.

Variables (self : Effect) (rnd : nat -> Q) (config : EffectConfig) (p : Palette).

Hypothesis palette_registered :
  palettes (color_manager self) !! palette_name config = Some p.
Hypothesis palette_kind : type p = "static" \/ type p = "gradient".
Hypothesis palette_stops : colors p <> [].
Hypothesis palette_valid : Forall (fun s => valid (color s)) (colors p).
Hypothesis intensity_range : (0 <= intensity config <= 100)%Z.
Hypothesis speed_range : (0 <= speed config)%Z.

Local Abbreviation speed_factor := (inject_Z (speed config) / 50).

Lemma twinkle_body_spec (light_id : string) (st : TwinkleEffect.state)
    (updates : gmap string Params) :
  unit_states st ->
  is_Some (TwinkleEffect._twinkle_states st !! light_id) ->
  exists st' rgb s',
    TwinkleEffect.body self rnd config speed_factor light_id st updates
    = (st', Ok (<[light_id := rgb]> updates)) /\
    rgb_triple rgb /\
    TwinkleEffect._twinkle_states st'
    = <[light_id := s']> (TwinkleEffect._twinkle_states st) /\
    (0 <= s' /\ s' <= 1) /\
    (s' == 0 -> rgb = [0; 0; 0]%Z).
Proof.
  intros Hunit [s Hs]. pose proof (Hunit _ _ Hs) as [Hs0 Hs1]. cbv beta in Hs0, Hs1.
  assert (Hsf : 0 <= speed_factor).
  { assert (0 <= inject_Z (speed config))
      by (change 0 with (inject_Z 0); rewrite <- Zle_Qle; lia).
    apply Qle_shift_div_l; lra. }
  assert (Hblack : rgb_triple [0; 0; 0]%Z)
    by (split; [reflexivity | repeat constructor; lia]).
  unfold TwinkleEffect.body. rewrite Hs.
  destruct (Qeq_bool s 0) eqn:Ez;
    [apply Qeq_bool_iff in Ez | apply Qeq_bool_false in Ez].
  - unfold TwinkleEffect.random, TwinkleEffect.uniform. cbn [fst snd].
    destruct (Qlt_bool (rnd (TwinkleEffect.drawn st)) ((1 # 10) * speed_factor)).
    + cbn [TwinkleEffect.random TwinkleEffect.set_twinkle
           TwinkleEffect._twinkle_states TwinkleEffect.drawn].
      destruct (palette_query_valid (color_manager self) (palette_name config) p
                  (0 + (100 - 0) * rnd (S (TwinkleEffect.drawn st)))
                  palette_registered palette_kind palette_stops palette_valid)
        as (c & Hc & Hvalid).
      rewrite Hc. cbn [bind]. rewrite apply_intensity_scale. cbn [bind].
      eexists _, _, 1. split; [reflexivity|].
      split; [now apply scale_intensity_triple|].
      split; [reflexivity|]. split; [lra|]. intros H. lra.
    + eexists _, [0; 0; 0]%Z, s. split; [reflexivity|].
      split; [exact Hblack|]. split; [cbn; now rewrite insert_id|].
      split; [lra | reflexivity].
  - set (s1 := s - (1 # 10) * speed_factor).
    destruct (Qle_bool s1 0) eqn:Ef;
      [apply Qle_bool_iff in Ef | apply Qle_bool_false in Ef].
    + eexists _, [0; 0; 0]%Z, 0. split; [reflexivity|].
      split; [exact Hblack|].
      split; [cbn; now rewrite insert_insert_eq|].
      split; [lra | reflexivity].
    + unfold TwinkleEffect.uniform, TwinkleEffect.random.
      cbn [TwinkleEffect.set_twinkle TwinkleEffect._twinkle_states
           TwinkleEffect.drawn].
      destruct (palette_query_valid (color_manager self) (palette_name config) p
                  (0 + (100 - 0) * rnd (TwinkleEffect.drawn st))
                  palette_registered palette_kind palette_stops palette_valid)
        as (c & Hc & Hvalid).
      rewrite Hc. cbn [bind TwinkleEffect.scale].
      eexists _, _, s1. split; [reflexivity|].
      assert (Hs1r : 0 <= s1 /\ s1 <= 1) by (subst s1; split; lra).
      split.
      * apply channels_triple; [exact Hvalid|].
        assert (Hi : 0 <= inject_Z (intensity config) / 100
                     /\ inject_Z (intensity config) / 100 <= 1).
        { apply Qdiv_between.
          - reflexivity.
          - change 0 with (inject_Z 0). rewrite <- Zle_Qle. lia.
          - change 100 with (inject_Z 100). rewrite <- Zle_Qle. lia. }
        set (k := inject_Z (intensity config) / 100) in *.
        assert (Heq : s1 * inject_Z (intensity config) / 100 == s1 * k)
          by (subst k; field).
        rewrite Heq. split; nra.
      * split; [reflexivity|]. split; [exact Hs1r|]. intros H. lra.
Qed.

Lemma twinkle_loop_spec (ids : list string) :
  forall (st : TwinkleEffect.state) (updates : gmap string Params),
  unit_states st ->
  (forall id, id ∈ ids -> is_Some (TwinkleEffect._twinkle_states st !! id)) ->
  map_Forall (fun _ rgb => rgb_triple rgb) updates ->
  (forall id s, is_Some (updates !! id) ->
     TwinkleEffect._twinkle_states st !! id = Some s -> s == 0 ->
     updates !! id = Some [0; 0; 0]%Z) ->
  exists st' updates',
    TwinkleEffect.update_states self rnd config speed_factor ids st updates
    = (st', Ok updates') /\
    unit_states st' /\
    (forall id, is_Some (TwinkleEffect._twinkle_states st !! id) ->
                is_Some (TwinkleEffect._twinkle_states st' !! id)) /\
    (forall id, id ∉ ids ->
       TwinkleEffect._twinkle_states st' !! id
       = TwinkleEffect._twinkle_states st !! id) /\
    map_Forall (fun _ rgb => rgb_triple rgb) updates' /\
    (forall key, is_Some (updates' !! key) <-> is_Some (updates !! key) \/ key ∈ ids) /\
    (forall id s, is_Some (updates' !! id) ->
       TwinkleEffect._twinkle_states st' !! id = Some s -> s == 0 ->
       updates' !! id = Some [0; 0; 0]%Z).
Proof.
  induction ids as [|light_id rest IH]; intros st updates Hunit Hdom Hrgb Hdark;
    cbn [TwinkleEffect.update_states].
  - exists st, updates. split; [reflexivity|]. split; [exact Hunit|].
    split; [auto|]. split; [auto|]. split; [exact Hrgb|]. split; [|exact Hdark].
    intros key. split; [auto|]. intros [H|H]; [exact H | inversion H].
  - destruct (twinkle_body_spec light_id st updates Hunit
                (Hdom _ (list_elem_of_here _ _)))
      as (st1 & rgb & s' & -> & Htriple & Hst1 & Hs' & Hblack).
    destruct (IH st1 (<[light_id := rgb]> updates))
      as (st' & updates' & Hrun & Hunit' & Hkeep & Hframe & Hrgb' & Hkeys & Hdark').
    + unfold unit_states. rewrite Hst1. apply map_Forall_insert_2; [exact Hs' | exact Hunit].
    + intros id Hin. rewrite Hst1. apply lookup_insert_is_Some'.
      right. apply Hdom. now apply list_elem_of_further.
    + apply map_Forall_insert_2; [exact Htriple | exact Hrgb].
    + intros id s. rewrite Hst1. destruct (decide (light_id = id)) as [-> | Hne].
      * rewrite !lookup_insert_eq. intros _ [= <-] Hz. now rewrite Hblack.
      * rewrite !lookup_insert_ne by exact Hne. apply Hdark.
    + exists st', updates'. split; [exact Hrun|]. split; [exact Hunit'|].
      split; [|split; [|split; [exact Hrgb'|split; [|exact Hdark']]]].
      * intros id Hid. apply Hkeep. rewrite Hst1. apply lookup_insert_is_Some'. auto.
      * intros id Hnot. rewrite not_elem_of_cons in Hnot. destruct Hnot as [Hne Hnot].
        rewrite (Hframe id Hnot), Hst1. now apply lookup_insert_ne.
      * intros key. rewrite Hkeys, lookup_insert_is_Some, elem_of_cons.
        destruct (decide (light_id = key)); intuition.
Qed.

End twinkle.

Lemma init_states_spec (ids : list string) :
  forall st : TwinkleEffect.state,
  unit_states st ->
  unit_states (TwinkleEffect.init_states ids st) /\
  TwinkleEffect.drawn (TwinkleEffect.init_states ids st) = TwinkleEffect.drawn st /\
  (forall id s, TwinkleEffect._twinkle_states st !! id = Some s ->
     TwinkleEffect._twinkle_states (TwinkleEffect.init_states ids st) !! id = Some s) /\
  (forall id, id ∈ ids ->
     is_Some (TwinkleEffect._twinkle_states (TwinkleEffect.init_states ids st) !! id)).
Proof.
  unfold TwinkleEffect.init_states.
  induction ids as [|x ids IH]; intros st Hunit; cbn [foldl].
  - split; [exact Hunit|]. split; [reflexivity|]. split; [auto|].
    intros id H. inversion H.
  - set (st1 := match TwinkleEffect._twinkle_states st !! x with
                | Some _ => st
                | None => TwinkleEffect.set_twinkle x 0 st
                end).
    assert (H1 : unit_states st1 /\
                 TwinkleEffect.drawn st1 = TwinkleEffect.drawn st /\
                 (forall id s, TwinkleEffect._twinkle_states st !! id = Some s ->
                               TwinkleEffect._twinkle_states st1 !! id = Some s) /\
                 is_Some (TwinkleEffect._twinkle_states st1 !! x)).
    { subst st1. destruct (TwinkleEffect._twinkle_states st !! x) as [s|] eqn:Ex.
      - split; [exact Hunit|]. split; [reflexivity|]. split; [auto|].
        rewrite Ex. eauto.
      - split; [|split; [reflexivity|split]].
        + apply map_Forall_insert_2; [split; lra | exact Hunit].
        + intros id s Hid. cbn. rewrite lookup_insert_ne; [exact Hid|].
          intros ->. congruence.
        + cbn. rewrite lookup_insert_eq. eauto. }
    destruct H1 as (Hu1 & Hd1 & Hk1 & Hx1).
    destruct (IH st1 Hu1) as (Hu & Hd & Hk & Hin).
    split; [exact Hu|]. split; [congruence|]. split; [auto|].
    intros id Hid. apply elem_of_cons in Hid as [-> | Hid]; [|auto].
    destruct Hx1 as [s Hsx]. rewrite (Hk _ _ Hsx). eauto.
Qed.

(** X10: a twinkle frame, whatever the random draws.  With a speed of at
    least 0, an intensity between 0 and 100, a palette that yields valid
    colours and twinkle states between 0 and 1 (a fresh effect has none),
    [generate_frame] returns a frame with one update for each light of the
    sequence and for no other entity, each a triple of channel values
    between 0 and 255.  Afterwards every twinkle state still lies between 0
    and 1, every light of the sequence has one, lights outside the sequence
    keep theirs, and a light of the sequence whose state is 0 is off in the
    frame. *)
Theorem twinkle_frame_well_formed (self : Effect) (rnd : nat -> Q)
    (st : TwinkleEffect.state) (sequence : LightSequence)
    (config : EffectConfig) (p : Palette) :
  palettes (color_manager self) !! palette_name config = Some p ->
  type p = "static" \/ type p = "gradient" ->
  colors p <> [] ->
  Forall (fun s => valid (color s)) (colors p) ->
  (0 <= intensity config <= 100)%Z ->
  (0 <= speed config)%Z ->
  unit_states st ->
  exists st' updates,
    TwinkleEffect.generate_frame self rnd st sequence config = (st', Ok updates) /\
    dom updates = list_to_set (light_ids sequence) /\
    (forall id rgb, updates !! id = Some rgb -> rgb_triple rgb) /\
    unit_states st' /\
    (forall id, id ∈ light_ids sequence ->
       exists s, TwinkleEffect._twinkle_states st' !! id = Some s /\
                 (s == 0 -> updates !! id = Some [0; 0; 0]%Z)) /\
    (forall id, id ∉ light_ids sequence ->
       TwinkleEffect._twinkle_states st' !! id
       = TwinkleEffect._twinkle_states st !! id).
Proof.
  intros Hp Hty Hne Hv Hint Hspeed Hunit.
  unfold TwinkleEffect.generate_frame. cbv zeta.
  destruct (init_states_spec (light_ids sequence) st Hunit)
    as (Hu0 & _ & Hkeep0 & Hin0).
  destruct (twinkle_loop_spec self rnd config p Hp Hty Hne Hv Hint Hspeed
              (light_ids sequence)
              (TwinkleEffect.init_states (light_ids sequence) st) ∅ Hu0 Hin0)
    as (st' & updates & Hrun & Hunit' & Hkeep & Hframe & Hrgb & Hkeys & Hdark).
  - apply map_Forall_empty.
  - intros id s [? H]. rewrite lookup_empty in H. discriminate.
  - exists st', updates. split; [exact Hrun|].
    split; [|split; [exact Hrgb|split; [exact Hunit'|split]]].
    + apply set_eq. intros key.
      rewrite elem_of_dom, elem_of_list_to_set, Hkeys, lookup_empty.
      split; [|auto]. intros [[? H]|H]; [discriminate | exact H].
    + intros id Hid.
      destruct (Hkeep id (Hin0 id Hid)) as [s Hs]. exists s. split; [exact Hs|].
      apply Hdark; [|exact Hs]. apply Hkeys. auto.
    + intros id Hnot. rewrite (Hframe id Hnot).
      destruct (TwinkleEffect._twinkle_states st !! id) as [s|] eqn:Es.
      * exact (Hkeep0 _ _ Es).
      * (* the first loop adds states for the lights of the sequence only *)
        clear - Hnot Es. unfold TwinkleEffect.init_states.
        revert st Es. induction (light_ids sequence) as [|x ids IH]; intros st Es;
          cbn [foldl]; [exact Es|].
        rewrite not_elem_of_cons in Hnot. destruct Hnot as [Hne Hnot].
        apply IH; [exact Hnot|].
        destruct (TwinkleEffect._twinkle_states st !! x); [exact Es|].
        cbn. rewrite lookup_insert_ne by auto. exact Es.
Qed.

Lemma twinkle_frame_well_formed_witness :
  exists st' updates,
    TwinkleEffect.generate_frame effect0 sample_rnd TwinkleEffect.__init__
      four_lights default_config = (st', Ok updates) /\
    dom updates = list_to_set (light_ids four_lights) /\
    (forall id rgb, updates !! id = Some rgb -> rgb_triple rgb) /\
    unit_states st' /\
    (forall id, id ∈ light_ids four_lights ->
       exists s, TwinkleEffect._twinkle_states st' !! id = Some s /\
                 (s == 0 -> updates !! id = Some [0; 0; 0]%Z)) /\
    (forall id, id ∉ light_ids four_lights ->
       TwinkleEffect._twinkle_states st' !! id
       = TwinkleEffect._twinkle_states TwinkleEffect.__init__ !! id).
Proof.
  apply (twinkle_frame_well_formed effect0 sample_rnd TwinkleEffect.__init__
           four_lights default_config rainbow).
  - vm_compute. reflexivity.
  - right. reflexivity.
  - discriminate.
  - repeat constructor; vm_compute; congruence.
  - simpl. lia.
  - simpl. lia.
  - apply map_Forall_empty.
Defined.

(** Two twinkle frames on four lights at the default configuration: the
    first and the third light start a twinkle in the first frame; in the
    second frame, where every draw is 0.01, they fade to 0.9 and the other
    two start. *)
Example twinkle_two_frames :
  let '(st1, r1) :=
    TwinkleEffect.generate_frame effect0 sample_rnd TwinkleEffect.__init__
      four_lights default_config in
  let '(st2, r2) :=
    TwinkleEffect.generate_frame effect0 (fun _ => 1 # 100) st1
      four_lights default_config in
  let ids := ["a"; "b"; "c"; "d"] in
  (exists u1, r1 = Ok u1 /\
     (fun id => u1 !! id) <$> ids
     = [Some [90; 188; 0]; Some [0; 0; 0]; Some [63; 0; 177]; Some [0; 0; 0]]%Z) /\
  (fun id => TwinkleEffect._twinkle_states st1 !! id) <$> ids
  = [Some 1; Some 0; Some 1; Some 0] /\
  TwinkleEffect.drawn st1 = 6%nat /\
  (exists u2, r2 = Ok u2 /\
     (fun id => u2 !! id) <$> ids
     = [Some [229; 8; 0]; Some [255; 9; 0]; Some [229; 8; 0]; Some [255; 9; 0]]%Z) /\
  Forall2 (fun x y => option_Forall2 Qeq x y)
    ((fun id => TwinkleEffect._twinkle_states st2 !! id) <$> ids)
    [Some (9 # 10); Some 1; Some (9 # 10); Some 1].
Proof.
  vm_compute. split; [eexists; split; reflexivity|].
  split; [reflexivity|]. split; [reflexivity|].
  split; [eexists; split; reflexivity|].
  repeat constructor.
Qed.

(** ** The light manager *)

Section preserves.
Context {HA : Type} (R : World HA -> World HA -> Prop).
Hypothesis R_refl : forall w, R w w.
Hypothesis R_trans : forall w1 w2 w3, R w1 w2 -> R w2 w3 -> R w1 w3.

Lemma preserves_ret {A} (a : A) : preserves R (ret a).
Proof. intros w w' r [= <- <-]. apply R_refl. Qed.

Lemma preserves_raise {A} (e : exn) : preserves R (raise (A := A) e).
Proof. intros w w' r [= <- <-]. apply R_refl. Qed.

Lemma preserves_bind {A B} (m : prog A) (k : A -> prog B) :
  preserves R m -> (forall a, preserves R (k a)) -> preserves R (bindP m k).
Proof.
  intros Hm Hk w w' r. unfold bindP.
  destruct (m w) as [w1 [a|e]] eqn:Em; intros Hr.
  - exact (R_trans _ _ _ (Hm _ _ _ Em) (Hk a _ _ _ Hr)).
  - injection Hr as <- <-. exact (Hm _ _ _ Em).
Qed.

Lemma preserves_try {A} (m : prog A) (h : exn -> prog A) :
  preserves R m -> (forall e, preserves R (h e)) -> preserves R (try_except m h).
Proof.
  intros Hm Hh w w' r. unfold try_except.
  destruct (m w) as [w1 [a|e]] eqn:Em; intros Hr.
  - injection Hr as <- <-. exact (Hm _ _ _ Em).
  - exact (R_trans _ _ _ (Hm _ _ _ Em) (Hh e _ _ _ Hr)).
Qed.

Lemma preserves_for_in {A} (items : list A) (body : A -> prog unit) :
  (forall x, x ∈ items -> preserves R (body x)) -> preserves R (for_in items body).
Proof.
  induction items as [|x items IH]; intros Hbody; cbn [for_in].
  - apply preserves_ret.
  - apply preserves_bind.
    + apply Hbody, list_elem_of_here.
    + intros _. apply IH. intros y Hy. apply Hbody. now apply list_elem_of_further.
Qed.

Lemma preserves_modify (f : World HA -> World HA) :
  (forall w, R w (f w)) -> preserves R (modify f).
Proof. intros Hf w w' r [= <- <-]. apply Hf. Qed.

Lemma preserves_read {A} (m : World HA -> prog A) :
  (forall w0, preserves R (m w0)) -> preserves R (fun w => m w w).
Proof. intros Hm w w' r Hr. exact (Hm w _ _ _ Hr). Qed.

End preserves.

Section light_manager_effects.
Context {HA : Type} `{!HomeAssistantAPI HA}.

(** X11: [turn_off_sequence] on a registered sequence cannot fail, whatever
    the controller answers: it sends one off command to each light of the
    sequence, in the order of the sequence, and changes neither the
    registry nor the effect engine.  On a name that is not registered it
    raises ValueError before sending anything. *)
Theorem turn_off_sequence_outcome (sequence_name : string) (w : World HA) :
  match sequences (light_manager w) !! sequence_name with
  | Some sequence =>
      exists w',
        LightManager.turn_off_sequence sequence_name w = (w', Ok tt) /\
        calls w' = (calls w ++ off_calls (current w) (light_ids sequence))%list /\
        light_manager w' = light_manager w /\
        effect_engine w' = effect_engine w
  | None =>
      LightManager.turn_off_sequence sequence_name w
      = (w, Raise (ValueError ("Sequence " ++ sequence_name ++ " not found")))
  end.
Proof.
  destruct (sequences (light_manager w) !! sequence_name) as [seq|] eqn:Hseq.
  - destruct (turn_off_outcome sequence_name seq w Hseq)
      as (w' & Hrun & Hlm & Hee & _ & _ & Hcalls).
    exists w'. auto.
  - unfold LightManager.turn_off_sequence. now rewrite Hseq.
Qed.

Lemma fetch_state_kept (e : string) (s : LightSequence) (w w' : World HA)
    (r : result LightSequence) :
  LightManager._fetch_state e s w = (w', r) ->
  sequences (light_manager w') = sequences (light_manager w) /\
  (forall id, id <> e ->
     light_states (light_manager w') !! id = light_states (light_manager w) !! id) /\
  calls w' = calls w /\
  match r with
  | Ok s' =>
      same_but_state e s s' /\
      exists st, states s' !! e = Some st /\ entity_id st = e /\
                 light_states (light_manager w') !! e = Some st
  | Raise _ => light_manager w' = light_manager w
  end.
Proof.
  unfold LightManager._fetch_state, bindP, api_get_state, modify, ret.
  destruct (get_state (ha w) e) as [h [d|err]]; intros [= <- <-]; simpl.
  - split; [reflexivity|]. split; [intros id Hne; now apply lookup_insert_ne|].
    split; [reflexivity|]. split.
    + repeat split. intros id Hne. now apply lookup_insert_ne.
    + eexists. rewrite !lookup_insert_eq. auto.
  - auto.
Qed.

Lemma registry_kept_refl (e : string) (lm : LightManager) : registry_kept e lm lm.
Proof.
  split; [|auto]. intros key. destruct (sequences lm !! key); constructor.
  repeat split.
Qed.

Lemma update_light_call (entity_id0 : string) (rgb : Params) (w w' : World HA)
    (r : result unit) :
  LightManager.update_light entity_id0 rgb w = (w', r) ->
  calls w' = (calls w ++ [on_call (current w) entity_id0 rgb])%list.
Proof.
  unfold LightManager.update_light, bindP at 1.
  unfold api_call_service at 1.
  destruct (call_service (ha w) "light" "turn_on" _) as [h [[]|err]];
    [|intros [= <- <-]; reflexivity].
  set (w1 := set_calls _ _).
  intros Hloop.
  assert (Hkeep : preserves (fun a b : World HA => calls b = calls a)
                    (for_in (map_to_list (sequences (light_manager w1)))
                       (fun '(key, sequence) =>
                          if bool_decide (entity_id0 ∈ light_ids sequence)
                          then
                            await sequence <- LightManager._fetch_state entity_id0
                                                sequence ;;
                            modify (fun w =>
                              set_light_manager
                                (mkLightManager
                                   (<[key := sequence]> (sequences (light_manager w)))
                                   (light_states (light_manager w))) w)
                          else ret tt))).
  { apply preserves_for_in; [reflexivity | congruence |].
    intros [key s] _. destruct (bool_decide _).
    - apply preserves_bind; [congruence | |].
      + intros a b r0 Hf. exact (proj1 (proj2 (proj2 (fetch_state_kept _ _ _ _ _ Hf)))).
      + intros s'. apply preserves_modify. reflexivity.
    - apply preserves_ret. reflexivity. }
  rewrite (Hkeep _ _ _ Hloop). reflexivity.
Qed.

Lemma update_light_registry (entity_id0 : string) (rgb : Params) (w w' : World HA)
    (r : result unit) :
  LightManager.update_light entity_id0 rgb w = (w', r) ->
  registry_kept entity_id0 (light_manager w) (light_manager w').
Proof.
  unfold LightManager.update_light, bindP at 1.
  unfold api_call_service at 1.
  destruct (call_service (ha w) "light" "turn_on" _) as [h [[]|err]];
    [|intros [= <- <-]; apply registry_kept_refl].
  set (w1 := set_calls _ _).
  change (light_manager w) with (light_manager w1).
  generalize w1. clear w1. intros w1 Hloop.
  set (I := fun a : World HA =>
              registry_kept entity_id0 (light_manager w1) (light_manager a)).
  assert (Hkeep : preserves (fun a b : World HA => I a -> I b)
                    (for_in (map_to_list (sequences (light_manager w1)))
                       (fun '(key, sequence) =>
                          if bool_decide (entity_id0 ∈ light_ids sequence)
                          then
                            await sequence <- LightManager._fetch_state entity_id0
                                                sequence ;;
                            modify (fun w =>
                              set_light_manager
                                (mkLightManager
                                   (<[key := sequence]> (sequences (light_manager w)))
                                   (light_states (light_manager w))) w)
                          else ret tt))).
  { apply preserves_for_in; [auto | auto |].
    intros [key s] Hin. apply elem_of_map_to_list in Hin.
    destruct (bool_decide _); [|apply preserves_ret; auto].
    intros a b r0. unfold bindP.
    destruct (LightManager._fetch_state entity_id0 s a) as [a1 [s'|err]] eqn:Hf;
      intros [= <- <-].
    - destruct (fetch_state_kept _ _ _ _ _ Hf) as (Hseqs & Hcache & _ & Hsame & _).
      intros [Ha1 Ha2]. split.
      + intros key'. simpl. destruct (decide (key = key')) as [<- | Hne].
        * rewrite lookup_insert_eq, Hin. constructor. exact Hsame.
        * rewrite lookup_insert_ne by exact Hne. rewrite Hseqs. apply Ha1.
      + intros id Hne. simpl. rewrite (Hcache id Hne). now apply Ha2.
    - destruct (fetch_state_kept _ _ _ _ _ Hf) as (_ & _ & _ & Hlm).
      unfold I. now rewrite Hlm. }
  apply (Hkeep _ _ _ Hloop). apply registry_kept_refl.
Qed.

(** X12: whatever the controller answers, [update_light] sends exactly one
    command, turn_on for the given light with the given colour; it never
    adds, removes or renames a sequence, never changes the lights or the
    capabilities of a sequence, never touches the stored state of another
    light, and leaves the effect engine alone. *)
Theorem update_light_effects (entity_id0 : string) (rgb : Params) (w : World HA) :
  let '(w', _) := LightManager.update_light entity_id0 rgb w in
  calls w' = (calls w ++ [on_call (current w) entity_id0 rgb])%list /\
  registry_kept entity_id0 (light_manager w) (light_manager w') /\
  effect_engine w' = effect_engine w.
Proof.
  destruct (LightManager.update_light entity_id0 rgb w) as [w' r] eqn:Hrun.
  split; [exact (update_light_call _ _ _ _ _ Hrun)|].
  split; [exact (update_light_registry _ _ _ _ _ Hrun)|].
  exact (engine_free_update_light _ _ _ _ _ Hrun).
Qed.




End light_manager_effects.


(** ** A task that has died blocks its sequence *)

Section wedged.
Context {HA : Type} `{!HomeAssistantAPI HA}.

Lemma wedged_same_engine (name0 : string) (e : exn) (w w' : World HA) :
  effect_engine w' = effect_engine w -> wedged name0 e w -> wedged name0 e w'.
Proof. unfold wedged. now intros ->. Qed.

Lemma wedged_stop_effect (name0 name' : string) (e : exn) (w w' : World HA)
    (r : result unit) :
  e <> CancelledError -> wedged name0 e w ->
  EffectEngine.stop_effect name' w = (w', r) ->
  wedged name0 e w' /\ (name' = name0 -> w' = w /\ r = Raise e).
Proof.
  intros Hne (eff & cfg & tid & Hrec & Hst) Hstop.
  destruct (decide (name' = name0)) as [-> | Hneq].
  - rewrite (stop_effect_failed name0 w eff cfg tid e Hrec Hst Hne) in Hstop.
    injection Hstop as <- <-. split; [|auto]. exists eff, cfg, tid. auto.
  - split; [|congruence].
    destruct (stop_effect_cases name' w) as [(r0 & Hsame & _) | Hlive].
    + rewrite Hsame in Hstop. injection Hstop as <- <-. exists eff, cfg, tid. auto.
    + destruct Hlive as (eff' & cfg' & tid' & Hrec' & Heq). rewrite Heq in Hstop.
      pose proof (engine_free_turn_off_sequence name' _ _ _ Hstop) as He.
      exists eff, cfg, tid. rewrite He. simpl.
      rewrite lookup_delete_ne by exact Hneq. split; [exact Hrec|].
      rewrite cancel_in_not_pending; [exact Hst | congruence].
Qed.

Lemma wedged_start_effect (name0 name' effect_name : string) (cfg : EffectConfig)
    (e : exn) (w w' : World HA) (r : result unit) :
  e <> CancelledError -> wedged name0 e w ->
  EffectEngine.start_effect name' effect_name cfg w = (w', r) ->
  wedged name0 e w' /\ (name' = name0 -> w' = w /\ r = Raise e).
Proof.
  intros Hne Hw. rewrite start_effect_unfold.
  destruct (EffectEngine.stop_effect name' w) as [w1 r1] eqn:Hstop.
  destruct (wedged_stop_effect name0 name' e w w1 r1 Hne Hw Hstop) as [Hw1 Hsame].
  destruct r1 as [[]|e1]; [|intros [= <- <-]; auto].
  assert (Hneq : name' <> name0).
  { intros Heq. destruct (Hsame Heq) as [_ Hr]. discriminate. }
  destruct (sequences (light_manager w1) !! name') as [seq|];
    [|intros [= <- <-]; split; [exact Hw1 | congruence]].
  destruct (effects (effect_engine w1) !! effect_name) as [eff|];
    [|intros [= <- <-]; split; [exact Hw1 | congruence]].
  intros [= <- <-]. split; [|congruence].
  destruct Hw1 as (eff0 & cfg0 & tid & Hrec & Hst).
  exists eff0, cfg0, tid. simpl. rewrite lookup_insert_ne by exact Hneq.
  split; [exact Hrec|].
  unfold status_of in *. rewrite lookup_app_l; [exact Hst|].
  destruct (tasks (effect_engine w1) !! tid) eqn:Et; [|discriminate].
  exact (lookup_lt_Some _ _ _ Et).
Qed.

Lemma wedged_step (name0 : string) (e : exn) (ev : LightFX.event) (w : World HA) :
  e <> CancelledError -> wedged name0 e w -> wedged name0 e (LightFX.step ev w).
Proof.
  intros Hne Hw. destruct ev as [name1 ids | call | task now twinkle n]; simpl.
  - destruct (LightManager.create_sequence name1 ids w) as [w' r] eqn:Hr. simpl.
    exact (wedged_same_engine _ _ _ _ (engine_free_create_sequence _ _ _ _ _ Hr) Hw).
  - unfold LightFX.handle_service_call, try_except.
    assert (Hd : forall w1 r, LightFX.dispatch call w = (w1, r) -> wedged name0 e w1).
    { unfold LightFX.dispatch.
      destruct (String.eqb (LightFX.service call) "start_effect").
      - unfold bindP at 1. destruct (LightFX.data_sequence call) as [s|]; simpl;
          [|intros w1 r [= <- <-]; exact Hw].
        unfold bindP at 1. destruct (LightFX.data_effect call) as [eff|]; simpl;
          [|intros w1 r [= <- <-]; exact Hw].
        intros w1 r Hr. exact (proj1 (wedged_start_effect _ _ _ _ _ _ _ _ Hne Hw Hr)).
      - destruct (String.eqb (LightFX.service call) "stop_effect").
        + unfold bindP at 1. destruct (LightFX.data_sequence call) as [s|]; simpl;
            [|intros w1 r [= <- <-]; exact Hw].
          intros w1 r Hr. exact (proj1 (wedged_stop_effect _ _ _ _ _ _ Hne Hw Hr)).
        + intros w1 r [= <- <-]. exact Hw. }
    destruct (LightFX.dispatch call w) as [w1 [[]|e1]] eqn:Hdis; simpl.
    + exact (Hd _ _ eq_refl).
    + exact (wedged_same_engine _ _ _ _ eq_refl (Hd _ _ eq_refl)).
  - unfold EffectEngine.resume.
    destruct (tasks (effect_engine w) !! task) as [t|] eqn:Et; [|exact Hw].
    destruct (task_status t) eqn:Est; try exact Hw.
    destruct (EffectEngine._run_effect _ _ _ now twinkle n (set_current (Some task) w))
      as [w1 r] eqn:Hrun.
    pose proof (engine_free_run_effect _ _ _ _ _ _ _ _ _ Hrun) as He.
    simpl in He.
    assert (Hw1 : wedged name0 e (set_current (current w) w1))
      by (apply (wedged_same_engine _ _ w); [exact He | exact Hw]).
    destruct r as [[]|e1]; [exact Hw1|].
    destruct Hw1 as (eff & cfg & tid & Hrec & Hst).
    exists eff, cfg, tid. simpl in *. split; [exact Hrec|].
    unfold status_of in *. rewrite list_lookup_alter_ne; [exact Hst|].
    intros <-. rewrite He, Et in Hst. simpl in Hst. congruence.
Qed.

(** X14: a sequence whose task has died with an exception of its own (an
    unreachable light, a palette that yields no colour) is blocked for good.
    Whatever happens afterwards, the record of the dead task stays, and
    both [stop_effect] and [start_effect] on that sequence re-raise the
    task's exception and change nothing: the effect can be neither stopped
    nor replaced. *)
Theorem dead_task_blocks_sequence (name0 : string) (e : exn) (w : World HA)
    (evs : list LightFX.event) :
  e <> CancelledError ->
  wedged name0 e w ->
  let w' := LightFX.run evs w in
  wedged name0 e w' /\
  EffectEngine.stop_effect name0 w' = (w', Raise e) /\
  forall effect_name config,
    EffectEngine.start_effect name0 effect_name config w' = (w', Raise e).
Proof.
  intros Hne Hw. cbv zeta.
  assert (Hw' : wedged name0 e (LightFX.run evs w)).
  { revert w Hw. induction evs as [|ev evs IH]; intros w Hw; [exact Hw|].
    rewrite run_cons. apply IH. now apply wedged_step. }
  split; [exact Hw'|].
  destruct Hw' as (eff & cfg & tid & Hrec & Hst).
  pose proof (stop_effect_failed name0 _ eff cfg tid e Hrec Hst Hne) as Hstop.
  split; [exact Hstop|].
  intros effect_name config. now rewrite start_effect_unfold, Hstop.
Qed.

End wedged.

Lemma dead_task_blocks_sequence_witness :
  let w' := LightFX.run
              [LightFX.Service (start_call "porch" "rainbow" None);
               LightFX.Resume 0 2 ∅ 2]
              fire_wipe_world in
  wedged "porch" (AttributeError "red") w' /\
  EffectEngine.stop_effect "porch" w' = (w', Raise (AttributeError "red")) /\
  forall effect_name config,
    EffectEngine.start_effect "porch" effect_name config w'
    = (w', Raise (AttributeError "red")).
Proof.
  apply (dead_task_blocks_sequence "porch" (AttributeError "red") fire_wipe_world).
  - discriminate.
  - exists (ColorWipe, effect0), (mkEffectConfig 50 100 "fire" false false), 0%nat.
    split; vm_compute; reflexivity.
Defined.

(** ** Effects on different sequences do not disturb each other *)

Section isolation.
Context {HA : Type} `{!HomeAssistantAPI HA}.

Lemma records_keyed_same_engine (w w' : World HA) :
  effect_engine w' = effect_engine w -> records_keyed w -> records_keyed w'.
Proof. unfold records_keyed. now intros ->. Qed.

Lemma records_keyed_init (ha0 : HA) (now : Q) :
  records_keyed (LightFX.__init__ ha0 now).
Proof. intros name0 eff cfg tid H. simpl in H. rewrite lookup_empty in H. discriminate. Qed.

Lemma isolated_stop_effect (name0 : string) (w w' : World HA) (r : result unit) :
  EffectEngine.stop_effect name0 w = (w', r) ->
  records_keyed w ->
  records_keyed w' /\
  light_manager w' = light_manager w /\
  forall name' rec, name' <> name0 ->
    _running_effects (effect_engine w) !! name' = Some rec ->
    _running_effects (effect_engine w') !! name' = Some rec /\
    tasks (effect_engine w') !! rec.2 = tasks (effect_engine w) !! rec.2.
Proof.
  intros Hstop Hkeyed.
  pose proof (stop_effect_step name0 w w' r Hstop) as (_ & Hlm & _).
  destruct (stop_effect_cases name0 w) as [(r0 & Hsame & _) | Hlive].
  - rewrite Hsame in Hstop. injection Hstop as <- <-. auto.
  - destruct Hlive as (eff & cfg & tid & Hrec & Heq). rewrite Heq in Hstop.
    pose proof (engine_free_turn_off_sequence name0 _ _ _ Hstop) as He.
    split; [|split; [exact Hlm|]].
    + intros name1 eff1 cfg1 tid1. rewrite He. simpl. intros Hrec1.
      destruct (decide (name1 = name0)) as [-> | Hne].
      * rewrite lookup_delete_eq in Hrec1. discriminate.
      * rewrite lookup_delete_ne in Hrec1 by auto.
        rewrite cancel_in_key. exact (Hkeyed _ _ _ _ Hrec1).
    + intros name' [[eff' cfg'] tid'] Hne Hrec'. rewrite He. simpl.
      rewrite lookup_delete_ne by auto. split; [exact Hrec'|].
      apply cancel_in_lookup_ne. intros ->.
      pose proof (Hkeyed _ _ _ _ Hrec) as H1.
      pose proof (Hkeyed _ _ _ _ Hrec') as H2. congruence.
Qed.

Lemma isolated_start_effect (name0 effect_name : string) (config : EffectConfig)
    (w w' : World HA) (r : result unit) :
  EffectEngine.start_effect name0 effect_name config w = (w', r) ->
  records_keyed w ->
  records_keyed w' /\
  light_manager w' = light_manager w /\
  forall name' rec, name' <> name0 ->
    _running_effects (effect_engine w) !! name' = Some rec ->
    _running_effects (effect_engine w') !! name' = Some rec /\
    tasks (effect_engine w') !! rec.2 = tasks (effect_engine w) !! rec.2.
Proof.
  rewrite start_effect_unfold.
  destruct (EffectEngine.stop_effect name0 w) as [w1 r1] eqn:Hstop.
  intros Hstart Hkeyed.
  destruct (isolated_stop_effect name0 w w1 r1 Hstop Hkeyed) as (Hk1 & Hlm1 & Hiso1).
  destruct r1 as [[]|e1]; [|injection Hstart as <- <-; auto].
  destruct (sequences (light_manager w1) !! name0) as [seq|];
    [|injection Hstart as <- <-; auto].
  destruct (effects (effect_engine w1) !! effect_name) as [eff|];
    [|injection Hstart as <- <-; auto].
  injection Hstart as <- <-. split; [|split; [exact Hlm1|]].
  - intros name1 eff1 cfg1 tid1. simpl.
    destruct (decide (name1 = name0)) as [-> | Hne].
    + rewrite lookup_insert_eq. intros [= <- <- <-].
      rewrite lookup_app_r by lia. now rewrite Nat.sub_diag.
    + rewrite lookup_insert_ne by auto. intros Hrec1.
      pose proof (Hk1 _ _ _ _ Hrec1) as Hkey.
      destruct (tasks (effect_engine w1) !! tid1) as [t|] eqn:Et; [|discriminate].
      rewrite lookup_app_l by exact (lookup_lt_Some _ _ _ Et).
      now rewrite Et.
  - intros name' rec Hne Hrec'. destruct (Hiso1 name' rec Hne Hrec') as [Hr1 Ht1].
    simpl. rewrite lookup_insert_ne by auto. split; [exact Hr1|].
    rewrite <- Ht1. destruct rec as [[eff' cfg'] tid']. simpl.
    pose proof (Hk1 _ _ _ _ Hr1) as Hkey.
    destruct (tasks (effect_engine w1) !! tid') as [t|] eqn:Et; [|discriminate].
    rewrite lookup_app_l by exact (lookup_lt_Some _ _ _ Et). exact Et.
Qed.

Lemma records_keyed_step (ev : LightFX.event) (w : World HA) :
  records_keyed w -> records_keyed (LightFX.step ev w).
Proof.
  intros Hk. destruct ev as [name1 ids | call | task now twinkle n]; simpl.
  - destruct (LightManager.create_sequence name1 ids w) as [w' r] eqn:Hr. simpl.
    exact (records_keyed_same_engine _ _ (engine_free_create_sequence _ _ _ _ _ Hr) Hk).
  - unfold LightFX.handle_service_call, try_except.
    assert (Hd : forall w1 r, LightFX.dispatch call w = (w1, r) -> records_keyed w1).
    { unfold LightFX.dispatch.
      destruct (String.eqb (LightFX.service call) "start_effect").
      - unfold bindP at 1. destruct (LightFX.data_sequence call) as [s|]; simpl;
          [|intros w1 r [= <- <-]; exact Hk].
        unfold bindP at 1. destruct (LightFX.data_effect call) as [eff|]; simpl;
          [|intros w1 r [= <- <-]; exact Hk].
        intros w1 r Hr. exact (proj1 (isolated_start_effect _ _ _ _ _ _ Hr Hk)).
      - destruct (String.eqb (LightFX.service call) "stop_effect").
        + unfold bindP at 1. destruct (LightFX.data_sequence call) as [s|]; simpl;
            [|intros w1 r [= <- <-]; exact Hk].
          intros w1 r Hr. exact (proj1 (isolated_stop_effect _ _ _ _ Hr Hk)).
        + intros w1 r [= <- <-]. exact Hk. }
    destruct (LightFX.dispatch call w) as [w1 [[]|e1]] eqn:Hdis; simpl.
    + exact (Hd _ _ eq_refl).
    + exact (records_keyed_same_engine _ _ eq_refl (Hd _ _ eq_refl)).
  - unfold EffectEngine.resume.
    destruct (tasks (effect_engine w) !! task) as [t|] eqn:Et; [|exact Hk].
    destruct (task_status t) eqn:Est; try exact Hk.
    destruct (EffectEngine._run_effect _ _ _ now twinkle n (set_current (Some task) w))
      as [w1 r] eqn:Hrun.
    pose proof (engine_free_run_effect _ _ _ _ _ _ _ _ _ Hrun) as He.
    simpl in He.
    assert (Hk1 : records_keyed (set_current (current w) w1))
      by (apply (records_keyed_same_engine w); [exact He | exact Hk]).
    destruct r as [[]|e1]; [exact Hk1|].
    intros name1 eff1 cfg1 tid1 Hrec. simpl in *.
    specialize (Hk1 _ _ _ _ Hrec). simpl in Hk1.
    destruct (decide (tid1 = task)) as [-> | Hne].
    + rewrite list_lookup_alter_eq.
      destruct (tasks (effect_engine w1) !! task); [exact Hk1 | discriminate].
    + rewrite list_lookup_alter_ne by congruence. exact Hk1.
Qed.

Lemma records_keyed_run (evs : list LightFX.event) (w : World HA) :
  records_keyed w -> records_keyed (LightFX.run evs w).
Proof.
  revert w. induction evs as [|ev evs IH]; intros w Hw; [exact Hw|].
  rewrite run_cons. apply IH. now apply records_keyed_step.
Qed.

(** X15: in every world the application can reach, starting or stopping
    an effect on one sequence leaves every other sequence alone, whether
    the operation succeeds or raises: the record of the other sequence and
    the task it names are what they were, and the registry of sequences is
    untouched. *)
Theorem effects_are_isolated (ha0 : HA) (now : Q) (evs : list LightFX.event)
    (name0 name' : string) (rec : EffectObject * EffectConfig * nat) :
  let w := LightFX.run evs (LightFX.__init__ ha0 now) in
  name' <> name0 ->
  _running_effects (effect_engine w) !! name' = Some rec ->
  (let '(w', _) := EffectEngine.stop_effect name0 w in
   _running_effects (effect_engine w') !! name' = Some rec /\
   tasks (effect_engine w') !! rec.2 = tasks (effect_engine w) !! rec.2 /\
   light_manager w' = light_manager w) /\
  (forall effect_name config,
     let '(w', _) := EffectEngine.start_effect name0 effect_name config w in
     _running_effects (effect_engine w') !! name' = Some rec /\
     tasks (effect_engine w') !! rec.2 = tasks (effect_engine w) !! rec.2 /\
     light_manager w' = light_manager w).
Proof.
  cbv zeta. intros Hne Hrec.
  pose proof (records_keyed_run evs _ (records_keyed_init ha0 now)) as Hk.
  split.
  - destruct (EffectEngine.stop_effect name0 _) as [w' r] eqn:Hstop.
    destruct (isolated_stop_effect _ _ _ _ Hstop Hk) as (_ & Hlm & Hiso).
    destruct (Hiso name' rec Hne Hrec). auto.
  - intros effect_name config.
    destruct (EffectEngine.start_effect name0 effect_name config _) as [w' r] eqn:Hstart.
    destruct (isolated_start_effect _ _ _ _ _ _ Hstart Hk) as (_ & Hlm & Hiso).
    destruct (Hiso name' rec Hne Hrec). auto.
Qed.

End isolation.

Lemma effects_are_isolated_witness :
  let w := two_sequences_world in
  let rec := ((ColorWipe, effect0), default_config, 1%nat) in
  (let '(w', _) := EffectEngine.stop_effect "porch" w in
   _running_effects (effect_engine w') !! "hall" = Some rec /\
   tasks (effect_engine w') !! rec.2 = tasks (effect_engine w) !! rec.2 /\
   light_manager w' = light_manager w) /\
  (forall effect_name config,
     let '(w', _) := EffectEngine.start_effect "porch" effect_name config w in
     _running_effects (effect_engine w') !! "hall" = Some rec /\
     tasks (effect_engine w') !! rec.2 = tasks (effect_engine w) !! rec.2 /\
     light_manager w' = light_manager w).
Proof.
  cbv zeta.
  apply (effects_are_isolated (mkSimpleHA []) 0
           [LightFX.CreateSequence "porch" ["a"; "b"];
            LightFX.CreateSequence "hall" ["c"];
            LightFX.Service (start_call "porch" "rainbow" None);
            LightFX.Service (start_call "hall" "color_wipe" None)]
           "porch" "hall").
  - discriminate.
  - vm_compute. reflexivity.
Defined.

(** ** A turn of the effect loop sends the frame *)

Section run_effect.
Context {HA : Type} `{!HomeAssistantAPI HA}.

Lemma apply_updates_calls (l : list (string * Params)) :
  forall (w w' : World HA) (r : result unit),
  for_in l (fun '(entity_id0, params) => LightManager.update_light entity_id0 params) w
  = (w', r) ->
  exists k, (k <= length l)%nat /\
    calls w' = (calls w ++ frame_calls (current w) (take k l))%list /\
    (r = Ok tt -> k = length l) /\
    ((k < length l)%nat -> exists e, r = Raise e).
Proof.
  induction l as [|[id rgb] l IH]; intros w w' r; cbn [for_in].
  - intros [= <- <-]. exists 0%nat. simpl. rewrite app_nil_r.
    split; [lia|]. split; [reflexivity|]. split; [auto | lia].
  - unfold bindP at 1.
    destruct (LightManager.update_light id rgb w) as [w1 [[]|e]] eqn:Hup.
    + intros Hrest.
      pose proof (update_light_call _ _ _ _ _ Hup) as Hc1.
      destruct (orderly_update_light id rgb _ _ _ Hup) as (Hcur & _).
      destruct (IH _ _ _ Hrest) as (k & Hk & Hc & Hok & Hfail).
      exists (S k). simpl. split; [lia|]. split.
      * rewrite Hc, Hc1, Hcur, <- app_assoc. reflexivity.
      * split; [intros Hr; f_equal; auto | intros Hlt; apply Hfail; lia].
    + intros [= <- <-].
      pose proof (update_light_call _ _ _ _ _ Hup) as Hc1.
      exists 1%nat. simpl. split; [lia|].
      split; [exact Hc1|]. split; [discriminate | eauto].
Qed.

(** X16: one turn of the loop of [_run_effect], followed up to its
    [n]-th update.  When the frame generator raises, nothing is sent.
    Otherwise every command sent is a turn_on for a light of the frame,
    carrying the colour the frame holds for that light and nothing else; no
    light is addressed twice; and when the turn runs through the whole frame
    without an exception, every light of the frame has been addressed. *)
Theorem run_effect_sends_frame (sequence : LightSequence) (effect : EffectObject)
    (config : EffectConfig) (now : Q) (twinkle : gmap string Params) (n : nat)
    (w : World HA) :
  let '(w', r) := EffectEngine._run_effect sequence effect config now twinkle n w in
  match EffectEngine.generate_frame effect now twinkle sequence config with
  | Raise e => w' = w /\ r = Raise e
  | Ok updates =>
      exists sent,
        calls w' = (calls w ++ frame_calls (current w) sent)%list /\
        NoDup sent.*1 /\
        (forall id rgb, (id, rgb) ∈ sent -> updates !! id = Some rgb) /\
        (r = Ok tt -> (size updates <= n)%nat ->
         forall id rgb, updates !! id = Some rgb -> (id, rgb) ∈ sent)
  end.
Proof.
  unfold EffectEngine._run_effect.
  destruct (EffectEngine.generate_frame effect now twinkle sequence config)
    as [updates|e]; [|split; reflexivity].
  destruct (for_in (take n (map_to_list updates)) _ w) as [w' r] eqn:Hrun.
  destruct (apply_updates_calls _ _ _ _ Hrun) as (k & Hk & Hcalls & Hok & _).
  exists (take k (take n (map_to_list updates))). split; [exact Hcalls|].
  split; [|split].
  - rewrite !fmap_take.
    eapply sublist_NoDup; [|apply sublist_take].
    eapply sublist_NoDup; [|apply sublist_take].
    apply NoDup_fst_map_to_list.
  - intros id rgb Hin. apply elem_of_map_to_list.
    apply elem_of_take in Hin as (i & Hi & _).
    apply list_elem_of_lookup_2 in Hi.
    apply elem_of_take in Hi as (j & Hj & _).
    exact (list_elem_of_lookup_2 _ _ _ Hj).
  - intros Hr Hn id rgb Hlook. rewrite (Hok Hr), firstn_all.
    rewrite <- length_map_to_list in Hn. rewrite take_ge by exact Hn.
    now apply elem_of_map_to_list.
Qed.

End run_effect.

(** ** Start-up and shutdown *)

Section setup.
Context {HA : Type} `{!HomeAssistantAPI HA}.

Lemma for_in_app {A} (l1 l2 : list A) (body : A -> prog (HA := HA) unit)
    (w : World HA) :
  for_in (l1 ++ l2) body w
  = match for_in l1 body w with
    | (w1, Ok _) => for_in l2 body w1
    | (w1, Raise e) => (w1, Raise e)
    end.
Proof.
  revert w. induction l1 as [|x l1 IH]; intros w; [reflexivity|].
  change (for_in ((x :: l1) ++ l2) body w)
    with (bindP (body x) (fun _ => for_in (l1 ++ l2) body) w).
  change (for_in (x :: l1) body w)
    with (bindP (body x) (fun _ => for_in l1 body) w).
  unfold bindP. destruct (body x w) as [w1 [[]|e]]; [apply IH | reflexivity].
Qed.

Lemma setup_app (l1 l2 : list LightFX.SequenceConfig) (w : World HA) :
  LightFX.setup (l1 ++ l2) w
  = match LightFX.setup l1 w with
    | (w1, Ok _) => LightFX.setup l2 w1
    | (w1, Raise e) => (w1, Raise e)
    end.
Proof. apply for_in_app. Qed.

Lemma setup_named (l : list LightFX.SequenceConfig) (w : World HA) :
  Forall named_entry l -> exists w', LightFX.setup l w = (w', Ok tt).
Proof.
  unfold LightFX.setup. revert w. induction l as [|sc l IH]; intros w Hall;
    cbn [for_in]; [eauto|].
  destruct (Forall_inv Hall) as [n Hn].
  unfold bindP at 1, try_except at 1.
  destruct (LightFX.setup_sequence sc w) as [w1 [[]|e]].
  - apply IH. exact (Forall_inv_tail Hall).
  - rewrite Hn. simpl. apply IH. exact (Forall_inv_tail Hall).
Qed.

(** X17: [setup] contains the failure of an entry only when the entry has a
    name.  If every entry is named, [setup] returns normally whatever the
    controller answers, and the entries after a failed one are still set
    up: setting up a list is setting up its parts one after the other.  An
    entry without a name makes the error handler itself raise KeyError, which
    ends [setup]: the entries after it are never looked at. *)
Theorem setup_contains_failures (l1 l2 : list LightFX.SequenceConfig)
    (w : World HA) :
  Forall named_entry l1 ->
  (exists w1,
     LightFX.setup l1 w = (w1, Ok tt) /\
     LightFX.setup (l1 ++ l2) w = LightFX.setup l2 w1 /\
     forall bad, LightFX.seq_name bad = None ->
       LightFX.setup (l1 ++ bad :: l2) w = (w1, Raise (KeyError "name"))).
Proof.
  intros Hall. destruct (setup_named l1 w Hall) as [w1 Hw1].
  exists w1. split; [exact Hw1|]. split.
  - now rewrite setup_app, Hw1.
  - intros bad Hbad. rewrite setup_app, Hw1.
    unfold LightFX.setup. cbn [for_in].
    unfold bindP at 1, try_except, LightFX.setup_sequence.
    unfold bindP at 1. rewrite Hbad. reflexivity.
Qed.



End setup.


Lemma setup_contains_failures_witness :
  exists w1,
    LightFX.setup [cellar_entry; porch_entry] (LightFX.__init__ (mkSimpleHA ["x"]) 0)
    = (w1, Ok tt) /\
    LightFX.setup ([cellar_entry; porch_entry] ++ [])
      (LightFX.__init__ (mkSimpleHA ["x"]) 0) = LightFX.setup [] w1 /\
    forall bad, LightFX.seq_name bad = None ->
      LightFX.setup ([cellar_entry; porch_entry] ++ bad :: [])
        (LightFX.__init__ (mkSimpleHA ["x"]) 0) = (w1, Raise (KeyError "name")).
Proof.
  apply (setup_contains_failures [cellar_entry; porch_entry] []
           (LightFX.__init__ (mkSimpleHA ["x"]) 0)).
  repeat constructor; eexists; reflexivity.
Defined.

(** The unreachable light of "cellar" does not keep "porch" from being set
    up with its default effect; the nameless entry ends [setup], and "hall"
    after it is never created. *)
Example setup_three_entries :
  let hall := LightFX.mkSequenceConfig (Some "hall") (Some ["c"]) None None None in
  let '(w', r) :=
    LightFX.setup [cellar_entry; porch_entry; nameless_entry; hall]
      (LightFX.__init__ (mkSimpleHA ["x"]) 0) in
  r = Raise (KeyError "name") /\
  dom (sequences (light_manager w')) = {["porch"]} /\
  (fun rec => (speed rec.1.2, intensity rec.1.2, palette_name rec.1.2))
    <$> _running_effects (effect_engine w') !! "porch"
  = Some (80%Z, 100%Z, "rainbow").
Proof. vm_compute. repeat split. Qed.

Section cleanup.
Context {HA : Type} `{!HomeAssistantAPI HA}.












End cleanup.


(** ** A task addresses the lights it was started with *)

Lemma for_each_keys {A} (ids : list string) (items : list A)
    (body : A -> gmap string Params -> result (gmap string Params)) :
  (forall item u u', item ∈ items -> body item u = Ok u' ->
     forall k, is_Some (u' !! k) -> is_Some (u !! k) \/ k ∈ ids) ->
  forall u u', for_each items body u = Ok u' ->
  forall k, is_Some (u' !! k) -> is_Some (u !! k) \/ k ∈ ids.
Proof.
  induction items as [|x items IH]; intros Hbody u u'; cbn [for_each].
  - intros [= <-]. auto.
  - destruct (body x u) as [u1|e] eqn:Hx; [|discriminate]. cbn [bind].
    intros Hrest k Hk.
    destruct (IH (fun item a b Hin => Hbody item a b (list_elem_of_further _ _ _ Hin))
                u1 u' Hrest k Hk) as [H1 | Hin]; [|auto].
    exact (Hbody x u u1 (list_elem_of_here _ _) Hx k H1).
Qed.

Lemma rainbow_body_keys (self : Effect) (sequence : LightSequence)
    (config : EffectConfig) (num_lights : nat) (time_offset : Q)
    (item : nat * string) (u u' : gmap string Params) :
  item ∈ enumerate (light_ids sequence) ->
  RainbowEffect.body self sequence config num_lights time_offset item u = Ok u' ->
  forall k, is_Some (u' !! k) -> is_Some (u !! k) \/ k ∈ light_ids sequence.
Proof.
  destruct item as [i id]. intros Hin.
  apply elem_of_enumerate_from in Hin as (j & -> & Hj).
  apply list_elem_of_lookup_2 in Hj.
  unfold RainbowEffect.body.
  destruct (get_color_at_position _ _ _) as [c|]; [|discriminate]. cbn [bind].
  destruct (apply_intensity config c) as [rgb|]; [|discriminate]. cbn [bind].
  destruct (mirror config && _).
  - destruct (light_ids sequence !! _) as [m|] eqn:Em; [|discriminate].
    apply list_elem_of_lookup_2 in Em. intros [= <-] k0.
    rewrite !lookup_insert_is_Some. intros [<-|[_ [<-|[_ H]]]]; auto.
  - intros [= <-] k0. rewrite lookup_insert_is_Some. intros [<-|[_ H]]; auto.
Qed.

Lemma wipe_body_keys (self : Effect) (sequence : LightSequence)
    (config : EffectConfig) (num_lights : nat) (active_lights : Z)
    (item : nat * string) (u u' : gmap string Params) :
  item ∈ enumerate (light_ids sequence) ->
  ColorWipeEffect.body self config num_lights active_lights item u = Ok u' ->
  forall k, is_Some (u' !! k) -> is_Some (u !! k) \/ k ∈ light_ids sequence.
Proof.
  destruct item as [i id]. intros Hin.
  apply elem_of_enumerate_from in Hin as (j & -> & Hj).
  apply list_elem_of_lookup_2 in Hj.
  unfold ColorWipeEffect.body.
  destruct (_ <? _)%Z.
  - destruct (get_color_at_position _ _ _) as [c|]; [|discriminate]. cbn [bind].
    destruct (apply_intensity config c) as [rgb|]; [|discriminate]. cbn [bind].
    intros [= <-] k0. rewrite lookup_insert_is_Some. intros [<-|[_ H]]; auto.
  - intros [= <-] k0. rewrite lookup_insert_is_Some. intros [<-|[_ H]]; auto.
Qed.

Lemma frame_keys (effect : EffectObject) (now : Q) (twinkle : gmap string Params)
    (sequence : LightSequence) (config : EffectConfig)
    (updates : gmap string Params) (k : string) :
  effect.1 <> Twinkle ->
  EffectEngine.generate_frame effect now twinkle sequence config = Ok updates ->
  is_Some (updates !! k) -> k ∈ light_ids sequence.
Proof.
  intros Hkind. unfold EffectEngine.generate_frame.
  destruct effect as [[| |] self]; cbn [fst snd]; [| |contradiction].
  - unfold RainbowEffect.generate_frame. intros Hframe Hk.
    destruct (for_each_keys (light_ids sequence) _ _
                (fun item u u' => rainbow_body_keys self sequence config _ _ item u u')
                ∅ updates Hframe k Hk) as [[? H]|H];
      [rewrite lookup_empty in H; discriminate | exact H].
  - unfold ColorWipeEffect.generate_frame.
    destruct (palettes (color_manager self) !! palette_name config); [|discriminate].
    intros Hframe Hk.
    destruct (for_each_keys (light_ids sequence) _ _
                (fun item u u' => wipe_body_keys self sequence config _ _ item u u')
                ∅ updates Hframe k Hk) as [[? H]|H];
      [rewrite lookup_empty in H; discriminate | exact H].
Qed.

Section own_lights.
Context {HA : Type} `{!HomeAssistantAPI HA}.

(** X20: a pending rainbow or colour-wipe task, when the event loop resumes
    it, sends nothing but turn_on commands in its own name to lights of the
    sequence it was started with, whatever has been registered under the
    sequence's name since. *)
Theorem task_addresses_own_lights (tid : nat) (now : Q)
    (twinkle : gmap string Params) (n : nat) (w : World HA) (t : Task) :
  tasks (effect_engine w) !! tid = Some t ->
  task_status t = Pending ->
  (task_effect t).1 <> Twinkle ->
  Forall (fun c => call_name c = "turn_on" /\ issuer c = Some tid /\
                   data_entity_id (call_data c) ∈ light_ids (task_sequence t))
    (calls_since w (EffectEngine.resume tid now twinkle n w)).
Proof.
  intros Ht Hp Hkind. unfold EffectEngine.resume. rewrite Ht, Hp.
  destruct (EffectEngine._run_effect _ _ _ now twinkle n (set_current (Some tid) w))
    as [w1 r] eqn:Hrun.
  assert (Hcalls : Forall (fun c => call_name c = "turn_on" /\ issuer c = Some tid /\
                     data_entity_id (call_data c) ∈ light_ids (task_sequence t))
                     (drop (length (calls w)) (calls w1))).
  { revert Hrun. unfold EffectEngine._run_effect.
    destruct (EffectEngine.generate_frame (task_effect t) now twinkle
                (task_sequence t) (task_config t)) as [updates|e] eqn:Hframe.
    - intros Hrun.
      destruct (apply_updates_calls _ _ _ _ Hrun) as (k & _ & Hc & _).
      simpl in Hc. rewrite Hc, drop_app_length.
      apply Forall_forall. intros c Hin.
      apply list_elem_of_fmap in Hin as ([id rgb] & -> & Hin).
      split; [reflexivity|]. split; [reflexivity|]. simpl.
      apply (frame_keys _ _ _ _ _ updates id Hkind Hframe).
      apply elem_of_take in Hin as (i & Hi & _).
      apply list_elem_of_lookup_2 in Hi.
      apply elem_of_take in Hi as (j & Hj & _).
      apply list_elem_of_lookup_2, elem_of_map_to_list in Hj. eauto.
    - intros [= <- <-]. simpl. rewrite drop_all. constructor. }
  unfold calls_since. destruct r as [[]|e]; exact Hcalls.
Qed.

End own_lights.

Lemma task_addresses_own_lights_witness :
  Forall (fun c => call_name c = "turn_on" /\ issuer c = Some 0%nat /\
                   data_entity_id (call_data c) ∈ ["a"; "b"])
    (calls_since porch_world (EffectEngine.resume 0 (3 # 2) ∅ 2 porch_world)).
Proof.
  assert (Ht : exists t, tasks (effect_engine porch_world) !! 0%nat = Some t /\
                         task_status t = Pending /\ (task_effect t).1 = Rainbow /\
                         light_ids (task_sequence t) = ["a"; "b"]).
  { eexists. split; [vm_compute; reflexivity|]. repeat split. }
  destruct Ht as (t & Ht & Hp & Hkind & Hids). rewrite <- Hids.
  apply (task_addresses_own_lights 0 (3 # 2) ∅ 2 porch_world t Ht Hp).
  rewrite Hkind. discriminate.
Defined.

(** ** Effects in time *)



Lemma activeCount_speed_zero (N : nat) (elapsed : Q) :
  spec.activeCount N 0 elapsed = 0%Z.
Proof.
  unfold spec.activeCount.
  rewrite (Qfloor_comp _ (inject_Z 0)); [|change (inject_Z 0) with 0; field].
  rewrite Qfloor_Z. apply Z.mod_0_l. lia.
Qed.




(** X22: at speed 0 the colour wipe never lights anything: whatever the
    clock, the frame over any registered palette sets every light of the
    sequence to [0, 0, 0]; the palette is not even queried. *)
Theorem color_wipe_speed_zero_is_dark (self : Effect) (now : Q)
    (sequence : LightSequence) (config : EffectConfig) (p : Palette) :
  speed config = 0%Z ->
  palettes (color_manager self) !! palette_name config = Some p ->
  exists updates,
    ColorWipeEffect.generate_frame self now sequence config = Ok updates /\
    dom updates = list_to_set (light_ids sequence) /\
    forall id, id ∈ light_ids sequence -> updates !! id = Some [0; 0; 0]%Z.
Proof.
  intros Hs Hp. unfold ColorWipeEffect.generate_frame.
  rewrite Hp, active_lights_spec, Hs, activeCount_speed_zero.
  rewrite (for_each_ok _ _ (fun item u => <[item.2 := [0; 0; 0]%Z]> u)).
  - cbv beta. eexists. split; [reflexivity|]. split.
    + apply set_eq. intros key.
      rewrite elem_of_dom, elem_of_list_to_set.
      rewrite (insert_fold_keys (fun _ => [0; 0; 0]%Z)), enumerate_keys.
      rewrite lookup_empty. split; [|auto].
      intros [[? H]|H]; [discriminate | exact H].
    + intros id Hin.
      assert (Hsome : is_Some (foldl (fun u item => <[item.2 := [0; 0; 0]%Z]> u)
                                 (∅ : gmap string Params)
                                 (enumerate (light_ids sequence)) !! id)).
      { apply (insert_fold_keys (fun _ => [0; 0; 0]%Z)).
        right. now rewrite enumerate_keys. }
      destruct Hsome as [rgb Hrgb]. etransitivity; [exact Hrgb|]. f_equal.
      exact (insert_fold_Forall (fun rgb => rgb = [0; 0; 0]%Z)
               (fun _ => [0; 0; 0]%Z) _ ∅ (fun _ => eq_refl)
               (map_Forall_empty _) id rgb Hrgb).
  - intros [k id] u _. unfold ColorWipeEffect.body.
    destruct (Z.ltb_spec (Z.of_nat (if reverse config
                                    then (length (light_ids sequence) - 1 - k)%nat
                                    else k)) 0); [lia | reflexivity].
Qed.

Lemma color_wipe_speed_zero_is_dark_witness :
  exists updates,
    ColorWipeEffect.generate_frame effect0 (7 # 3) five_lights
      (mkEffectConfig 0 60 "fire" true false) = Ok updates /\
    dom updates = list_to_set (light_ids five_lights) /\
    forall id, id ∈ light_ids five_lights -> updates !! id = Some [0; 0; 0]%Z.
Proof.
  apply (color_wipe_speed_zero_is_dark effect0 (7 # 3) five_lights
           (mkEffectConfig 0 60 "fire" true false) fire).
  - reflexivity.
  - vm_compute. reflexivity.
Defined.

(** *** Equal rationals give equal colours *)

















(** ** The event subscription *)

Section subscription.
Context {E S : Type}.

Lemma listen_delivers (callback : E -> S -> S * result unit)
    (msgs : list (Message E)) :
  Forall well_formed msgs ->
  (forall ev s, (callback ev s).2 = Ok tt) ->
  forall s, listen callback msgs s = (deliver callback (events_of msgs) s, Waiting).
Proof.
  intros Hwf Hcb. induction msgs as [|m msgs IH]; intros s; cbn [listen];
    [reflexivity|].
  destruct (Forall_inv Hwf) as [[ty Hty] Hev].
  specialize (IH (Forall_inv_tail Hwf)).
  unfold events_of. cbn [omap list_omap]. rewrite Hty.
  destruct (String.eqb_spec ty "event") as [-> | Hne].
  - destruct (Hev Hty) as [ev Hmev]. rewrite Hmev.
    rewrite decide_True by reflexivity. cbn [mbind option_bind].
    specialize (Hcb ev s). destruct (callback ev s) as [s1 r] eqn:Hcall.
    simpl in Hcb. subst r. unfold deliver. cbn [foldl]. rewrite Hcall. apply IH.
  - rewrite decide_False by congruence. apply IH.
Qed.

(** X24: the subscription when the controller accepts it.  A client that
    is not yet connected authenticates, raises its message counter by one and
    subscribes under the new counter value; after the confirmation, exactly
    the payloads of the messages of type "event" reach the callback, one by
    one in the order of arrival, every other message being skipped; and the
    coroutine is left waiting for the next message: it never returns. *)
Theorem subscribe_delivers_events (self : Client) (event_type : string)
    (callback : E -> S -> S * result unit)
    (auth confirm : Message E) (msgs : list (Message E)) (s : S) :
  websocket self = false ->
  msg_type auth = Some "auth_ok" ->
  msg_type confirm = Some "result" -> msg_success confirm = Some true ->
  Forall well_formed msgs ->
  (forall ev s, (callback ev s).2 = Ok tt) ->
  exists self',
    subscribe_to_events self event_type callback (auth :: confirm :: msgs) s
    = (self', deliver callback (events_of msgs) s, Waiting) /\
    sent self' = (sent self ++ [AuthMsg (token self);
                                SubscribeMsg (id_counter self + 1) event_type])%list /\
    id_counter self' = (id_counter self + 1)%Z /\
    websocket self' = true.
Proof.
  intros Hws Hauth Hconf Hsucc Hwf Hcb.
  unfold subscribe_to_events, connect_websocket.
  rewrite Hws, Hauth. cbn [negb String.eqb Ascii.eqb Bool.eqb andb].
  cbn [websocket id_counter sent token host port]. rewrite Hconf, Hsucc.
  cbn [negb String.eqb Ascii.eqb Bool.eqb andb orb default].
  rewrite (listen_delivers callback msgs Hwf Hcb s).
  eexists. split; [reflexivity|]. cbn. rewrite <- app_assoc. auto.
Qed.

(** X25: the subscription when the controller refuses.  If the answer to
    the authentication is not "auth_ok", the function raises without
    subscribing; if the answer to the subscription is not a successful
    "result", it raises after subscribing.  In both cases the callback is
    never invoked, whatever messages follow.  After a refused authentication
    the client still holds its websocket, so a second call subscribes
    without authenticating again. *)
Theorem subscribe_refused (self : Client) (event_type : string)
    (callback : E -> S -> S * result unit)
    (first : Message E) (msgs : list (Message E)) (s : S) (ty : string) :
  websocket self = false ->
  msg_type first = Some ty ->
  (ty <> "auth_ok" ->
   exists self',
     subscribe_to_events self event_type callback (first :: msgs) s
     = (self', s, Raised (ControllerError "Authentication failed")) /\
     sent self' = (sent self ++ [AuthMsg (token self)])%list /\
     websocket self' = true /\
     forall msgs' s',
       sent (subscribe_to_events self' event_type callback msgs' s').1.1
       = (sent self' ++ [SubscribeMsg (id_counter self + 1) event_type])%list) /\
  (ty = "auth_ok" ->
   forall confirm ty',
     msg_type confirm = Some ty' ->
     ty' <> "result" \/ default false (msg_success confirm) = false ->
     exists self',
       subscribe_to_events self event_type callback (first :: confirm :: msgs) s
       = (self', s, Raised (ControllerError "Failed to subscribe to events")) /\
       sent self' = (sent self ++ [AuthMsg (token self);
                                   SubscribeMsg (id_counter self + 1) event_type])%list).
Proof.
  intros Hws Hfirst. split.
  - intros Hne. unfold subscribe_to_events at 1, connect_websocket.
    rewrite Hws, Hfirst. apply String.eqb_neq in Hne. rewrite Hne. cbn [negb].
    eexists. split; [reflexivity|]. cbn. split; [reflexivity|].
    split; [reflexivity|].
    intros msgs' s'. unfold subscribe_to_events. cbn.
    destruct msgs' as [|m msgs']; [reflexivity|].
    destruct (msg_type m) as [t|]; [|reflexivity].
    destruct (negb (String.eqb t "result") || negb (default false (msg_success m)));
      [reflexivity|].
    destruct (listen callback msgs' s'). reflexivity.
  - intros -> confirm ty' Hconf Hbad.
    unfold subscribe_to_events, connect_websocket.
    rewrite Hws, Hfirst. cbn [negb String.eqb Ascii.eqb Bool.eqb andb].
    cbn [websocket id_counter sent token host port]. rewrite Hconf.
    assert (Hcond : negb (String.eqb ty' "result")
                    || negb (default false (msg_success confirm)) = true).
    { destruct Hbad as [Hne | Hfalse].
      - apply String.eqb_neq in Hne. now rewrite Hne.
      - rewrite Hfalse. apply orb_true_r. }
    rewrite Hcond. eexists. split; [reflexivity|]. cbn. now rewrite <- app_assoc.
Qed.

Lemma listen_never_returns (callback : E -> S -> S * result unit)
    (msgs : list (Message E)) (s : S) :
  (listen callback msgs s).2 <> Returned tt.
Proof.
  revert s. induction msgs as [|m msgs IH]; intros s; cbn [listen]; [discriminate|].
  destruct (msg_type m) as [ty|]; [|discriminate].
  destruct (String.eqb ty "event"); [|apply IH].
  destruct (msg_event m) as [ev|]; [|discriminate].
  destruct (callback ev s) as [s1 [[]|e]]; [apply IH | discriminate].
Qed.

(** X26: [subscribe_to_events] never returns.  Whatever the client, the
    callback and the messages, it ends by raising or is left waiting for a
    message; the statements that follow the call in [run] are reached by no
    execution.  An exception raised by the callback ends the subscription
    with that exception. *)
Theorem subscribe_never_returns (self : Client) (event_type : string)
    (callback : E -> S -> S * result unit) (msgs : list (Message E)) (s : S) :
  (subscribe_to_events self event_type callback msgs s).2 <> Returned tt /\
  forall ev e msgs' s',
    callback ev s = (s', Raise e) ->
    listen callback (mkMessage (Some "event") None (Some ev) :: msgs') s
    = (s', Raised e).
Proof.
  split.
  - unfold subscribe_to_events.
    destruct (if websocket self then _ else _) as [[self1 incoming] [[]|e|]];
      [|discriminate|discriminate].
    destruct incoming as [|m incoming]; [discriminate|].
    destruct (msg_type m) as [ty|]; [|discriminate].
    destruct (negb (String.eqb ty "result") || negb (default false (msg_success m)));
      [discriminate|].
    pose proof (listen_never_returns callback incoming s) as H.
    destruct (listen callback incoming s) as [s1 r]. exact H.
  - intros ev e msgs' s' Hcall. cbn [listen msg_type msg_event].
    cbn [String.eqb Ascii.eqb Bool.eqb andb]. now rewrite Hcall.
Qed.

End subscription.

Lemma subscribe_delivers_events_witness :
  let msgs := [event_msg (start_call "porch" "rainbow" None); pong_msg;
               event_msg (start_call "porch" "color_wipe" None)] in
  let w := LightFX.run [LightFX.CreateSequence "porch" ["a"; "b"]]
             (LightFX.__init__ (mkSimpleHA []) 0) in
  exists self',
    subscribe_to_events (new_Client "supervisor" "secret") "light_fx_service_call"
      LightFX.handle_service_call (auth_ok_msg :: result_msg true :: msgs) w
    = (self', deliver LightFX.handle_service_call (events_of msgs) w, Waiting) /\
    sent self' = [AuthMsg "secret"; SubscribeMsg 1 "light_fx_service_call"] /\
    id_counter self' = 1%Z /\
    websocket self' = true.
Proof.
  cbv zeta.
  apply (subscribe_delivers_events (new_Client "supervisor" "secret")
           "light_fx_service_call" LightFX.handle_service_call
           auth_ok_msg (result_msg true)).
  - reflexivity.
  - reflexivity.
  - reflexivity.
  - reflexivity.
  - repeat constructor; try (eexists; reflexivity); try discriminate.
  - intros ev s. unfold LightFX.handle_service_call, try_except.
    destruct (LightFX.dispatch ev s) as [s1 [[]|e]]; reflexivity.
Defined.

Lemma subscribe_refused_witness :
  let w := LightFX.__init__ (mkSimpleHA []) 0 in
  let call := event_msg (start_call "porch" "rainbow" None) in
  (exists self',
     subscribe_to_events (new_Client "supervisor" "wrong") "light_fx_service_call"
       LightFX.handle_service_call [auth_invalid_msg; call] w
     = (self', w, Raised (ControllerError "Authentication failed")) /\
     sent self' = [AuthMsg "wrong"] /\
     websocket self' = true /\
     forall msgs' s',
       sent (subscribe_to_events self' "light_fx_service_call"
               LightFX.handle_service_call msgs' s').1.1
       = (sent self' ++ [SubscribeMsg 1 "light_fx_service_call"])%list) /\
  (exists self',
     subscribe_to_events (new_Client "supervisor" "secret") "light_fx_service_call"
       LightFX.handle_service_call [auth_ok_msg; result_msg false; call] w
     = (self', w, Raised (ControllerError "Failed to subscribe to events")) /\
     sent self' = [AuthMsg "secret"; SubscribeMsg 1 "light_fx_service_call"]).
Proof.
  cbv zeta. split.
  - apply (subscribe_refused (new_Client "supervisor" "wrong")
             "light_fx_service_call" LightFX.handle_service_call
             auth_invalid_msg _ _ "auth_invalid"); [reflexivity | reflexivity |].
    discriminate.
  - apply (proj2 (subscribe_refused (new_Client "supervisor" "secret")
                    "light_fx_service_call" LightFX.handle_service_call
                    auth_ok_msg _ _ "auth_ok" eq_refl eq_refl)
             eq_refl (result_msg false) "result" eq_refl).
    right. reflexivity.
Defined.
